(** * X-Road-Metrics anonymizer: a shallow embedding of
      [anonymizer_module/opmon_anonymizer/anonymizer.py]

    The development follows the Python module top to bottom:
    - the builtins the module leans on ([str.strip], [str.split],
      [str.format], [str], insertion-ordered [dict]s),
    - the configuration readers of class [Anonymizer]
      ([_get_field_translations], [_get_field_value_masks]),
    - class [AnonymizationJob] over an explicit object store, because its
      methods build and mutate dictionaries that alias the values of the
      dual records they were read from,
    - the batching loop [Anonymizer.anonymize] over a reader that exposes a
      cursor and a lazy sequence of records.

    Strings are ASCII strings; numbers are unbounded integers (Python [int]);
    floats are not part of the value universe. *)

From Stdlib Require Import ZArith String Ascii DecimalString.
From stdpp Require Import gmap strings list.

Local Open Scope Z_scope.

(** ** Exceptions and results *)

Inductive exn :=
| KeyError
| TypeError
| ValueError
| WriterError        (* raised by the sink's [write_records] *)
| TransformerError   (* raised by a transformer *)
| BadReference.      (* a location outside the store; no Python program
                        can produce one, it only keeps the model total *)

Inductive result (A : Type) :=
| Ok (a : A)
| Raise (e : exn).
Arguments Ok {A} a.
Arguments Raise {A} e.

Definition is_raise {A} (r : result A) : bool :=
  match r with Ok _ => false | Raise _ => true end.

(** ** Python builtins on strings *)

Module Py.

(** [str.isspace] restricted to ASCII: TAB, LF, VT, FF, CR, FS, GS, RS, US
    and the space. *)
Definition is_space (a : ascii) : bool :=
  let n := nat_of_ascii a in
  ((9 <=? n)%nat && (n <=? 13)%nat) || ((28 <=? n)%nat && (n <=? 32)%nat).

Fixpoint lstrip (s : string) : string :=
  match s with
  | EmptyString => EmptyString
  | String a s' => if is_space a then lstrip s' else s
  end.

Fixpoint rstrip (s : string) : string :=
  match s with
  | EmptyString => EmptyString
  | String a s' =>
      match rstrip s' with
      | EmptyString => if is_space a then EmptyString else String a EmptyString
      | r => String a r
      end
  end.

(** [s.strip()] *)
Definition strip (s : string) : string := lstrip (rstrip s).

(** [s.split(sep)] for a non-empty separator: the occurrences of [sep] are
    found from the left and do not overlap.  [skip] counts the characters of
    an occurrence that are still to be passed over. *)
Fixpoint split_from (sep s : string) (skip : nat) : list string :=
  match s with
  | EmptyString => [EmptyString]
  | String a s' =>
      match skip with
      | S k => split_from sep s' k
      | O =>
          if String.prefix sep s
          then EmptyString :: split_from sep s' (String.length sep - 1)
          else match split_from sep s' 0 with
               | cur :: rest => String a cur :: rest
               | [] => [String a EmptyString]
               end
      end
  end.

Definition split (sep s : string) : list string := split_from sep s 0.

(** [str(n)] for an [int]. *)
Definition str_of_int (z : Z) : string := NilZero.string_of_int (Z.to_int z).

Definition digit_of (a : ascii) : option nat :=
  let n := nat_of_ascii a in
  if ((48 <=? n)%nat && (n <=? 57)%nat)%bool then Some (n - 48)%nat else None.

(** [template.format(arg0, arg1, ...)] for templates whose replacement fields are a
    single decimal digit in braces, which is all the module uses.  An index
    with no argument raises [IndexError] in Python; no call of the module
    has one, and the model puts the empty string there. *)
Fixpoint format (template : string) (args : list string) : string :=
  match template with
  | EmptyString => EmptyString
  | String a rest =>
      match rest with
      | String d (String c rest') =>
          match digit_of d with
          | Some i =>
              if (Ascii.eqb a "{" && Ascii.eqb c "}")%bool
              then (nth i args EmptyString +:+ format rest' args)%string
              else String a (format rest args)
          | None => String a (format rest args)
          end
      | _ => String a (format rest args)
      end
  end.

(** *** Insertion-ordered dictionaries with string keys

    A [dict] is the list of its items in insertion order.  Assigning to a
    key that is present keeps the key's position. *)
Section Dict.
Context {V : Type}.

Fixpoint dict_get (k : string) (d : list (string * V)) : option V :=
  match d with
  | [] => None
  | (k', v) :: d' => if decide (k = k') then Some v else dict_get k d'
  end.

(** [k in d] *)
Definition dict_mem (k : string) (d : list (string * V)) : bool :=
  match dict_get k d with Some _ => true | None => false end.

(** [d[k] = v] *)
Fixpoint dict_set (k : string) (v : V) (d : list (string * V))
  : list (string * V) :=
  match d with
  | [] => [(k, v)]
  | (k', v') :: d' =>
      if decide (k = k') then (k, v) :: d' else (k', v') :: dict_set k v d'
  end.
End Dict.

End Py.
Import Py.

(** ** Values and the object store *)

Abbreviation loc := nat.

(** The values a record field can hold: [None], a [bool], an [int], a [str]
    or a reference to a dictionary object (a nested document). *)
Inductive val :=
| VNone
| VBool (b : bool)
| VInt (z : Z)
| VStr (s : string)
| VRef (l : loc).

#[global] Instance val_eq_dec : EqDecision val.
Proof. solve_decision. Defined.

Abbreviation dict := (list (string * val)).

(** The store: every dictionary object the program can reach, by location.
    Allocation appends. *)
Abbreviation store := (list dict).

(** A compiled regular expression, [re.compile(...)], seen through the one
    method the module calls on it: [pattern.match(s)] as a truth value. *)
Definition pattern := string -> bool.

(** ** RuleCompiler: [Anonymizer._get_field_translations] *)

(** An entry of the translation dictionary: either a new name (from a line
    whose original name has one segment) or an agent's own table. *)
Inductive translation :=
| TName (new_name : string)
| TTable (table : list (string * string)).

Definition translations := list (string * translation).

(** [translations = {'client': {}, 'producer': {}}] *)
Definition empty_translations : translations :=
  [("client"%string, TTable []); ("producer"%string, TTable [])].

(** The body of the [for line in field_translations_file] loop. *)
Definition add_translation_line (tr : translations) (line : string)
  : result translations :=
  match split " -> " (strip line) with
  | [original_name; new_name] =>
      match split "." original_name with
      | [p0] => Ok (dict_set p0 (TName new_name) tr)
      | [p0; p1] =>
          match dict_get p0 tr with
          | None => Raise KeyError
          | Some (TName _) => Raise TypeError
          | Some (TTable t) => Ok (dict_set p0 (TTable (dict_set p1 new_name t)) tr)
          end
      | _ => Ok tr
      end
  | _ => Raise ValueError
  end.

Fixpoint add_translation_lines (tr : translations) (lines : list string)
  : result translations :=
  match lines with
  | [] => Ok tr
  | line :: lines' =>
      match add_translation_line tr line with
      | Ok tr' => add_translation_lines tr' lines'
      | Raise e => Raise e
      end
  end.

(** The [except] clause logs and re-raises, so the caller sees the
    exception of the body. *)
Definition _get_field_translations (lines : list string) : result translations :=
  add_translation_lines empty_translations lines.

(** ** RuleCompiler: [Anonymizer._get_allowed_fields] *)

(** [[line.strip().split(' -> ')[0] for line in file if line.strip()]].
    [split] returns at least one piece, so the index [0] is always there;
    the model gives the empty string for the list [split] never returns. *)
Definition _get_allowed_fields (lines : list string) : list string :=
  map (fun line => match split " -> " (strip line) with
                   | original_name :: _ => original_name
                   | [] => EmptyString
                   end)
    (filter (fun line => strip line <> EmptyString) lines).

(** Only the two entries the translation table starts with are ever
    tables. *)
Definition tables_are_agents (tr : translations) : Prop :=
  forall k t, dict_get k tr = Some (TTable t) ->
              k = "client"%string \/ k = "producer"%string.

(** ** RuleCompiler: [Anonymizer._get_field_value_masks] *)

Definition masks := list (string * gset string).

(** [masks = {'client': set(), 'producer': set()}] *)
Definition empty_masks : masks :=
  [("client"%string, ∅); ("producer"%string, ∅)].

(** [masks[agent].add(field_name)] *)
Definition mask_add (agent field_name : string) (m : masks) : result masks :=
  match dict_get agent m with
  | Some s => Ok (dict_set agent ({[field_name]} ∪ s) m)
  | None => Raise KeyError
  end.

(** ['client' if field_data['agent'] == 'producer' else 'producer'] *)
Definition masked_agent_of (agent : val) : string :=
  if decide (agent = VStr "producer") then "client"%string else "producer"%string.

(** The loop over [yaml.safe_load(f)['fields'].items()]. *)
Fixpoint add_field_masks (m : masks) (fields : list (string * dict))
  : result masks :=
  match fields with
  | [] => Ok m
  | (field_name, field_data) :: fields' =>
      match dict_get "agent" field_data with
      | Some agent =>
          match mask_add (masked_agent_of agent) field_name m with
          | Ok m' => add_field_masks m' fields'
          | Raise e => Raise e
          end
      | None => add_field_masks m fields'
      end
  end.

Definition _get_field_value_masks (fields : list (string * dict)) : result masks :=
  add_field_masks empty_masks fields.

(** The mask set of an agent in compiled masks; empty when the agent has
    none. *)
Definition mask_of (agent : string) (m : masks) : gset string :=
  default ∅ (dict_get agent m).


(** ** RuleCompiler: [Anonymizer._get_hiding_rules] *)

Section HidingRules.

(** [re.compile], a builtin outside the module: a pattern, or the exception
    it raises on a regular expression it cannot compile. *)
Variable re_compile : string -> result pattern.

(** [(constraint['feature'], re.compile(constraint['regex']))]: the tuple is
    built from the left, so a missing 'feature' is met first.  A constraint
    is a mapping with string values. *)
Definition compile_constraint (constraint : list (string * string))
  : result (string * pattern) :=
  match dict_get "feature" constraint with
  | None => Raise KeyError
  | Some feature =>
      match dict_get "regex" constraint with
      | None => Raise KeyError
      | Some regex =>
          match re_compile regex with
          | Ok p => Ok (feature, p)
          | Raise e => Raise e
          end
      end
  end.

(** The list comprehension over the constraints of one rule. *)
Fixpoint compile_constraints (rule : list (list (string * string)))
  : result (list (string * pattern)) :=
  match rule with
  | [] => Ok []
  | constraint :: rule' =>
      match compile_constraint constraint with
      | Ok field_pattern =>
          match compile_constraints rule' with
          | Ok pairs => Ok (field_pattern :: pairs)
          | Raise e => Raise e
          end
      | Raise e => Raise e
      end
  end.

(** The loop over [settings['anonymizer']['hiding-rules']]; the [except]
    clause logs and re-raises. *)
Fixpoint _get_hiding_rules (rules : list (list (list (string * string))))
  : result (list (list (string * pattern))) :=
  match rules with
  | [] => Ok []
  | rule :: rules' =>
      match compile_constraints rule with
      | Ok field_pattern_pairs =>
          match _get_hiding_rules rules' with
          | Ok compiled => Ok (field_pattern_pairs :: compiled)
          | Raise e => Raise e
          end
      | Raise e => Raise e
      end
  end.

End HidingRules.

(** ** Logger and the state the job runs in *)

Inductive log_entry :=
| LogInfo (tag msg : string)
| LogError (tag msg : string).

(** What a run of the job can change: the object store, the log and the
    batches the sink has accepted. *)
Record job_state := JobState {
  heap : store;
  log : list log_entry;
  written : list (list dict)
}.

Definition set_heap (h : store) (s : job_state) : job_state :=
  {| heap := h; log := log s; written := written s |}.
Definition add_log (e : log_entry) (s : job_state) : job_state :=
  {| heap := heap s; log := log s ++ [e]; written := written s |}.
Definition add_written (b : list dict) (s : job_state) : job_state :=
  {| heap := heap s; log := log s; written := written s ++ [b] |}.

(** A computation that may raise; the state survives the exception, as the
    effects of a Python statement survive the one it raises. *)
Definition M (A : Type) : Type := job_state -> result A * job_state.

Definition ret {A} (a : A) : M A := fun s => (Ok a, s).
Definition raise {A} (e : exn) : M A := fun s => (Raise e, s).
Definition bind {A B} (m : M A) (k : A -> M B) : M B :=
  fun s => match m s with
           | (Ok a, s') => k a s'
           | (Raise e, s') => (Raise e, s')
           end.

Declare Scope job_scope.
Delimit Scope job_scope with job.
Notation "x <- m ;; k" := (bind m (fun x => k))
  (at level 100, m at next level, right associativity) : job_scope.
Notation "m ;;; k" := (bind m (fun _ => k))
  (at level 100, right associativity) : job_scope.
Local Open Scope job_scope.

(** [d[k]], raising [KeyError] when the key is absent. *)
Definition getitem {V} (k : string) (d : list (string * V)) : M V :=
  match dict_get k d with Some v => ret v | None => raise KeyError end.

(** The dictionary object at a location. *)
Definition getobj (l : loc) : M dict :=
  fun s => match heap s !! l with
           | Some d => (Ok d, s)
           | None => (Raise BadReference, s)
           end.

(** A new dictionary object: [{}] or the result of a call. *)
Definition new_dict (d : dict) : M loc :=
  fun s => (Ok (length (heap s)), set_heap (heap s ++ [d]) s).

(** [record[k] = v] on the object at [l]. *)
Definition setitem (l : loc) (k : string) (v : val) : M unit :=
  fun s => match heap s !! l with
           | Some d => (Ok tt, set_heap (<[l := dict_set k v d]> (heap s)) s)
           | None => (Raise BadReference, s)
           end.

(** The state after assignments to the object at [l]: [s] with [d'] there. *)
Definition touched (l : loc) (d' : dict) (s : job_state) : job_state :=
  set_heap (<[l := d']> (heap s)) s.

Definition log_info (tag msg : string) : M unit :=
  fun s => (Ok tt, add_log (LogInfo tag msg) s).

(** A computation that hands nothing to the sink and only adds to the log. *)
Definition only_logs {A} (m : M A) : Prop :=
  forall s r s', m s = (r, s') ->
    written s' = written s /\ exists entries, log s' = log s ++ entries.

(** ** Class [AnonymizationJob] *)

(** A substitute of the settings, [{'feature': ..., 'value': ...}], seen
    through the two keys the job reads: a key the mapping does not have is
    [None].  [_get_substitution_rules] copies the list of substitutes as it
    is, so nothing has checked the keys when the job reads them; a feature
    that is there is a field name. *)
Record substitute := Substitute { feature : option string; value : option val }.

Record substitution_rule := SubstitutionRule {
  conditions : list (string * pattern);
  substitutes : list substitute
}.

(** The fields [AnonymizationJob.__init__] stores.  The transformers come
    from [opmon_anonymizer/transformers.py] and the writer from the sink;
    neither is part of these sources, so the job takes them as given:
    Modelled from the spec: a transformer is a pure function from one record
    to one record that may raise, and [write_records] accepts the whole list
    or raises. *)
Record AnonymizationJob := {
  _writer : list dict -> result unit;
  _hiding_rules : list (list (string * pattern));
  _substitution_rules : list substitution_rule;
  _transformers : list (dict -> result dict);
  _field_translations : translations;
  _field_value_masks : masks
}.

Section Job.

(** [str] of a nested document is Python's [repr] of a dictionary, and the
    text of a traceback is the interpreter's; both are builtins outside the
    module and stay parameters.  [format_exc e] stands for
    [traceback.format_exc().replace('\n', '')] while [e] is handled. *)
Variable repr_ref : store -> loc -> string.
Variable format_exc : exn -> string.
Variable self : AnonymizationJob.

(** [str(value)] *)
Definition py_str (h : store) (v : val) : string :=
  match v with
  | VNone => "None"
  | VBool true => "True"
  | VBool false => "False"
  | VInt z => str_of_int z
  | VStr s => s
  | VRef l => repr_ref h l
  end.

(** [try: body / except Exception: logger.log_error(tag, template.format(
    traceback)); raise] *)
Definition try_log {A} (tag template : string) (body : M A) : M A :=
  fun s => match body s with
           | (Raise e, s') =>
               (Raise e, add_log (LogError tag (format template [format_exc e])) s')
           | r => r
           end.

(** [_record_matches_conditions]: the [for ... else] returns [True] when
    the loop ends without [break]. *)
Fixpoint _record_matches_conditions (h : store) (record : dict)
    (conds : list (string * pattern)) : bool :=
  match conds with
  | [] => true
  | (field, pat) :: conds' =>
      match dict_get field record with
      | None => false
      | Some v =>
          if pat (py_str h v) then _record_matches_conditions h record conds'
          else false
      end
  end.

(** [record_matches_conditions(record, conditions)] on a record of the
    store. *)
Definition record_matches (record : loc) (conds : list (string * pattern))
  : M bool :=
  fun s => match heap s !! record with
           | Some d => (Ok (_record_matches_conditions (heap s) d conds), s)
           | None => (Raise BadReference, s)
           end.

(** The loop of [_should_be_hidden]. *)
Fixpoint matches_any (record : loc) (rules : list (list (string * pattern)))
  : M bool :=
  match rules with
  | [] => ret false
  | conds :: rules' =>
      b <- record_matches record conds ;;
      if b then ret true else matches_any record rules'
  end.

Definition _should_be_hidden (record : loc) : M bool :=
  try_log "record_hiding_verification_failed"
    "Error at verifying whether a record should be hidden using the provided hiding rules. ERROR: {0}"
    (matches_any record (_hiding_rules self)).

(** [substitute[key]], raising [KeyError] when the mapping has no such
    key. *)
Definition subscript {A} (item : option A) : M A :=
  match item with Some a => ret a | None => raise KeyError end.

(** [for substitute in rule['substitutes']:
       record[substitute['feature']] = substitute['value']]: the right-hand
    side of the assignment is evaluated before the subscript of its
    target. *)
Fixpoint apply_substitutes (record : loc) (subs : list substitute) : M unit :=
  match subs with
  | [] => ret tt
  | sub :: subs' =>
      v <- subscript (value sub) ;;
      f <- subscript (feature sub) ;;
      setitem record f v ;;;
      apply_substitutes record subs'
  end.

(** The loop of [_substitute]. *)
Fixpoint apply_rules (record : loc) (rules : list substitution_rule) : M unit :=
  match rules with
  | [] => ret tt
  | rule :: rules' =>
      b <- record_matches record (conditions rule) ;;
      (if b then apply_substitutes record (substitutes rule) else ret tt) ;;;
      apply_rules record rules'
  end.

Definition _substitute (record : loc) : M loc :=
  try_log "applying_substitution_rules_failed"
    "Error at applying substitution rules to a record. ERROR: {0}"
    (apply_rules record (_substitution_rules self) ;;; ret record).

(** [agent_translation_table[record_key]]: a lookup in the agent's table;
    when the entry for the agent is a plain name, this indexes a [str] with a
    [str]. *)
Definition translate_key (table : translation) (record_key : string) : M string :=
  match table with
  | TTable t => getitem record_key t
  | TName _ => raise TypeError
  end.

(** The dictionary comprehension of [_get_agent_record], item by item. *)
Fixpoint translate_items (table : translation) (record : loc) (items : dict)
  : M unit :=
  match items with
  | [] => ret tt
  | (record_key, v) :: items' =>
      new_key <- translate_key table record_key ;;
      setitem record new_key v ;;;
      translate_items table record items'
  end.

(** The comprehension over [dual_record[agent]].  A nested document is
    iterated key by key.  A string is iterated character by character and
    fails at the first one, on the key or on [dual_record[agent][c]]; the
    empty string yields nothing; other values are not iterable. *)
Definition translate_agent (table : translation) (record : loc) (sub : val)
  : M unit :=
  match sub with
  | VRef l => items <- getobj l ;; translate_items table record items
  | VStr EmptyString => ret tt
  | VStr (String c _) =>
      translate_key table (String c EmptyString) ;;; raise TypeError
  | _ => raise TypeError
  end.

(** [record_key not in ['client', 'producer']] *)
Definition is_agent_key (k : string) : bool :=
  bool_decide (k = "client"%string) || bool_decide (k = "producer"%string).

(** [translation_table[record_key]] used as a key of [record]: a table
    there is unhashable. *)
Definition shared_name (tr : translations) (record_key : string) : M string :=
  t <- getitem record_key tr ;;
  match t with
  | TName new_name => ret new_name
  | TTable _ => raise TypeError
  end.

(** [for record_key, record_value in dual_record.items()] *)
Fixpoint copy_shared (tr : translations) (record : loc) (items : dict) : M unit :=
  match items with
  | [] => ret tt
  | (record_key, record_value) :: items' =>
      (if is_agent_key record_key then ret tt
       else new_key <- shared_name tr record_key ;;
            setitem record new_key record_value) ;;;
      copy_shared tr record items'
  end.

(** [for masked_field in agent_field_value_mask: record[masked_field] = None] *)
Fixpoint mask_fields (record : loc) (fields : list string) : M unit :=
  match fields with
  | [] => ret tt
  | masked_field :: fields' =>
      setitem record masked_field VNone ;;;
      mask_fields record fields'
  end.

Definition _get_agent_record (agent : string) (dual_record : loc) : M loc :=
  agent_translation_table <- getitem agent (_field_translations self) ;;
  dual <- getobj dual_record ;;
  sub <- getitem agent dual ;;
  record <- new_dict [] ;;
  translate_agent agent_translation_table record sub ;;;
  dual <- getobj dual_record ;;
  copy_shared (_field_translations self) record dual ;;;
  agent_field_value_mask <- getitem agent (_field_value_masks self) ;;
  mask_fields record (elements agent_field_value_mask) ;;;
  ret record.

(** [if agent in dual_record: records.append(_get_agent_record(agent, ...))] *)
Definition append_agent_record (agent : string) (dual_record : loc)
    (records : list loc) : M (list loc) :=
  dual <- getobj dual_record ;;
  if dict_mem agent dual
  then record <- _get_agent_record agent dual_record ;; ret (records ++ [record])
  else ret records.

Definition _get_records (dual_record : loc) : M (list loc) :=
  try_log "extracting_single_logs_from_record_failed"
    "Error at extracting single logs from dual record. ERROR: {0}"
    (records <- append_agent_record "client" dual_record [] ;;
     append_agent_record "producer" dual_record records).

(** [for transformer in self._transformers: record = transformer(record)] *)
Fixpoint apply_transformers (ts : list (dict -> result dict)) (record : loc)
  : M loc :=
  match ts with
  | [] => ret record
  | transformer :: ts' =>
      d <- getobj record ;;
      match transformer d with
      | Ok d' => record' <- new_dict d' ;; apply_transformers ts' record'
      | Raise e => raise e
      end
  end.

(** The inner loop of [run], over the records of one dual record. *)
Fixpoint process_records (records processed_records : list loc) : M (list loc) :=
  match records with
  | [] => ret processed_records
  | record :: records' =>
      hidden <- _should_be_hidden record ;;
      if hidden then process_records records' processed_records
      else
        record <- _substitute record ;;
        record <- apply_transformers (_transformers self) record ;;
        process_records records' (processed_records ++ [record])
  end.

(** The outer loop of [run]. *)
Fixpoint process_dual_records (dual_records processed_records : list loc)
  : M (list loc) :=
  match dual_records with
  | [] => ret processed_records
  | dual_record :: dual_records' =>
      records <- _get_records dual_record ;;
      processed_records <- process_records records processed_records ;;
      process_dual_records dual_records' processed_records
  end.

(** The records behind a list of locations. *)
Fixpoint getobjs (ls : list loc) : M (list dict) :=
  match ls with
  | [] => ret []
  | l :: ls' => d <- getobj l ;; ds <- getobjs ls' ;; ret (d :: ds)
  end.

(** [self._writer.write_records(processed_records)] *)
Definition write_records (processed_records : list loc) : M unit :=
  batch <- getobjs processed_records ;;
  match _writer self batch with
  | Ok _ => fun s => (Ok tt, add_written batch s)
  | Raise e => raise e
  end.

Definition run (dual_records : list loc) : M unit :=
  try_log "record_batch_anonymization_failed"
    "Failed processing a batch of records. ERROR: {0}"
    (processed_records <- process_dual_records dual_records [] ;;
     log_info "AnonymizationJob.run"
       ("Processing done. Records to write "
        +:+ str_of_int (Z.of_nat (length processed_records)) +:+ ".") ;;;
     write_records processed_records).

End Job.

(** ** The splitter and the substitution in the spec's words

    A second, content-level description of what the splitter builds, taken
    from the spec (4.2, steps 1 to 3), to compare [_get_agent_record] and
    [_get_records] with. *)

Definition result_bind {A B} (r : result A) (k : A -> result B) : result B :=
  match r with Ok a => k a | Raise e => Raise e end.

(** Step 1: translate every key of the agent's sub-mapping through the
    agent's table; a key with no entry fails. *)
Fixpoint spec_translate (table : list (string * string)) (items record : dict)
  : result dict :=
  match items with
  | [] => Ok record
  | (k, v) :: items' =>
      match dict_get k table with
      | Some new_key => spec_translate table items' (dict_set new_key v record)
      | None => Raise KeyError
      end
  end.

(** Step 2: copy every shared top-level field, translated through the
    shared entries of the table. *)
Fixpoint spec_copy_shared (tr : translations) (items record : dict)
  : result dict :=
  match items with
  | [] => Ok record
  | (k, v) :: items' =>
      if is_agent_key k then spec_copy_shared tr items' record
      else match dict_get k tr with
           | Some (TName new_key) =>
               spec_copy_shared tr items' (dict_set new_key v record)
           | Some (TTable _) => Raise TypeError
           | None => Raise KeyError
           end
  end.

(** Step 3: set every field of the mask to null. *)
Definition spec_mask (fields : list string) (record : dict) : dict :=
  foldl (fun r f => dict_set f VNone r) record fields.

Definition spec_agent_record (table : list (string * string)) (tr : translations)
    (mask : gset string) (sub dual : dict) : result dict :=
  result_bind (spec_translate table sub []) (fun r1 =>
  result_bind (spec_copy_shared tr dual r1) (fun r2 =>
  Ok (spec_mask (elements mask) r2))).

(** The agents whose key is present, client first. *)
Definition agents_present (dual : dict) : list string :=
  filter (fun agent => dict_mem agent dual = true) ["client"; "producer"]%string.

(** The record the spec describes for [agent] of a dual record.  It is
    defined when the compiled configuration has a table and a mask set for
    the agent and the agent's entry of the dual record is a nested document
    of the store. *)
Definition spec_record_for (self : AnonymizationJob) (h : store) (dual : dict)
    (agent : string) : option (result dict) :=
  match dict_get agent (_field_translations self),
        dict_get agent (_field_value_masks self),
        dict_get agent dual with
  | Some (TTable table), Some mask, Some (VRef l) =>
      match h !! l with
      | Some sub =>
          Some (spec_agent_record table (_field_translations self) mask sub dual)
      | None => None
      end
  | _, _, _ => None
  end.

(** The names a record of [agent] can carry: a new name of the agent's
    table, a new name of a shared field, or a field of the agent's mask. *)
Definition emitted_name (self : AnonymizationJob) (agent f : string) : Prop :=
  (exists table k, dict_get agent (_field_translations self) = Some (TTable table)
                   /\ dict_get k table = Some f)
  \/ (exists k, dict_get k (_field_translations self) = Some (TName f))
  \/ (exists mask, dict_get agent (_field_value_masks self) = Some mask /\ f ∈ mask).

(** A substitute that has both of its keys. *)
Definition has_both_keys (sub : substitute) : Prop :=
  is_Some (feature sub) /\ is_Some (value sub).

#[global] Instance has_both_keys_dec sub : Decision (has_both_keys sub).
Proof. unfold has_both_keys. apply _. Defined.

(** The value of the last substitute of a rule that names [field]. *)
Fixpoint substitute_value (field : string) (subs : list substitute)
  : option val :=
  match subs with
  | [] => None
  | sub :: subs' =>
      match substitute_value field subs' with
      | Some v => Some v
      | None => if decide (feature sub = Some field) then value sub else None
      end
  end.

(** The match predicate of the spec (4.3) for one (field, pattern) pair:
    the field is present and the pattern matches the string form of its
    value. *)
Definition condition_holds (repr_ref : store -> loc -> string) (h : store)
    (record : dict) (c : string * pattern) : Prop :=
  exists v, dict_get c.1 record = Some v /\ c.2 (py_str repr_ref h v) = true.

(** ** Class [Anonymizer]: the batching loop [anonymize] *)

(** A cursor value: [None] or a timestamp. *)
Definition timestamp := option Z.

Definition str_of_timestamp (t : timestamp) : string :=
  match t with
  | None => "None"
  | Some z => str_of_int z
  end.

Inductive outcome :=
| Returned (processed_count : Z)   (* [return processed_count] *)
| Propagated (e : exn).            (* an exception leaves [anonymize] *)

Section Anonymize.

(** The job can be handed to the constructor ([anonymization_job=...]), so
    the loop is stated over any job: [R] is what the reader yields, [J] the
    state a run of the job works on. *)
Context {R J : Type}.
Variable job_run : list R -> J -> result unit * J.

(** Modelled from the spec: the reader (source collaborator), whose module
    is not part of these sources.  It exposes a cursor,
    [last_processed_timestamp], that reflects the records consumed so far, a
    lazy sequence of records, [get_records], and a method to set the cursor,
    [update_last_processed_timestamp].  [unread] pairs every record still to
    be yielded with the cursor value the reader shows once it has yielded
    it. *)
Record anonymizer_state := AnonymizerState {
  last_processed_timestamp : timestamp;
  unread : list (R * timestamp);
  job : J;
  logged : list log_entry   (* the entries [anonymize] itself logs *)
}.

(** The local variables of [anonymize]. *)
Record locals := Locals {
  record_buffer : list R;
  batch_start_mongodb_timestamp : timestamp;
  last_successful_batch_timestamp : timestamp;
  processed_count : Z
}.

Definition len (buffer : list R) : Z := Z.of_nat (length buffer).

(** [log_limit is not None and processed_count >= log_limit] *)
Definition limit_reached (log_limit : option Z) (v : locals) : bool :=
  match log_limit with
  | Some limit => limit <=? processed_count v
  | None => false
  end.

(** The message of the [except] branch.  [.format] binds tighter than [+],
    so only the second literal is formatted. *)
Definition failed_batch_message (batch_start batch_end last_successful : timestamp)
  : string :=
  ("Record batch with correctorTime within range [{0}, {1}] failed. "
   +:+ format "Last successful correctorTime was {2}"
         [str_of_timestamp batch_start; str_of_timestamp batch_end;
          str_of_timestamp last_successful])%string.

Definition anonymized_message (count : Z) (batch_start batch_end : timestamp)
  : string :=
  (str_of_int count +:+ " records anonymized."
   +:+ "correctorTime within range [" +:+ str_of_timestamp batch_start
   +:+ ", " +:+ str_of_timestamp batch_end +:+ "]")%string.

(** The statements after the loop. *)
Definition after_loop (v : locals) (s : anonymizer_state)
  : outcome * anonymizer_state :=
  match record_buffer v with
  | [] => (Returned (processed_count v), s)
  | _ :: _ =>
      match job_run (record_buffer v) (job s) with
      | (Ok _, j) =>
          (Returned (processed_count v + len (record_buffer v)),
           AnonymizerState (last_processed_timestamp s) (unread s) j (logged s))
      | (Raise e, j) =>
          (Propagated e,
           AnonymizerState (last_processed_timestamp s) (unread s) j (logged s))
      end
  end.

(** The [for record in self._reader.get_records(...)] loop; the first
    argument is what the generator has still to yield. *)
Fixpoint loop (writer_buffer_size : Z) (log_limit : option Z)
    (records : list (R * timestamp)) (v : locals) (s : anonymizer_state)
  : outcome * anonymizer_state :=
  match records with
  | [] => after_loop v s
  | (record, cursor) :: records' =>
      (* the generator yields [record] and the cursor shows it *)
      let s := AnonymizerState cursor records' (job s) (logged s) in
      if limit_reached log_limit v then after_loop v s
      else
        let batch_start :=
          match batch_start_mongodb_timestamp v with
          | None => last_processed_timestamp s
          | Some t => Some t
          end in
        let buffer := record_buffer v ++ [record] in
        if writer_buffer_size <=? len buffer then
          let batch_end := last_processed_timestamp s in
          match job_run buffer (job s) with
          | (Raise _, j) =>
              (Returned (processed_count v),
               AnonymizerState (last_successful_batch_timestamp v) records' j
                 (logged s ++
                  [LogError "failed_anonymizing_record_batch"
                     (failed_batch_message batch_start batch_end
                        (last_successful_batch_timestamp v))]))
          | (Ok _, j) =>
              let count := processed_count v + len buffer in
              loop writer_buffer_size log_limit records'
                (Locals [] None batch_end count)
                (AnonymizerState cursor records' j
                   (logged s ++
                    [LogInfo "record_batch_anonymized"
                       (anonymized_message count batch_start batch_end)]))
          end
        else
          loop writer_buffer_size log_limit records'
            (Locals buffer batch_start (last_successful_batch_timestamp v)
               (processed_count v)) s
  end.

(** [anonymize(log_limit)], from the loop on, with [writer_buffer_size]
    the value of [int(settings['postgres']['buffer-size'])].  That
    statement comes first and can raise on settings without the key or
    with a value that is no number, before any record is pulled; it is not
    part of this function, which takes the value as read. *)
Definition anonymize (writer_buffer_size : Z) (log_limit : option Z)
    (s : anonymizer_state) : outcome * anonymizer_state :=
  loop writer_buffer_size log_limit (unread s)
    (Locals [] None (last_processed_timestamp s) 0) s.

(** The job run on batches one after the other, as the loop does as long
    as no run raises: the state the last run leaves, when every run
    returns. *)
Fixpoint commits (batches : list (list R)) (j : J) : option J :=
  match batches with
  | [] => Some j
  | batch :: batches' =>
      match job_run batch j with
      | (Ok _, j') => commits batches' j'
      | (Raise _, _) => None
      end
  end.

(** The size a batch really has: a buffer size below one commits every
    record on its own. *)
Definition batch_size (writer_buffer_size : Z) : Z := Z.max 1 writer_buffer_size.


End Anonymize.

(** ** References and the store a run starts from *)

(** A value that, when it is a reference, points below location [n]. *)
Definition val_below (n : nat) (v : val) : Prop :=
  match v with
  | VRef l => (l < n)%nat
  | _ => True
  end.

#[global] Instance val_below_dec n v : Decision (val_below n v).
Proof. destruct v; simpl; apply _. Defined.

Definition dict_below (n : nat) (d : dict) : Prop :=
  Forall (fun item => val_below n item.2) d.

#[global] Instance dict_below_dec n d : Decision (dict_below n d).
Proof. unfold dict_below. apply _. Defined.

(** No object of the store refers to a location outside the store. *)
Definition store_closed (h : store) : Prop :=
  Forall (dict_below (length h)) h.

#[global] Instance store_closed_dec h : Decision (store_closed h).
Proof. unfold store_closed. apply _. Defined.

(** The values the substitution rules write, when they are references,
    point below [n]. *)
Definition substitutes_below (n : nat) (self : AnonymizationJob) : Prop :=
  Forall (fun rule =>
            Forall (fun sub => forall v, value sub = Some v -> val_below n v)
              (substitutes rule))
    (_substitution_rules self).

(** [i] is a record of [h] whose references point below [n]. *)
Definition closed_record (n : nat) (h : store) (i : nat) : Prop :=
  exists d, h !! i = Some d /\ dict_below n d.

(** The state of a run that started in [s0], when [t] holds what the run
    itself has allocated, logged and written so far. *)
Definition over (s0 t : job_state) : job_state :=
  {| heap := heap s0 ++ heap t;
     log := log s0 ++ log t;
     written := written s0 ++ written t |}.

(** The location, in a run that started in [s0], of the [i]-th object the
    run has allocated. *)
Definition new_loc (s0 : job_state) (i : nat) : loc := (length (heap s0) + i)%nat.

(** A result that does not say where the run started, read in the run
    that started in [s0]. *)
Definition result_map {A B} (f : A -> B) (r : result A) : result B :=
  match r with
  | Ok a => Ok (f a)
  | Raise e => Raise e
  end.

(** ** Scenarios of the spec *)

(** The job of the spec's scenario: the sink raises on the batch that holds
    record 3 and accepts the others. *)
Definition sink_raises_on_third (batch : list nat) (sink : list (list nat))
  : result unit * list (list nat) :=
  if existsb (Nat.eqb 3) batch then (Raise WriterError, sink)
  else (Ok tt, sink ++ [batch]).

(** The dual record of the spec's scenarios,
    [{'client': {'a': '1'}, 'producer': {'a': '2'}, 'ts': 100}], at location
    0, with its two nested documents at 1 and 2. *)
Definition scenario_heap : store :=
  [ [("client", VRef 1); ("producer", VRef 2); ("ts", VInt 100)];
    [("a", VStr "1")];
    [("a", VStr "2")] ]%string.

Definition scenario_state : job_state := JobState scenario_heap [] [].

(** The translation file of the scenarios, compiled. *)
Definition scenario_lines : list string :=
  ["client.a -> fieldA"; "producer.a -> fieldA"; "ts -> ts"]%string.

Definition scenario_translations : translations :=
  match _get_field_translations scenario_lines with
  | Ok tr => tr
  | Raise _ => empty_translations
  end.

(** [re.compile('^' + text + '$').match]: the string is [text], with or
    without one final newline. *)
Definition exactly (text : string) : pattern :=
  fun s => bool_decide (s = text)
           || bool_decide (s = (text +:+ String "010" EmptyString)%string).

(** A job over the scenarios' translations whose sink accepts every batch
    and that has no transformers. *)
Definition scenario_job (hiding_rules : list (list (string * pattern)))
    (substitution_rules : list substitution_rule) (field_value_masks : masks)
  : AnonymizationJob :=
  {| _writer := fun _ => Ok tt;
     _hiding_rules := hiding_rules;
     _substitution_rules := substitution_rules;
     _transformers := [];
     _field_translations := scenario_translations;
     _field_value_masks := field_value_masks |}.

(** The hiding rule of the scenarios, [[{'feature': 'fieldA', 'regex': '^1$'}]]. *)
Definition hide_fieldA_1 : list (list (string * pattern)) :=
  [[("fieldA"%string, exactly "1")]].

(** Two substitution rules on the same field: the first for records whose
    [fieldA] is 1, the second for records whose [ts] is 100. *)
Definition substitute_twice : list substitution_rule :=
  [ SubstitutionRule [("fieldA"%string, exactly "1")]
      [Substitute (Some "fieldA") (Some (VStr "first"))];
    SubstitutionRule [("ts"%string, exactly "100")]
      [Substitute (Some "fieldA") (Some (VStr "second"))] ].

(** The mask of the scenarios: [fieldA] for the client. *)
Definition mask_client_fieldA : masks :=
  [("client"%string, {["fieldA"%string]}); ("producer"%string, ∅)].

(** A mask for the client with a field its records have, [fieldA], and one
    they do not have, [fieldB]. *)
Definition mask_client_fieldA_fieldB : masks :=
  [("client"%string, {["fieldA"%string; "fieldB"%string]}); ("producer"%string, ∅)].

(** [repr] of a nested document, contents elided, and a traceback text. *)
Definition repr_elided : store -> loc -> string := fun _ _ => "{...}"%string.
Definition traceback_text : exn -> string :=
  fun _ => "Traceback (most recent call last)"%string.

(** The store once the dual record at 0 has been split: the client's record
    at 3, the producer's at 4. *)
Definition scenario_split_state : job_state :=
  JobState
    (scenario_heap ++ [ [("fieldA", VStr "1"); ("ts", VInt 100)];
                        [("fieldA", VStr "2"); ("ts", VInt 100)] ]%string)
    [] [].

(** [re.compile] on the regular expression of the scenarios, ['^1$']; the
    scenarios compile no other. *)
Definition compile_scenario_regex (regex : string) : result pattern :=
  if decide (regex = "^1$"%string) then Ok (exactly "1") else Raise ValueError.

(** The hiding rules of the scenarios as the settings have them. *)
Definition scenario_hiding_settings : list (list (list (string * string))) :=
  [[ [("feature", "fieldA"); ("regex", "^1$")] ]]%string.

(** * Properties *)

(** ** Dictionaries *)

Section DictFacts.
Context {V : Type}.
Implicit Types (d : list (string * V)) (k : string) (v : V).

Lemma dict_get_set_eq k v d : dict_get k (dict_set k v d) = Some v.
Proof.
  induction d as [|[k' v'] d IH]; simpl.
  - by rewrite decide_True.
  - destruct (decide (k = k')) as [->|Hne]; simpl.
    + by rewrite decide_True.
    + by rewrite decide_False.
Qed.

Lemma dict_get_set_ne k k' v d :
  k ≠ k' → dict_get k' (dict_set k v d) = dict_get k' d.
Proof.
  intros Hne. induction d as [|[k0 v0] d IH]; simpl.
  - by rewrite decide_False.
  - destruct (decide (k = k0)) as [->|Hk]; simpl.
    + by rewrite !decide_False.
    + destruct (decide (k' = k0)); [done | apply IH].
Qed.

Lemma dict_get_set k k' v d :
  dict_get k' (dict_set k v d) = if decide (k = k') then Some v else dict_get k' d.
Proof.
  destruct (decide (k = k')) as [->|Hne];
    [apply dict_get_set_eq | by apply dict_get_set_ne].
Qed.
End DictFacts.

(** ** RuleCompiler *)

Lemma add_translation_line_malformed tr line :
  length (split " -> " (strip line)) ≠ 2%nat →
  add_translation_line tr line = Raise ValueError.
Proof.
  unfold add_translation_line.
  destruct (split " -> " (strip line)) as [|a [|b [|c l]]]; simpl; try done.
Qed.

Lemma add_translation_line_skipped tr line original_name new_name :
  split " -> " (strip line) = [original_name; new_name] →
  (2 < length (split "." original_name))%nat →
  add_translation_line tr line = Ok tr.
Proof.
  unfold add_translation_line. intros -> Hlen.
  destruct (split "." original_name) as [|a [|b [|c l]]]; simpl in *;
    try lia; done.
Qed.

Lemma add_translation_lines_malformed pre line post tr :
  length (split " -> " (strip line)) ≠ 2%nat →
  ∃ e, add_translation_lines tr (pre ++ line :: post) = Raise e.
Proof.
  intros Hbad. revert tr. induction pre as [|l0 pre IH]; intros tr; simpl.
  - rewrite add_translation_line_malformed; eauto.
  - destruct (add_translation_line tr l0); eauto.
Qed.

Lemma add_translation_lines_skipped pre line post tr original_name new_name :
  split " -> " (strip line) = [original_name; new_name] →
  (2 < length (split "." original_name))%nat →
  add_translation_lines tr (pre ++ line :: post)
  = add_translation_lines tr (pre ++ post).
Proof.
  intros Hsplit Hlen. revert tr. induction pre as [|l0 pre IH]; intros tr; simpl.
  - by rewrite (add_translation_line_skipped _ _ _ _ Hsplit Hlen).
  - destruct (add_translation_line tr l0); [apply IH | done].
Qed.

(** C7, as the code has it: a translation line that does not split into
    exactly one "original -> new" pair makes [_get_field_translations]
    raise, wherever it stands in the file; a line whose original name has
    more than two dot-separated segments raises nothing and is skipped, the
    result being that of the file without the line. *)
Theorem field_translations_line_errors pre line post :
  (length (split " -> " (strip line)) ≠ 2%nat →
   ∃ e, _get_field_translations (pre ++ line :: post) = Raise e)
  ∧ (∀ original_name new_name,
       split " -> " (strip line) = [original_name; new_name] →
       (2 < length (split "." original_name))%nat →
       _get_field_translations (pre ++ line :: post)
       = _get_field_translations (pre ++ post)).
Proof.
  split.
  - apply add_translation_lines_malformed.
  - intros o n. apply add_translation_lines_skipped.
Qed.

Lemma field_translations_line_errors_witness :
  (∃ e, _get_field_translations
          ["ts -> ts"; "client.a fieldA"; "producer.a -> fieldA"]%string = Raise e)
  ∧ _get_field_translations ["ts -> ts"; "client.a.b -> x"; "client.a -> fieldA"]%string
    = _get_field_translations ["ts -> ts"; "client.a -> fieldA"]%string.
Proof.
  split.
  - apply (proj1 (field_translations_line_errors
                    ["ts -> ts"%string] "client.a fieldA"
                    ["producer.a -> fieldA"%string])).
    vm_compute. discriminate.
  - apply (proj2 (field_translations_line_errors
                    ["ts -> ts"%string] "client.a.b -> x"
                    ["client.a -> fieldA"%string]) "client.a.b"%string "x"%string).
    + reflexivity.
    + vm_compute. lia.
Defined.

(** C7 as stated fails: an original name with three segments compiles, and
    the entry is dropped without an error. *)
Lemma three_segments_do_not_fail :
  (2 < length (split "." "a.b.c"))%nat
  ∧ _get_field_translations ["a.b.c -> x"%string] = Ok empty_translations.
Proof. split; [vm_compute; lia | reflexivity]. Qed.

Lemma add_field_masks_spec fields : ∀ c p,
  ∃ c' p',
    add_field_masks [("client"%string, c); ("producer"%string, p)] fields
    = Ok [("client"%string, c'); ("producer"%string, p')]
    ∧ (∀ f, f ∈ c' ↔
         f ∈ c ∨ ∃ d, (f, d) ∈ fields ∧ dict_get "agent" d = Some (VStr "producer"))
    ∧ (∀ f, f ∈ p' ↔
         f ∈ p ∨ ∃ d a, (f, d) ∈ fields ∧ dict_get "agent" d = Some a
                        ∧ a ≠ VStr "producer").
Proof.
  induction fields as [|[name data] fields IH]; intros c p.
  - exists c, p. split; [done|]. split; intros f; split; auto.
    + intros [?|(d & H & _)]; [done | by apply elem_of_nil in H].
    + intros [?|(d & a & H & _)]; [done | by apply elem_of_nil in H].
  - simpl. destruct (dict_get "agent" data) as [a|] eqn:Hagent.
    + unfold masked_agent_of. destruct (decide (a = VStr "producer")) as [->|Hne].
      * destruct (IH ({[name]} ∪ c) p) as (c' & p' & Heq & Hc & Hp).
        exists c', p'. split; [exact Heq|]. split; intros f.
        -- rewrite Hc. rewrite elem_of_union, elem_of_singleton. split.
           ++ intros [[->|?]|(d & Hin & Hd)]; [right|by left|right].
              ** exists data. split; [by left | done].
              ** exists d. split; [by right | done].
           ++ intros [?|(d & Hin & Hd)]; [by left; right|].
              apply elem_of_cons in Hin as [Heq'|Hin].
              ** injection Heq' as -> ->. by left; left.
              ** right. eauto.
        -- rewrite Hp. split.
           ++ intros [?|(d & a & Hin & Hd & Ha)]; [by left|].
              right. exists d, a. split; [by right | done].
           ++ intros [?|(d & a & Hin & Hd & Ha)]; [by left|].
              apply elem_of_cons in Hin as [Heq'|Hin].
              ** injection Heq' as -> ->. rewrite Hagent in Hd.
                 injection Hd as <-. done.
              ** right. eauto.
      * destruct (IH c ({[name]} ∪ p)) as (c' & p' & Heq & Hc & Hp).
        exists c', p'. split; [exact Heq|]. split; intros f.
        -- rewrite Hc. split.
           ++ intros [?|(d & Hin & Hd)]; [by left|].
              right. exists d. split; [by right | done].
           ++ intros [?|(d & Hin & Hd)]; [by left|].
              apply elem_of_cons in Hin as [Heq'|Hin].
              ** injection Heq' as -> ->. congruence.
              ** right. eauto.
        -- rewrite Hp. rewrite elem_of_union, elem_of_singleton. split.
           ++ intros [[->|?]|(d & a0 & Hin & Hd & Ha)]; [right|by left|right].
              ** exists data, a. split; [by left | done].
              ** exists d, a0. split; [by right | done].
           ++ intros [?|(d & a0 & Hin & Hd & Ha)]; [by left; right|].
              apply elem_of_cons in Hin as [Heq'|Hin].
              ** injection Heq' as -> ->. by left; left.
              ** right. eauto.
    + destruct (IH c p) as (c' & p' & Heq & Hc & Hp).
      exists c', p'. split; [exact Heq|]. split; intros f.
      * rewrite Hc. split.
        -- intros [?|(d & Hin & Hd)]; [by left|].
           right. exists d. split; [by right | done].
        -- intros [?|(d & Hin & Hd)]; [by left|].
           apply elem_of_cons in Hin as [Heq'|Hin].
           ++ injection Heq' as -> ->. congruence.
           ++ right. eauto.
      * rewrite Hp. split.
        -- intros [?|(d & a & Hin & Hd & Ha)]; [by left|].
           right. exists d, a. split; [by right | done].
        -- intros [?|(d & a & Hin & Hd & Ha)]; [by left|].
           apply elem_of_cons in Hin as [Heq'|Hin].
           ++ injection Heq' as -> ->. congruence.
           ++ right. eauto.
Qed.

(** C10: compiling the masks never fails and inverts the declared agent.  A
    field is in the client mask exactly when an entry for it declares agent
    'producer'; it is in the producer mask exactly when an entry for it
    declares any other agent, 'client' included; a field whose entries carry
    no 'agent' key is in neither mask. *)
Theorem field_value_masks_invert_agent (fields : list (string * dict)) :
  ∃ m, _get_field_value_masks fields = Ok m
    ∧ (∀ f, f ∈ mask_of "client" m ↔
         ∃ d, (f, d) ∈ fields ∧ dict_get "agent" d = Some (VStr "producer"))
    ∧ (∀ f, f ∈ mask_of "producer" m ↔
         ∃ d a, (f, d) ∈ fields ∧ dict_get "agent" d = Some a
                ∧ a ≠ VStr "producer")
    ∧ (∀ f, (∀ d, (f, d) ∈ fields → dict_get "agent" d = None) →
         (f ∉ mask_of "client" m) ∧ (f ∉ mask_of "producer" m)).
Proof.
  destruct (add_field_masks_spec fields ∅ ∅) as (c & p & Heq & Hc & Hp).
  exists [("client"%string, c); ("producer"%string, p)].
  split; [exact Heq|].
  set (m := [("client"%string, c); ("producer"%string, p)]).
  assert (Hc' : ∀ f, (f ∈ mask_of "client" m) ↔
         (∃ d, (f, d) ∈ fields ∧ dict_get "agent" d = Some (VStr "producer"))).
  { intros f. change (mask_of _ _) with c. rewrite Hc.
    split; [intros [H|H]; [by apply elem_of_empty in H | done] | by right]. }
  assert (Hp' : ∀ f, (f ∈ mask_of "producer" m) ↔
         (∃ d a, (f, d) ∈ fields ∧ dict_get "agent" d = Some a
                 ∧ a ≠ VStr "producer")).
  { intros f. change (mask_of _ _) with p. rewrite Hp.
    split; [intros [H|H]; [by apply elem_of_empty in H | done] | by right]. }
  split; [exact Hc'|]. split; [exact Hp'|].
  intros f Hnone. rewrite Hc', Hp'. split.
  - intros (d & Hin & Hd). rewrite (Hnone d Hin) in Hd. done.
  - intros (d & a & Hin & Hd & _). rewrite (Hnone d Hin) in Hd. done.
Qed.

(** ** The batching loop *)

Section AnonymizeFacts.
Context {R J : Type}.
Variable job_run : list R -> J -> result unit * J.
Implicit Types (v : locals (R:=R)) (s : anonymizer_state (R:=R) (J:=J)).

Lemma len_app (b : list R) r : len (b ++ [r]) = len b + 1.
Proof. unfold len. rewrite length_app. simpl. lia. Qed.

Lemma len_nonneg (b : list R) : 0 ≤ len b.
Proof. unfold len. lia. Qed.

Lemma len_pos (b : list R) : b ≠ [] → 0 < len b.
Proof. destruct b; [done|]. unfold len. simpl. lia. Qed.




Lemma last_default_irrelevant {A} (x : A) (l : list A) (d d' : A) :
  List.last (x :: l) d = List.last (x :: l) d'.
Proof.
  revert x. induction l as [|y l IH]; intros x; [reflexivity|].
  change (List.last (y :: l) d = List.last (y :: l) d'). apply IH.
Qed.

Lemma loop_partial size records : ∀ v s,
  unread s = records →
  len (record_buffer v) + Z.of_nat (length records) < size →
  ∃ batch_start,
    loop job_run size None records v s
    = after_loop job_run
        (Locals (record_buffer v ++ map fst records) batch_start
           (last_successful_batch_timestamp v) (processed_count v))
        (AnonymizerState
           (List.last (map snd records) (last_processed_timestamp s)) []
           (job s) (logged s)).
Proof.
  induction records as [|[record cursor] records IH]; intros v s Hunread Hlen.
  - exists (batch_start_mongodb_timestamp v). simpl.
    rewrite app_nil_r. destruct v, s; simpl in *. by subst.
  - simpl loop.
    assert (Hfull : (size <=? len (record_buffer v ++ [record])) = false).
    { apply Z.leb_gt. rewrite len_app. simpl length in Hlen. lia. }
    rewrite Hfull.
    match goal with
    | |- context [loop _ _ _ records ?v' ?s'] =>
        destruct (IH v' s') as [bs Heq]
    end.
    + reflexivity.
    + simpl. rewrite len_app. simpl length in Hlen. lia.
    + exists bs. rewrite Heq. simpl. rewrite <- app_assoc. simpl.
      destruct records as [|p records']; [reflexivity|].
      do 2 f_equal. apply last_default_irrelevant.
Qed.

(** C1 fails on the last, undersized batch.  When the reader holds fewer
    records than the buffer size and the job raises on them, nothing is
    caught: the exception leaves [anonymize], no count is returned, and the
    cursor stays where the last record pulled has put it instead of going
    back to the value it had before the batch. *)
Theorem final_batch_failure_propagates size s e j' :
  unread s ≠ [] →
  Z.of_nat (length (unread s)) < size →
  job_run (map fst (unread s)) (job s) = (Raise e, j') →
  anonymize job_run size None s
  = (Propagated e,
     AnonymizerState
       (List.last (map snd (unread s)) (last_processed_timestamp s)) []
       j' (logged s)).
Proof.
  intros Hne Hlen Hjob. unfold anonymize.
  destruct (loop_partial size (unread s)
              (Locals [] None (last_processed_timestamp s) 0) s)
    as [bs ->]; [done | unfold len; simpl; lia |].
  unfold after_loop. simpl.
  destruct (map fst (unread s)) as [|r b] eqn:Hmap.
  - destruct (unread s); [done | discriminate].
  - by rewrite Hjob.
Qed.

End AnonymizeFacts.



Lemma final_batch_failure_propagates_witness :
  anonymize (fun (_ : list unit) (j : unit) => (Raise WriterError, j)) 2 None
    (AnonymizerState (Some 0) [(tt, Some 10)] tt [])
  = (Propagated WriterError, AnonymizerState (Some 10) [] tt []).
Proof.
  apply (final_batch_failure_propagates
           (fun (_ : list unit) (j : unit) => (Raise WriterError, j)) 2
           (AnonymizerState (Some 0) [(tt, Some 10)] tt []) WriterError tt).
  - discriminate.
  - simpl. lia.
  - reflexivity.
Defined.

(** C2 fails on the spec's own scenario: three records, a buffer of two, the
    sink raising on the second batch (record 3).  That batch is the final,
    undersized one.  Its failure is not caught: the exception leaves
    [anonymize] instead of a count of 2, the cursor stays after record 3
    instead of going back to the cursor after record 2, and [anonymize] logs
    no error for it. *)
Theorem final_batch_failure_in_spec_scenario :
  anonymize sink_raises_on_third 2 None
    (AnonymizerState (Some 0)
       [(1%nat, Some 10); (2%nat, Some 20); (3%nat, Some 30)] [] [])
  = (Propagated WriterError,
     AnonymizerState (Some 30) [] [[1%nat; 2%nat]]
       [LogInfo "record_batch_anonymized"
          "2 records anonymized.correctorTime within range [10, 20]"]).
Proof. reflexivity. Qed.


(** ** The job: store primitives *)

Lemma set_heap_set_heap h h' s : set_heap h' (set_heap h s) = set_heap h' s.
Proof. by destruct s. Qed.

Lemma set_heap_id s : set_heap (heap s) s = s.
Proof. by destruct s. Qed.

Lemma getobj_ok l s d : heap s !! l = Some d → getobj l s = (Ok d, s).
Proof. unfold getobj. by intros ->. Qed.

Lemma setitem_ok l k v s d :
  heap s !! l = Some d →
  setitem l k v s = (Ok tt, set_heap (<[l := dict_set k v d]> (heap s)) s).
Proof. unfold setitem. by intros ->. Qed.

Lemma touched_lookup l d d' s :
  heap s !! l = Some d → heap (touched l d' s) !! l = Some d'.
Proof.
  intros H. destruct s as [h lg w]. simpl in *. apply list_lookup_insert_eq.
  by eapply lookup_lt_Some.
Qed.

Lemma touched_lookup_ne l l' d' s :
  l ≠ l' → heap (touched l d' s) !! l' = heap s !! l'.
Proof. intros H. destruct s as [h lg w]. simpl. by apply list_lookup_insert_ne. Qed.

Lemma touched_touched l d' d'' s : touched l d'' (touched l d' s) = touched l d'' s.
Proof.
  destruct s as [h lg w]. unfold touched, set_heap. simpl.
  by rewrite list_insert_insert_eq.
Qed.

Lemma touched_id l d s : heap s !! l = Some d → touched l d s = s.
Proof.
  intros H. destruct s as [h lg w]. unfold touched, set_heap. simpl in *.
  by rewrite list_insert_id.
Qed.

Lemma setitem_touched l k v s d :
  heap s !! l = Some d →
  setitem l k v s = (Ok tt, touched l (dict_set k v d) s).
Proof. apply setitem_ok. Qed.

Lemma bind_ok {A B} (m : M A) (k : A → M B) s a s1 :
  m s = (Ok a, s1) → bind m k s = k a s1.
Proof. unfold bind. by intros ->. Qed.

Lemma bind_raise {A B} (m : M A) (k : A → M B) s e s1 :
  m s = (Raise e, s1) → bind m k s = (Raise e, s1).
Proof. unfold bind. by intros ->. Qed.

Lemma bind_inv {A B} (m : M A) (k : A → M B) s b s' :
  bind m k s = (Ok b, s') → ∃ a s1, m s = (Ok a, s1) ∧ k a s1 = (Ok b, s').
Proof. unfold bind. destruct (m s) as [[a|e] s1]; [eauto | discriminate]. Qed.

Section JobFacts.
Variable repr_ref : store → loc → string.
Variable format_exc : exn → string.
Variable self : AnonymizationJob.

Local Abbreviation py_str := (py_str repr_ref).
Local Abbreviation matches := (_record_matches_conditions repr_ref).
Local Abbreviation record_matches := (record_matches repr_ref).
Local Abbreviation matches_any := (matches_any repr_ref).
Local Abbreviation _should_be_hidden := (_should_be_hidden repr_ref format_exc self).
Local Abbreviation apply_rules := (apply_rules repr_ref).
Local Abbreviation _substitute := (_substitute repr_ref format_exc self).
Local Abbreviation process_records := (process_records repr_ref format_exc self).
Local Abbreviation condition_holds := (condition_holds repr_ref).

(** *** The match predicate *)

Lemma matches_iff h d conds :
  matches h d conds = true ↔ Forall (condition_holds h d) conds.
Proof.
  induction conds as [|[field pat] conds IH]; simpl.
  - split; [constructor | done].
  - rewrite Forall_cons. unfold condition_holds at 1. simpl.
    destruct (dict_get field d) as [v|].
    + destruct (pat (py_str h v)) eqn:Hpat.
      * rewrite IH. split; [intros H; split; eauto | by intros [_ H]].
      * split; [done | intros [(v' & [= <-] & H) _]; congruence].
    + split; [done | by intros [(v' & H & _) _]].
Qed.


Lemma record_matches_ok l conds s d :
  heap s !! l = Some d →
  record_matches l conds s = (Ok (matches (heap s) d conds), s).
Proof. unfold record_matches. by intros ->. Qed.

Lemma try_log_ok {A} tag template (body : M A) s a s' :
  body s = (Ok a, s') → try_log format_exc tag template body s = (Ok a, s').
Proof. unfold try_log. by intros ->. Qed.

Lemma try_log_raise {A} tag template (body : M A) s e s' :
  body s = (Raise e, s') →
  try_log format_exc tag template body s
  = (Raise e, add_log (LogError tag (format template [format_exc e])) s').
Proof. unfold try_log. by intros ->. Qed.

Lemma try_log_inv {A} tag template (body : M A) s a s' :
  try_log format_exc tag template body s = (Ok a, s') → body s = (Ok a, s').
Proof. unfold try_log. by destruct (body s) as [[a'|e] s1]. Qed.

Lemma matches_any_ok l rules s d :
  heap s !! l = Some d →
  matches_any l rules s = (Ok (existsb (matches (heap s) d) rules), s).
Proof.
  intros Hl. induction rules as [|conds rules IH]; simpl; [done|].
  unfold bind. rewrite (record_matches_ok _ _ _ _ Hl).
  destruct (matches (heap s) d conds); [done | apply IH].
Qed.

Lemma should_be_hidden_ok l s d :
  heap s !! l = Some d →
  _should_be_hidden l s
  = (Ok (existsb (matches (heap s) d) (_hiding_rules self)), s).
Proof.
  intros Hl. unfold _should_be_hidden. apply try_log_ok.
  by apply matches_any_ok.
Qed.




(** *** Substitution *)

Lemma apply_substitutes_ok l subs : ∀ s d,
  heap s !! l = Some d →
  Forall has_both_keys subs →
  ∃ d', apply_substitutes l subs s = (Ok tt, touched l d' s)
    ∧ ∀ f, dict_get f d' = match substitute_value f subs with
                           | Some v => Some v
                           | None => dict_get f d
                           end.
Proof.
  induction subs as [|sub subs IH]; intros s d Hl Hsubs; simpl.
  - exists d. by rewrite (touched_id _ _ _ Hl).
  - apply Forall_cons in Hsubs as [[[f0 Hf0] [v0 Hv0]] Hsubs].
    rewrite Hf0, Hv0. simpl. unfold bind at 1 2. unfold ret.
    rewrite (bind_ok _ _ _ _ _ (setitem_touched _ _ _ _ _ Hl)).
    destruct (IH _ _ (touched_lookup _ _ (dict_set f0 v0 d) _ Hl) Hsubs)
      as (d' & Hrun & Hget).
    exists d'. rewrite Hrun, touched_touched. split; [done|].
    intros f. rewrite Hget. destruct (substitute_value f subs); [done|].
    rewrite dict_get_set.
    destruct (decide (f0 = f)) as [->|Hne].
    + by rewrite decide_True.
    + rewrite decide_False; [done | congruence].
Qed.

Lemma apply_rules_app l rules1 rules2 s :
  apply_rules l (rules1 ++ rules2) s
  = bind (apply_rules l rules1) (fun _ => apply_rules l rules2) s.
Proof.
  revert s. induction rules1 as [|rule rules1 IH]; intros s; simpl;
    [reflexivity|].
  unfold bind.
  destruct (record_matches l (conditions rule) s) as [[b|e] s1];
    [|reflexivity].
  destruct ((if b then apply_substitutes l (substitutes rule) else ret ()) s1)
    as [[[]|e] s2]; [|reflexivity].
  rewrite IH. reflexivity.
Qed.

(** One more rule after rules that went through: it is matched against the
    record as they left it, and only a rule that matches touches it. *)
Lemma apply_rules_snoc l rules rule s s1 d1 :
  apply_rules l rules s = (Ok tt, s1) →
  heap s1 !! l = Some d1 →
  apply_rules l (rules ++ [rule]) s
  = if matches (heap s1) d1 (conditions rule)
    then apply_substitutes l (substitutes rule) s1
    else (Ok tt, s1).
Proof.
  intros Hrules Hl. rewrite apply_rules_app, (bind_ok _ _ _ _ _ Hrules). simpl.
  rewrite (bind_ok _ _ _ _ _ (record_matches_ok _ _ _ _ Hl)).
  destruct (matches (heap s1) d1 (conditions rule)); [|reflexivity].
  unfold bind, ret.
  by destruct (apply_substitutes l (substitutes rule) s1) as [[[]|e] s2].
Qed.

Lemma touched_inj l d d1 d2 s :
  heap s !! l = Some d → touched l d1 s = touched l d2 s → d1 = d2.
Proof.
  intros Hl Heq. pose proof (touched_lookup _ _ d1 _ Hl) as H1.
  rewrite Heq, (touched_lookup _ _ d2 _ Hl) in H1. by injection H1.
Qed.

Lemma apply_rules_ok l rules : ∀ s d,
  heap s !! l = Some d →
  Forall (fun rule => Forall has_both_keys (substitutes rule)) rules →
  ∃ d', apply_rules l rules s = (Ok tt, touched l d' s).
Proof.
  induction rules as [|rule rules IH]; intros s d Hl Hrules; simpl.
  - exists d. by rewrite (touched_id _ _ _ Hl).
  - apply Forall_cons in Hrules as [Hrule Hrules].
    rewrite (bind_ok _ _ _ _ _ (record_matches_ok _ _ _ _ Hl)).
    destruct (matches (heap s) d (conditions rule)).
    + destruct (apply_substitutes_ok l (substitutes rule) s d Hl Hrule)
        as (d1 & Hrun & _).
      rewrite (bind_ok _ _ _ _ _ Hrun).
      destruct (IH _ _ (touched_lookup _ _ d1 _ Hl) Hrules) as (d' & ->).
      exists d'. by rewrite touched_touched.
    + unfold bind at 1. unfold ret. by apply (IH s d).
Qed.

(** The field keeps the value [v] through the rules of [post] when those
    that name the field do not match the record at their turn. *)
Lemma value_survives l s d field v post : ∀ rules d1,
  heap s !! l = Some d →
  apply_rules l rules s = (Ok tt, touched l d1 s) →
  dict_get field d1 = Some v →
  Forall (fun rule => Forall has_both_keys (substitutes rule)) post →
  (∀ post1 later post2,
     post = post1 ++ later :: post2 →
     substitute_value field (substitutes later) ≠ None →
     ∃ d_l, apply_rules l (rules ++ post1) s = (Ok tt, touched l d_l s)
            ∧ matches (heap (touched l d_l s)) d_l (conditions later) = false) →
  ∃ d', apply_rules l (rules ++ post) s = (Ok tt, touched l d' s)
        ∧ dict_get field d' = Some v.
Proof.
  induction post as [|later post IH]; intros rules d1 Hl Hrules Hv Hpost Hturn.
  - exists d1. by rewrite app_nil_r.
  - apply Forall_cons in Hpost as [Hlater Hpost].
    pose proof (touched_lookup _ _ d1 _ Hl) as Hl1.
    pose proof (apply_rules_snoc _ _ later _ _ _ Hrules Hl1) as Hstep.
    assert (Hnext : ∃ d2, apply_rules l (rules ++ [later]) s = (Ok tt, touched l d2 s)
                          ∧ dict_get field d2 = Some v).
    { destruct (matches (heap (touched l d1 s)) d1 (conditions later)) eqn:Hm;
        [|by exists d1].
      destruct (substitute_value field (substitutes later)) as [w|] eqn:Hnames.
      - destruct (Hturn [] later post eq_refl) as (d_l & Hrun_l & Hm_l);
          [by rewrite Hnames|].
        rewrite app_nil_r, Hrules in Hrun_l.
        assert (Heq : touched l d1 s = touched l d_l s) by congruence.
        apply (touched_inj _ _ _ _ _ Hl) in Heq as <-. congruence.
      - destruct (apply_substitutes_ok l (substitutes later) _ _ Hl1 Hlater)
          as (d2 & Hrun2 & Hget2).
        exists d2. rewrite Hstep, Hrun2, touched_touched. split; [done|].
        by rewrite Hget2, Hnames. }
    destruct Hnext as (d2 & Hrules2 & Hv2).
    destruct (IH (rules ++ [later]) d2 Hl Hrules2 Hv2 Hpost) as (d' & Hrun & Hd').
    { intros post1 l' post2 -> Hnames.
      destruct (Hturn (later :: post1) l' post2 eq_refl Hnames) as (d_l & Hrun_l & Hm_l).
      exists d_l. by rewrite <- app_assoc. }
    exists d'. rewrite <- app_assoc in Hrun. done.
Qed.

(** C4: substitution rules are taken in declaration order, every substitute
    of the settings having its two keys.  The rules before [rule] are applied
    first; [rule] is matched against the record as they left it.  When it
    does not match, it leaves the record as it found it.  When it matches,
    every field it names gets the literal value the rule gives it and no
    other field changes; and that value is the field's final value when
    every later rule that names the field fails to match at its turn: of
    the matching rules that write a field, the last one wins. *)
Theorem later_substitution_wins record s d pre rule post :
  heap s !! record = Some d →
  _substitution_rules self = pre ++ rule :: post →
  Forall (fun r => Forall has_both_keys (substitutes r)) (_substitution_rules self) →
  ∃ d1,
    apply_rules record pre s = (Ok tt, touched record d1 s)
    ∧ (matches (heap (touched record d1 s)) d1 (conditions rule) = false →
       apply_rules record (pre ++ [rule]) s = (Ok tt, touched record d1 s))
    ∧ (matches (heap (touched record d1 s)) d1 (conditions rule) = true →
       (∃ d2,
          apply_rules record (pre ++ [rule]) s = (Ok tt, touched record d2 s)
          ∧ ∀ field,
              dict_get field d2
              = match substitute_value field (substitutes rule) with
                | Some v => Some v
                | None => dict_get field d1
                end)
       ∧ ∀ field v,
           substitute_value field (substitutes rule) = Some v →
           (∀ post1 later post2,
              post = post1 ++ later :: post2 →
              substitute_value field (substitutes later) ≠ None →
              ∃ d_l,
                apply_rules record (pre ++ rule :: post1) s
                = (Ok tt, touched record d_l s)
                ∧ matches (heap (touched record d_l s)) d_l (conditions later)
                  = false) →
           ∃ d', _substitute record s = (Ok record, touched record d' s)
                 ∧ dict_get field d' = Some v).
Proof.
  intros Hl Hrules Hkeys. rewrite Hrules in Hkeys.
  apply Forall_app in Hkeys as [Hpre Hkeys].
  apply Forall_cons in Hkeys as [Hrule Hpost].
  destruct (apply_rules_ok record pre s d Hl Hpre) as (d1 & Hrun1).
  pose proof (touched_lookup _ _ d1 _ Hl) as Hl1.
  pose proof (apply_rules_snoc _ _ rule _ _ _ Hrun1 Hl1) as Hstep.
  exists d1. split; [done|]. split.
  { intros Hm. by rewrite Hstep, Hm. }
  intros Hm. rewrite Hm in Hstep.
  destruct (apply_substitutes_ok record (substitutes rule) _ _ Hl1 Hrule)
    as (d2 & Hrun2 & Hget2).
  rewrite touched_touched in Hrun2. rewrite Hrun2 in Hstep.
  split; [by exists d2|].
  intros field v Hv Hturn.
  destruct (value_survives record s d field v post (pre ++ [rule]) d2 Hl Hstep)
    as (d' & Hrun & Hd'); [by rewrite Hget2, Hv | done | |].
  { intros post1 later post2 Hsplit Hnames.
    destruct (Hturn post1 later post2 Hsplit Hnames) as (d_l & Hrun_l & Hm_l).
    exists d_l. by rewrite <- app_assoc. }
  exists d'. split; [|done].
  unfold _substitute. apply try_log_ok.
  rewrite Hrules. rewrite <- app_assoc in Hrun. simpl in Hrun.
  by rewrite (bind_ok _ _ _ _ _ Hrun).
Qed.
End JobFacts.


(** Two rules that both match and both write [fieldA]: the value of the
    second is the final one. *)
Lemma later_substitution_wins_witness :
  ∃ d',
    _substitute repr_elided traceback_text
      (scenario_job [] substitute_twice empty_masks) 3%nat scenario_split_state
    = (Ok 3%nat, touched 3 d' scenario_split_state)
    ∧ dict_get "fieldA"%string d' = Some (VStr "second").
Proof.
  destruct (later_substitution_wins repr_elided traceback_text
              (scenario_job [] substitute_twice empty_masks) 3%nat
              scenario_split_state _
              [SubstitutionRule [("fieldA"%string, exactly "1")]
                 [Substitute (Some "fieldA"%string) (Some (VStr "first"))]]
              (SubstitutionRule [("ts"%string, exactly "100")]
                 [Substitute (Some "fieldA"%string) (Some (VStr "second"))])
              [] eq_refl eq_refl)
    as (d1 & Hpre & _ & Hwin).
  { repeat constructor; by eexists. }
  assert (d1 = [("fieldA", VStr "first"); ("ts", VInt 100)]%string) as ->.
  { eapply touched_inj with (l := 3%nat) (s := scenario_split_state);
      [reflexivity|].
    apply (f_equal snd) in Hpre. symmetry. exact Hpre. }
  destruct (Hwin eq_refl) as [_ Hfinal].
  apply (Hfinal "fieldA"%string (VStr "second") eq_refl).
  intros post1 later post2 Hsplit. by destruct post1.
Defined.

(** ** The job: the splitter *)

Lemma getitem_inv {V} k (d : list (string * V)) s v s' :
  getitem k d s = (Ok v, s') → dict_get k d = Some v ∧ s' = s.
Proof.
  unfold getitem. destruct (dict_get k d); [|discriminate].
  by intros [= -> ->].
Qed.

Lemma getitem_ok {V} k (d : list (string * V)) s v :
  dict_get k d = Some v → getitem k d s = (Ok v, s).
Proof. unfold getitem. by intros ->. Qed.

Lemma getobj_inv l s d s' : getobj l s = (Ok d, s') → heap s !! l = Some d ∧ s' = s.
Proof.
  unfold getobj. destruct (heap s !! l); [|discriminate]. by intros [= -> ->].
Qed.

Lemma getobj_state l s (r : result dict) s' : getobj l s = (r, s') → s' = s.
Proof. unfold getobj. destruct (heap s !! l); by intros [= _ ->]. Qed.

Lemma new_dict_lookup d s :
  heap (set_heap (heap s ++ [d]) s) !! length (heap s) = Some d.
Proof. destruct s as [h lg w]. simpl. by rewrite list_lookup_middle. Qed.

Lemma touched_new d d' s :
  touched (length (heap s)) d' (set_heap (heap s ++ [d]) s)
  = set_heap (heap s ++ [d']) s.
Proof.
  destruct s as [h lg w]. unfold touched, set_heap. simpl. f_equal.
  rewrite insert_app_r_alt by lia. by rewrite Nat.sub_diag.
Qed.

Lemma old_lookup l d0 s d :
  heap s !! l = Some d → heap (set_heap (heap s ++ [d0]) s) !! l = Some d.
Proof. destruct s as [h lg w]. simpl. intros H. by apply lookup_app_l_Some. Qed.

(** Step 3 *)
Lemma spec_mask_get fields : ∀ d f,
  dict_get f (spec_mask fields d)
  = if decide (f ∈ fields) then Some VNone else dict_get f d.
Proof.
  unfold spec_mask. induction fields as [|x fields IH]; intros d f; simpl.
  - destruct (decide (f ∈ [])) as [H|]; [by apply elem_of_nil in H | done].
  - rewrite IH, dict_get_set.
    destruct (decide (f ∈ fields)) as [Hin|Hin].
    + rewrite decide_True; [done | by right].
    + destruct (decide (x = f)) as [->|Hne].
      * rewrite decide_True; [done | by left].
      * rewrite decide_False; [done|].
        intros [->|H]%elem_of_cons; [done | by apply Hin].
Qed.

Lemma mask_fields_ok r fields : ∀ s d,
  heap s !! r = Some d →
  mask_fields r fields s = (Ok tt, touched r (spec_mask fields d) s).
Proof.
  induction fields as [|f fields IH]; intros s d Hl; simpl.
  - by rewrite (touched_id _ _ _ Hl).
  - rewrite (bind_ok _ _ _ _ _ (setitem_touched _ _ _ _ _ Hl)).
    rewrite (IH _ _ (touched_lookup _ _ _ _ Hl)). by rewrite touched_touched.
Qed.

(** Step 1 *)
Lemma translate_items_spec t r items : ∀ s d,
  heap s !! r = Some d →
  ∃ d', translate_items (TTable t) r items s
        = (match spec_translate t items d with
           | Ok _ => Ok tt
           | Raise e => Raise e
           end, touched r d' s)
        ∧ ∀ d'', spec_translate t items d = Ok d'' → d' = d''.
Proof.
  induction items as [|[k v] items IH]; intros s d Hl; simpl.
  - exists d. rewrite (touched_id _ _ _ Hl). split; [done | by intros ? [= <-]].
  - unfold bind at 1. unfold translate_key, getitem.
    destruct (dict_get k t) as [new_key|].
    + unfold ret. rewrite (bind_ok _ _ _ _ _ (setitem_touched _ _ _ _ _ Hl)).
      destruct (IH _ _ (touched_lookup _ _ (dict_set new_key v d) _ Hl))
        as (d' & -> & Hd').
      exists d'. by rewrite touched_touched.
    + exists d. rewrite (touched_id _ _ _ Hl). split; [done | by intros ? [=]].
Qed.

(** Step 2 *)
Lemma copy_shared_spec tr r items : ∀ s d,
  heap s !! r = Some d →
  ∃ d', copy_shared tr r items s
        = (match spec_copy_shared tr items d with
           | Ok _ => Ok tt
           | Raise e => Raise e
           end, touched r d' s)
        ∧ ∀ d'', spec_copy_shared tr items d = Ok d'' → d' = d''.
Proof.
  induction items as [|[k v] items IH]; intros s d Hl; simpl.
  - exists d. rewrite (touched_id _ _ _ Hl). split; [done | by intros ? [= <-]].
  - unfold bind at 1. destruct (is_agent_key k).
    + unfold ret. apply IH, Hl.
    + unfold bind at 1. unfold shared_name, bind, getitem.
      destruct (dict_get k tr) as [[new_key|table]|]; simpl.
      * rewrite (setitem_touched _ _ _ _ _ Hl).
        destruct (IH _ _ (touched_lookup _ _ (dict_set new_key v d) _ Hl))
          as (d' & -> & Hd').
        exists d'. by rewrite touched_touched.
      * exists d. rewrite (touched_id _ _ _ Hl). split; [done | by intros ? [=]].
      * exists d. rewrite (touched_id _ _ _ Hl). split; [done | by intros ? [=]].
Qed.

Lemma translate_agent_touches table r sub s d :
  heap s !! r = Some d →
  ∃ res d', translate_agent table r sub s = (res, touched r d' s).
Proof.
  intros Hl. pose proof (touched_id _ _ _ Hl) as Hid.
  destruct sub as [|b|z|[|c str]|l]; simpl;
    try (exists (Raise TypeError), d; by rewrite Hid).
  - exists (Ok tt), d. by rewrite Hid.
  - unfold bind. destruct table as [new_name|t]; simpl.
    + exists (Raise TypeError), d. by rewrite Hid.
    + unfold getitem. destruct (dict_get _ t); simpl;
        eexists _, d; by rewrite Hid.
  - unfold bind, getobj. destruct (heap s !! l) as [items|].
    + destruct table as [new_name|t].
      * destruct items as [|[k v] items]; simpl.
        -- exists (Ok tt), d. by rewrite Hid.
        -- exists (Raise TypeError), d. by rewrite Hid.
      * destruct (translate_items_spec t r items s d Hl) as (d' & -> & _).
        by eexists _, d'.
    + exists (Raise BadReference), d. by rewrite Hid.
Qed.

Lemma agents_present_eq dual :
  agents_present dual
  = (if dict_mem "client" dual then ["client"%string] else [])
    ++ (if dict_mem "producer" dual then ["producer"%string] else []).
Proof.
  unfold agents_present. rewrite !filter_cons, filter_nil.
  destruct (dict_mem "client" dual), (dict_mem "producer" dual);
    repeat (rewrite decide_True by done);
    repeat (rewrite decide_False by done); done.
Qed.

Section SplitterFacts.
Variable format_exc : exn → string.
Variable self : AnonymizationJob.

Local Abbreviation _get_agent_record := (_get_agent_record self).
Local Abbreviation append_agent_record := (append_agent_record self).
Local Abbreviation _get_records := (_get_records format_exc self).
Local Abbreviation spec_record_for := (spec_record_for self).

(** What a record that [_get_agent_record] returns looks like: a new
    object, the only change to the store, with every field of the agent's
    mask null. *)
Lemma get_agent_record_masked agent dual_record s record s' :
  _get_agent_record agent dual_record s = (Ok record, s') →
  ∃ mask d,
    dict_get agent (_field_value_masks self) = Some mask
    ∧ record = length (heap s)
    ∧ s' = set_heap (heap s ++ [d]) s
    ∧ ∀ f, f ∈ mask → dict_get f d = Some VNone.
Proof.
  unfold _get_agent_record. intros H.
  apply bind_inv in H as (table & s1 & [Htable ->]%getitem_inv & H).
  apply bind_inv in H as (dual & s1 & [Hdual ->]%getobj_inv & H).
  apply bind_inv in H as (sub & s1 & [Hsub ->]%getitem_inv & H).
  rewrite (bind_ok _ _ _ _ _ (eq_refl : new_dict [] s = (_, _))) in H.
  set (s0 := set_heap (heap s ++ [[]]) s) in H.
  set (r := length (heap s)) in H.
  pose proof (new_dict_lookup [] s : heap s0 !! r = Some []) as Hr.
  destruct (translate_agent_touches table r sub s0 [] Hr) as (res & d1 & Hta).
  apply bind_inv in H as ([] & s1 & Hta' & H).
  injection (eq_trans (eq_sym Hta) Hta') as _ <-.
  apply bind_inv in H as (dual' & s1 & [Hdual' ->]%getobj_inv & H).
  pose proof (touched_lookup _ _ d1 _ Hr) as Hr1.
  destruct (copy_shared_spec (_field_translations self) r dual' _ _ Hr1)
    as (d2 & Hcs & _).
  apply bind_inv in H as ([] & s1 & Hcs' & H).
  injection (eq_trans (eq_sym Hcs) Hcs') as _ <-.
  rewrite touched_touched in H.
  apply bind_inv in H as (mask & s1 & [Hmask ->]%getitem_inv & H).
  rewrite (bind_ok _ _ _ _ _
             (mask_fields_ok r (elements mask) _ _ (touched_lookup _ _ d2 _ Hr)))
    in H.
  rewrite touched_touched in H. injection H as <- <-.
  exists mask, (spec_mask (elements mask) d2).
  split; [done|]. split; [done|]. split; [apply touched_new|].
  intros f Hf. rewrite spec_mask_get, decide_True; [done|].
  by apply elem_of_elements.
Qed.

(** [_get_agent_record] against the spec's three steps. *)
Lemma get_agent_record_refines agent dual_record s dual :
  heap s !! dual_record = Some dual →
  ∀ r, spec_record_for (heap s) dual agent = Some r →
  match r with
  | Ok d => _get_agent_record agent dual_record s
            = (Ok (length (heap s)), set_heap (heap s ++ [d]) s)
  | Raise e => ∃ d, _get_agent_record agent dual_record s
                    = (Raise e, set_heap (heap s ++ [d]) s)
  end.
Proof.
  intros Hdual r. unfold spec_record_for.
  destruct (dict_get agent (_field_translations self)) as [[|table]|] eqn:Htable;
    try done.
  destruct (dict_get agent (_field_value_masks self)) as [mask|] eqn:Hmask;
    [|done].
  destruct (dict_get agent dual) as [[| | | |l]|] eqn:Hsub; try done.
  destruct (heap s !! l) as [sub|] eqn:Hl; [|done]. intros [= <-].
  unfold _get_agent_record.
  rewrite (bind_ok _ _ _ _ _ (getitem_ok _ _ s _ Htable)).
  rewrite (bind_ok _ _ _ _ _ (getobj_ok _ _ _ Hdual)).
  rewrite (bind_ok _ _ _ _ _ (getitem_ok _ _ s _ Hsub)).
  rewrite (bind_ok _ _ _ _ _ (eq_refl : new_dict [] s = (_, _))).
  set (s0 := set_heap (heap s ++ [[]]) s).
  set (rec := length (heap s)).
  pose proof (new_dict_lookup [] s : heap s0 !! rec = Some []) as Hr.
  pose proof (old_lookup _ [] _ _ Hl : heap s0 !! l = Some sub) as Hl0.
  pose proof (old_lookup _ [] _ _ Hdual : heap s0 !! dual_record = Some dual)
    as Hdual0.
  assert (Hne : rec ≠ dual_record).
  { apply lookup_lt_Some in Hdual. unfold rec. lia. }
  assert (Hta : translate_agent (TTable table) rec (VRef l) s0
                = translate_items (TTable table) rec sub s0).
  { simpl. by rewrite (bind_ok _ _ _ _ _ (getobj_ok _ _ _ Hl0)). }
  destruct (translate_items_spec table rec sub s0 [] Hr) as (d1 & Hti & Hd1).
  rewrite <- Hta in Hti. clear Hta.
  unfold spec_agent_record.
  destruct (spec_translate table sub []) as [r1|e]; simpl.
  2:{ rewrite (bind_raise _ _ _ _ _ Hti). exists d1. f_equal. apply touched_new. }
  rewrite (Hd1 r1 eq_refl) in Hti. rewrite (bind_ok _ _ _ _ _ Hti).
  pose proof (touched_lookup _ _ r1 _ Hr) as Hr1.
  assert (Hdual1 : heap (touched rec r1 s0) !! dual_record = Some dual).
  { by rewrite touched_lookup_ne. }
  rewrite (bind_ok _ _ _ _ _ (getobj_ok _ _ _ Hdual1)).
  destruct (copy_shared_spec (_field_translations self) rec dual _ _ Hr1)
    as (d2 & Hcs & Hd2).
  rewrite touched_touched in Hcs.
  destruct (spec_copy_shared (_field_translations self) dual r1) as [r2|e]; simpl.
  2:{ rewrite (bind_raise _ _ _ _ _ Hcs). exists d2. f_equal. apply touched_new. }
  rewrite (Hd2 r2 eq_refl) in Hcs. rewrite (bind_ok _ _ _ _ _ Hcs).
  rewrite (bind_ok _ _ _ _ _ (getitem_ok _ _ _ _ Hmask)).
  rewrite (bind_ok _ _ _ _ _
             (mask_fields_ok rec (elements mask) _ _ (touched_lookup _ _ r2 _ Hr))).
  rewrite touched_touched. unfold ret. f_equal. apply touched_new.
Qed.

Lemma append_agent_record_inv agent dual_record records s records' s' :
  append_agent_record agent dual_record records s = (Ok records', s') →
  ∃ dual,
    heap s !! dual_record = Some dual
    ∧ if dict_mem agent dual
      then ∃ mask d,
             dict_get agent (_field_value_masks self) = Some mask
             ∧ records' = records ++ [length (heap s)]
             ∧ s' = set_heap (heap s ++ [d]) s
             ∧ ∀ f, f ∈ mask → dict_get f d = Some VNone
      else records' = records ∧ s' = s.
Proof.
  unfold append_agent_record. intros H.
  apply bind_inv in H as (dual & s1 & [Hdual ->]%getobj_inv & H).
  exists dual. split; [done|]. destruct (dict_mem agent dual).
  - apply bind_inv in H as (record & s1 & Hrec & [= <- <-]).
    apply get_agent_record_masked in Hrec as (mask & d & Hmask & -> & -> & Hnull).
    by exists mask, d.
  - by injection H as <- <-.
Qed.

Lemma append_agent_record_present agent dual_record records s dual d :
  heap s !! dual_record = Some dual →
  dict_mem agent dual = true →
  spec_record_for (heap s) dual agent = Some (Ok d) →
  append_agent_record agent dual_record records s
  = (Ok (records ++ [length (heap s)]), set_heap (heap s ++ [d]) s).
Proof.
  intros Hdual Hmem Hspec. unfold append_agent_record.
  rewrite (bind_ok _ _ _ _ _ (getobj_ok _ _ _ Hdual)), Hmem.
  by rewrite (bind_ok _ _ _ _ _
                (get_agent_record_refines agent dual_record s dual Hdual _ Hspec)).
Qed.

Lemma append_agent_record_absent agent dual_record records s dual :
  heap s !! dual_record = Some dual →
  dict_mem agent dual = false →
  append_agent_record agent dual_record records s = (Ok records, s).
Proof.
  intros Hdual Hmem. unfold append_agent_record.
  by rewrite (bind_ok _ _ _ _ _ (getobj_ok _ _ _ Hdual)), Hmem.
Qed.

Lemma spec_record_for_grow h ext dual agent r :
  spec_record_for h dual agent = Some r →
  spec_record_for (h ++ ext) dual agent = Some r.
Proof.
  unfold spec_record_for.
  destruct (dict_get agent (_field_translations self)) as [[|table]|]; try done.
  destruct (dict_get agent (_field_value_masks self)) as [mask|]; [|done].
  destruct (dict_get agent dual) as [[| | | |l]|]; try done.
  destruct (h !! l) as [sub|] eqn:Hl; [|done].
  by rewrite (lookup_app_l_Some _ _ _ _ Hl).
Qed.

(** C5: every record the splitter returns for a dual record has every
    field of its agent's mask set, with the value [None], whether or not
    the translated source had the field.  The records are paired with the
    agents whose key the dual record has, client first; [s'] is the state
    the splitter leaves. *)
Theorem split_records_are_masked dual_record s records s' :
  _get_records dual_record s = (Ok records, s') →
  ∃ dual,
    heap s !! dual_record = Some dual
    ∧ Forall2
        (λ agent record,
           ∃ mask d,
             dict_get agent (_field_value_masks self) = Some mask
             ∧ heap s' !! record = Some d
             ∧ ∀ f, f ∈ mask → dict_get f d = Some VNone)
        (agents_present dual) records.
Proof.
  unfold _get_records. intros H. apply try_log_inv in H.
  apply bind_inv in H as (records1 & s1 & Hc & Hp).
  apply append_agent_record_inv in Hc as (dual & Hdual & Hc).
  apply append_agent_record_inv in Hp as (dual' & Hdual' & Hp).
  exists dual. split; [done|]. rewrite agents_present_eq.
  destruct (dict_mem "client" dual) eqn:Hmc.
  - destruct Hc as (mc & dc & Hmaskc & -> & -> & Hnullc).
    injection (eq_trans (eq_sym Hdual') (old_lookup _ dc _ _ Hdual)) as ->.
    destruct (dict_mem "producer" dual) eqn:Hmp.
    + destruct Hp as (mp & dp & Hmaskp & -> & -> & Hnullp).
      repeat constructor.
      * exists mc, dc. split; [done|]. split; [|done].
        apply old_lookup, new_dict_lookup.
      * exists mp, dp. split; [done|]. split; [|done]. apply new_dict_lookup.
    + destruct Hp as [-> ->]. repeat constructor.
      exists mc, dc. split; [done|]. split; [|done]. apply new_dict_lookup.
  - destruct Hc as [-> ->]. rewrite Hdual in Hdual'. injection Hdual' as <-.
    destruct (dict_mem "producer" dual) eqn:Hmp.
    + destruct Hp as (mp & dp & Hmaskp & -> & -> & Hnullp).
      repeat constructor.
      exists mp, dp. split; [done|]. split; [|done]. apply new_dict_lookup.
    + destruct Hp as [-> ->]. constructor.
Qed.

(** C6: the splitter returns one record for each agent whose key the dual
    record has, the client's first, so none, one or two; each is a new
    object appended to the store, and it is the record of the spec's three
    steps: the keys of the agent's nested document through the agent's
    table, the shared top-level fields through the shared entries, then
    the mask. *)
Theorem get_records_splits_per_agent dual_record s dual :
  heap s !! dual_record = Some dual →
  (length (agents_present dual) ≤ 2)%nat
  ∧ ∀ ds,
      Forall2 (λ agent d, spec_record_for (heap s) dual agent = Some (Ok d))
        (agents_present dual) ds →
      _get_records dual_record s
      = (Ok (seq (length (heap s)) (length ds)), set_heap (heap s ++ ds) s).
Proof.
  intros Hdual. rewrite agents_present_eq. split.
  { by destruct (dict_mem "client" dual), (dict_mem "producer" dual); simpl; lia. }
  intros ds Hds. unfold _get_records. apply try_log_ok.
  destruct (dict_mem "client" dual) eqn:Hmc.
  - apply Forall2_cons_inv_l in Hds as (dc & ds' & Hc & Hds & ->).
    rewrite (bind_ok _ _ _ _ _
               (append_agent_record_present _ _ [] _ _ _ Hdual Hmc Hc)).
    pose proof (old_lookup _ dc _ _ Hdual) as Hdual1.
    destruct (dict_mem "producer" dual) eqn:Hmp.
    + apply Forall2_cons_inv_l in Hds as (dp & ds'' & Hp & Hds & ->).
      apply Forall2_nil_inv_l in Hds as ->.
      rewrite (append_agent_record_present _ _ _ _ _ dp Hdual1 Hmp).
      * destruct s as [h lg w]. unfold set_heap. simpl.
        rewrite length_app, <- app_assoc. simpl.
        by replace (length h + 1)%nat with (S (length h)) by lia.
      * destruct s as [h lg w]. simpl. by apply spec_record_for_grow.
    + apply Forall2_nil_inv_l in Hds as ->.
      by rewrite (append_agent_record_absent _ _ _ _ _ Hdual1 Hmp).
  - rewrite (bind_ok _ _ _ _ _
               (append_agent_record_absent _ _ [] _ _ Hdual Hmc)).
    destruct (dict_mem "producer" dual) eqn:Hmp.
    + apply Forall2_cons_inv_l in Hds as (dp & ds'' & Hp & Hds & ->).
      apply Forall2_nil_inv_l in Hds as ->.
      by rewrite (append_agent_record_present _ _ _ _ _ dp Hdual Hmp).
    + apply Forall2_nil_inv_l in Hds as ->. simpl.
      rewrite (append_agent_record_absent _ _ _ _ _ Hdual Hmp).
      by rewrite app_nil_r, set_heap_id.
Qed.
End SplitterFacts.

(** The scenario of the spec: the dual record splits into the client's
    record, then the producer's. *)
Lemma get_records_splits_per_agent_witness :
  _get_records traceback_text (scenario_job [] [] empty_masks) 0%nat scenario_state
  = (Ok [3; 4]%nat, scenario_split_state).
Proof.
  apply (proj2 (get_records_splits_per_agent traceback_text
                  (scenario_job [] [] empty_masks) 0%nat scenario_state _ eq_refl)
           [ [("fieldA", VStr "1"); ("ts", VInt 100)];
             [("fieldA", VStr "2"); ("ts", VInt 100)] ]%string).
  change (agents_present _) with ["client"; "producer"]%string.
  repeat constructor.
Defined.

(** With [fieldA] and [fieldB] masked for the client, the client's record
    has both as [None], though no source field translates to [fieldB]. *)
Lemma split_records_are_masked_witness :
  ∃ d,
    heap (_get_records traceback_text
            (scenario_job [] [] mask_client_fieldA_fieldB) 0%nat scenario_state).2
      !! 3%nat = Some d
    ∧ dict_get "fieldA"%string d = Some VNone
    ∧ dict_get "fieldB"%string d = Some VNone
    ∧ dict_get "ts"%string d = Some (VInt 100).
Proof.
  destruct (split_records_are_masked traceback_text
              (scenario_job [] [] mask_client_fieldA_fieldB) 0%nat scenario_state
              [3; 4]%nat
              (_get_records traceback_text
                 (scenario_job [] [] mask_client_fieldA_fieldB) 0%nat
                 scenario_state).2)
    as (dual & Hdual & Hall).
  { vm_compute. reflexivity. }
  injection Hdual as <-.
  change (agents_present _) with ["client"; "producer"]%string in Hall.
  apply Forall2_cons_1 in Hall as [(mask & d & Hmask & Hd & Hnull) _].
  injection Hmask as <-.
  exists d. split; [done|]. split; [|split].
  - apply Hnull. set_solver.
  - apply Hnull. set_solver.
  - vm_compute in Hd. by injection Hd as <-.
Defined.

(** ** The job: a run does not depend on what the store held before *)

Lemma dict_below_get n d k v : dict_below n d → dict_get k d = Some v → val_below n v.
Proof.
  unfold dict_below. induction d as [|[k' v'] d IH]; simpl; [done|].
  intros [Hv Hd]%Forall_cons. destruct (decide (k = k')); [by intros [= <-] | by apply IH].
Qed.

Lemma dict_below_set n d k v : dict_below n d → val_below n v → dict_below n (dict_set k v d).
Proof.
  unfold dict_below. intros Hd Hv. induction d as [|[k' v'] d IH]; simpl.
  - by repeat constructor.
  - apply Forall_cons in Hd as [Hv' Hd]. destruct (decide (k = k')).
    + by constructor.
    + constructor; [done | by apply IH].
Qed.

Lemma dict_below_nil n : dict_below n [].
Proof. constructor. Qed.

Lemma spec_mask_below n fields : ∀ d, dict_below n d → dict_below n (spec_mask fields d).
Proof.
  unfold spec_mask. induction fields as [|f fields IH]; intros d Hd; simpl; [done|].
  by apply IH, dict_below_set.
Qed.

Lemma over_lookup_new s0 t i : heap (over s0 t) !! new_loc s0 i = heap t !! i.
Proof. unfold over, new_loc. simpl. by rewrite lookup_app_r, Nat.add_comm, Nat.add_sub by lia. Qed.

Lemma over_touched s0 t i d :
  touched (new_loc s0 i) d (over s0 t) = over s0 (touched i d t).
Proof.
  unfold touched, set_heap, over, new_loc. simpl. f_equal.
  rewrite insert_app_r_alt by lia. by rewrite Nat.add_comm, Nat.add_sub.
Qed.

Lemma over_alloc s0 t ds :
  set_heap (heap (over s0 t) ++ ds) (over s0 t) = over s0 (set_heap (heap t ++ ds) t).
Proof. unfold set_heap, over. simpl. by rewrite app_assoc. Qed.

Lemma over_length s0 t : length (heap (over s0 t)) = new_loc s0 (length (heap t)).
Proof. unfold over, new_loc. simpl. by rewrite length_app. Qed.

Lemma over_add_log s0 t e : add_log e (over s0 t) = over s0 (add_log e t).
Proof. unfold add_log, over. simpl. by rewrite app_assoc. Qed.

Lemma over_add_written s0 t b : add_written b (over s0 t) = over s0 (add_written b t).
Proof. unfold add_written, over. simpl. by rewrite app_assoc. Qed.

Lemma over_empty s0 : over s0 (JobState [] [] []) = s0.
Proof. destruct s0 as [h lg w]. unfold over. simpl. by rewrite !app_nil_r. Qed.

Lemma over_prefix h0 s0 t : h0 `prefix_of` heap s0 → h0 `prefix_of` heap (over s0 t).
Proof. intros [x Hx]. exists (x ++ heap t). simpl. by rewrite Hx, app_assoc. Qed.

Lemma prefix_lookup (h0 h : store) l :
  h0 `prefix_of` h → (l < length h0)%nat → h !! l = h0 !! l.
Proof. intros [x ->] Hl. by apply lookup_app_l. Qed.

Lemma closed_record_touched n h i d' j :
  dict_below n d' → closed_record n h j → closed_record n (<[i := d']> h) j.
Proof.
  intros Hd' (d & Hj & Hd). unfold closed_record.
  destruct (decide (i = j)) as [->|Hne].
  - exists d'. split; [|done]. apply list_lookup_insert_eq. by eapply lookup_lt_Some.
  - exists d. by rewrite list_lookup_insert_ne.
Qed.

Lemma closed_record_app n h ds j : closed_record n h j → closed_record n (h ++ ds) j.
Proof. intros (d & Hj & Hd). exists d. split; [by apply lookup_app_l_Some | done]. Qed.

Section RunFacts.
Variable repr_ref : store → loc → string.
Variable format_exc : exn → string.
Variable self : AnonymizationJob.

(** The store the runs start from: closed, with a [repr] of its documents
    that does not depend on what is allocated after them, and holding
    whatever the substitution rules refer to. *)
Variable h0 : store.
Hypothesis h0_closed : store_closed h0.
Hypothesis repr_frame :
  ∀ ext l, (l < length h0)%nat → repr_ref (h0 ++ ext) l = repr_ref h0 l.
Hypothesis rules_closed : substitutes_below (length h0) self.

Local Abbreviation n := (length h0).
Local Abbreviation based s := (h0 `prefix_of` heap s).

Lemma h0_lookup l : (l < n)%nat → ∃ d, h0 !! l = Some d ∧ dict_below n d.
Proof.
  intros Hl. destruct (lookup_lt_is_Some_2 h0 l Hl) as [d Hd].
  exists d. split; [done|]. by eapply (Forall_lookup_1 _ _ _ _ h0_closed).
Qed.

Lemma based_lookup s l d : based s → h0 !! l = Some d → heap s !! l = Some d.
Proof. intros [x ->] Hl. by apply lookup_app_l_Some. Qed.

Lemma translate_items_uniform table items : ∀ d,
  dict_below n items → dict_below n d →
  ∃ res d', dict_below n d'
    ∧ ∀ s r, heap s !! r = Some d →
        translate_items table r items s = (res, touched r d' s).
Proof.
  induction items as [|[k v] items IH]; intros d Hitems Hd.
  - exists (Ok tt), d. split; [done|]. intros s r Hr. simpl.
    by rewrite (touched_id _ _ _ Hr).
  - apply Forall_cons in Hitems as [Hv Hitems]. simpl in Hv.
    destruct table as [new_name|t].
    { exists (Raise TypeError), d. split; [done|]. intros s r Hr. simpl.
      by rewrite (touched_id _ _ _ Hr). }
    destruct (dict_get k t) as [new_key|] eqn:Hk.
    + destruct (IH (dict_set new_key v d) Hitems (dict_below_set _ _ _ _ Hd Hv))
        as (res & d' & Hd' & Hrun).
      exists res, d'. split; [done|]. intros s r Hr. simpl.
      rewrite (bind_ok _ _ _ _ _ (getitem_ok _ _ s _ Hk)).
      rewrite (bind_ok _ _ _ _ _ (setitem_touched _ _ _ _ _ Hr)).
      rewrite (Hrun _ _ (touched_lookup _ _ _ _ Hr)). by rewrite touched_touched.
    + exists (Raise KeyError), d. split; [done|]. intros s r Hr. simpl.
      unfold bind, getitem. rewrite Hk. simpl. by rewrite (touched_id _ _ _ Hr).
Qed.

Lemma copy_shared_uniform tr items : ∀ d,
  dict_below n items → dict_below n d →
  ∃ res d', dict_below n d'
    ∧ ∀ s r, heap s !! r = Some d →
        copy_shared tr r items s = (res, touched r d' s).
Proof.
  induction items as [|[k v] items IH]; intros d Hitems Hd.
  - exists (Ok tt), d. split; [done|]. intros s r Hr. simpl.
    by rewrite (touched_id _ _ _ Hr).
  - apply Forall_cons in Hitems as [Hv Hitems]. simpl in Hv.
    destruct (is_agent_key k) eqn:Hagent.
    { destruct (IH d Hitems Hd) as (res & d' & Hd' & Hrun).
      exists res, d'. split; [done|]. intros s r Hr. simpl. rewrite Hagent.
      unfold bind at 1. unfold ret. by apply Hrun. }
    destruct (dict_get k tr) as [[new_key|table]|] eqn:Hk.
    + destruct (IH (dict_set new_key v d) Hitems (dict_below_set _ _ _ _ Hd Hv))
        as (res & d' & Hd' & Hrun).
      exists res, d'. split; [done|]. intros s r Hr. simpl. rewrite Hagent.
      unfold shared_name.
      unfold bind at 1 2 3. unfold getitem. rewrite Hk. unfold ret.
      rewrite (setitem_touched _ _ _ _ _ Hr).
      rewrite (Hrun _ _ (touched_lookup _ _ _ _ Hr)). by rewrite touched_touched.
    + exists (Raise TypeError), d. split; [done|]. intros s r Hr. simpl.
      rewrite Hagent. unfold shared_name, bind, getitem. rewrite Hk. simpl.
      by rewrite (touched_id _ _ _ Hr).
    + exists (Raise KeyError), d. split; [done|]. intros s r Hr. simpl.
      rewrite Hagent. unfold shared_name, bind, getitem. rewrite Hk. simpl.
      by rewrite (touched_id _ _ _ Hr).
Qed.

Lemma translate_agent_uniform table sub d :
  val_below n sub → dict_below n d →
  ∃ res d', dict_below n d'
    ∧ ∀ s r, based s → heap s !! r = Some d →
        translate_agent table r sub s = (res, touched r d' s).
Proof.
  intros Hsub Hd.
  destruct sub as [|b|z|[|c str]|l]; simpl;
    try (exists (Raise TypeError), d; split; [done|]; intros s r _ Hr;
         by rewrite (touched_id _ _ _ Hr)).
  - exists (Ok tt), d. split; [done|]. intros s r _ Hr.
    by rewrite (touched_id _ _ _ Hr).
  - destruct table as [new_name|t]; simpl.
    + exists (Raise TypeError), d. split; [done|]. intros s r _ Hr.
      by rewrite (touched_id _ _ _ Hr).
    + unfold bind, getitem. destruct (dict_get _ t) as [new_key|]; simpl.
      * exists (Raise TypeError), d. split; [done|]. intros s r _ Hr.
        by rewrite (touched_id _ _ _ Hr).
      * exists (Raise KeyError), d. split; [done|]. intros s r _ Hr.
        by rewrite (touched_id _ _ _ Hr).
  - simpl in Hsub. destruct (h0_lookup l Hsub) as (items & Hl & Hitems).
    destruct (translate_items_uniform table items d Hitems Hd)
      as (res & d' & Hd' & Hrun).
    exists res, d'. split; [done|]. intros s r Hs Hr.
    rewrite (bind_ok _ _ _ _ _ (getobj_ok _ _ _ (based_lookup _ _ _ Hs Hl))).
    by apply Hrun.
Qed.

Lemma get_agent_record_uniform agent dual_record :
  (dual_record < n)%nat →
  ∃ (res : result unit) (ds : list dict),
    Forall (dict_below n) ds
    ∧ (res = Ok tt → length ds = 1%nat)
    ∧ ∀ s, based s →
        _get_agent_record self agent dual_record s
        = (result_map (fun _ => length (heap s)) res, set_heap (heap s ++ ds) s).
Proof.
  intros Hlt. destruct (h0_lookup _ Hlt) as (dual & Hdual & Hdualb).
  assert (Hnil : ∀ s, set_heap (heap s ++ []) s = s).
  { intros s. rewrite app_nil_r. apply set_heap_id. }
  destruct (dict_get agent (_field_translations self)) as [table|] eqn:Htable.
  2:{ exists (Raise KeyError), []. split; [constructor|]. split; [done|].
      intros s Hs. rewrite Hnil. unfold _get_agent_record.
      apply bind_raise. unfold getitem. by rewrite Htable. }
  destruct (dict_get agent dual) as [sub|] eqn:Hsub.
  2:{ exists (Raise KeyError), []. split; [constructor|]. split; [done|].
      intros s Hs. rewrite Hnil. unfold _get_agent_record.
      rewrite (bind_ok _ _ _ _ _ (getitem_ok _ _ s _ Htable)).
      rewrite (bind_ok _ _ _ _ _ (getobj_ok _ _ _ (based_lookup _ _ _ Hs Hdual))).
      apply bind_raise. unfold getitem. by rewrite Hsub. }
  assert (Stage1 : ∀ s, based s →
    _get_agent_record self agent dual_record s
    = (translate_agent table (length (heap s)) sub ;;;
       dual <- getobj dual_record ;;
       copy_shared (_field_translations self) (length (heap s)) dual ;;;
       agent_field_value_mask <- getitem agent (_field_value_masks self) ;;
       mask_fields (length (heap s)) (elements agent_field_value_mask) ;;;
       ret (length (heap s))) (set_heap (heap s ++ [[]]) s)).
  { intros s Hs. unfold _get_agent_record.
    rewrite (bind_ok _ _ _ _ _ (getitem_ok _ _ s _ Htable)).
    rewrite (bind_ok _ _ _ _ _ (getobj_ok _ _ _ (based_lookup _ _ _ Hs Hdual))).
    rewrite (bind_ok _ _ _ _ _ (getitem_ok _ _ s _ Hsub)).
    reflexivity. }
  assert (Hbased1 : ∀ s d, based s → based (set_heap (heap s ++ [d]) s)).
  { intros s d [x Hx]. exists (x ++ [d]). simpl. by rewrite Hx, app_assoc. }
  destruct (translate_agent_uniform table sub []
              (dict_below_get _ _ _ _ Hdualb Hsub) (dict_below_nil _))
    as (res1 & d1 & Hd1 & Hta).
  assert (Hta' : ∀ s, based s →
    translate_agent table (length (heap s)) sub (set_heap (heap s ++ [[]]) s)
    = (res1, set_heap (heap s ++ [d1]) s)).
  { intros s Hs.
    rewrite (Hta _ _ (Hbased1 _ [] Hs) (new_dict_lookup [] s)).
    f_equal. apply touched_new. }
  destruct res1 as [[]|e].
  2:{ exists (Raise e), [d1]. split; [by repeat constructor|]. split; [done|].
      intros s Hs. rewrite (Stage1 _ Hs). apply bind_raise, Hta', Hs. }
  destruct (copy_shared_uniform (_field_translations self) dual d1 Hdualb Hd1)
    as (res2 & d2 & Hd2 & Hcs).
  assert (Hcs' : ∀ s, based s →
    copy_shared (_field_translations self) (length (heap s)) dual
      (set_heap (heap s ++ [d1]) s)
    = (res2, set_heap (heap s ++ [d2]) s)).
  { intros s Hs. rewrite (Hcs _ _ (new_dict_lookup d1 s)).
    f_equal. apply touched_new. }
  assert (Stage2 : ∀ s, based s →
    _get_agent_record self agent dual_record s
    = (copy_shared (_field_translations self) (length (heap s)) dual ;;;
       agent_field_value_mask <- getitem agent (_field_value_masks self) ;;
       mask_fields (length (heap s)) (elements agent_field_value_mask) ;;;
       ret (length (heap s))) (set_heap (heap s ++ [d1]) s)).
  { intros s Hs. rewrite (Stage1 _ Hs).
    rewrite (bind_ok _ _ _ _ _ (Hta' _ Hs)).
    rewrite (bind_ok _ _ _ _ _
               (getobj_ok _ _ _ (based_lookup _ _ _ (Hbased1 _ d1 Hs) Hdual))).
    reflexivity. }
  destruct res2 as [[]|e].
  2:{ exists (Raise e), [d2]. split; [by repeat constructor|]. split; [done|].
      intros s Hs. rewrite (Stage2 _ Hs). apply bind_raise, Hcs', Hs. }
  destruct (dict_get agent (_field_value_masks self)) as [mask|] eqn:Hmask.
  2:{ exists (Raise KeyError), [d2]. split; [by repeat constructor|]. split; [done|].
      intros s Hs. rewrite (Stage2 _ Hs).
      rewrite (bind_ok _ _ _ _ _ (Hcs' _ Hs)).
      apply bind_raise. unfold getitem. by rewrite Hmask. }
  exists (Ok tt), [spec_mask (elements mask) d2].
  split; [by repeat constructor; apply spec_mask_below|]. split; [done|].
  intros s Hs. rewrite (Stage2 _ Hs).
  rewrite (bind_ok _ _ _ _ _ (Hcs' _ Hs)).
  rewrite (bind_ok _ _ _ _ _ (getitem_ok _ _ _ _ Hmask)).
  rewrite (bind_ok _ _ _ _ _
             (mask_fields_ok _ (elements mask) _ _ (new_dict_lookup d2 s))).
  unfold ret. simpl. f_equal. apply touched_new.
Qed.

Lemma append_agent_record_uniform agent dual_record :
  (dual_record < n)%nat →
  ∃ (res : result bool) (ds : list dict),
    Forall (dict_below n) ds
    ∧ (∀ b : bool, res = Ok b → length ds = if b then 1%nat else 0%nat)
    ∧ ∀ s records, based s →
        append_agent_record self agent dual_record records s
        = (result_map
             (fun b : bool => if b then records ++ [length (heap s)] else records)
             res,
           set_heap (heap s ++ ds) s).
Proof.
  intros Hlt. destruct (h0_lookup _ Hlt) as (dual & Hdual & _).
  destruct (dict_mem agent dual) eqn:Hmem.
  - destruct (get_agent_record_uniform agent dual_record Hlt)
      as (res & ds & Hds & Hlen & Hrun).
    destruct res as [[]|e].
    + exists (Ok true), ds. split; [done|]. split; [by intros b [= <-]; apply Hlen|].
      intros s records Hs. unfold append_agent_record.
      rewrite (bind_ok _ _ _ _ _ (getobj_ok _ _ _ (based_lookup _ _ _ Hs Hdual))).
      rewrite Hmem. by rewrite (bind_ok _ _ _ _ _ (Hrun s Hs)).
    + exists (Raise e), ds. split; [done|]. split; [done|].
      intros s records Hs. unfold append_agent_record.
      rewrite (bind_ok _ _ _ _ _ (getobj_ok _ _ _ (based_lookup _ _ _ Hs Hdual))).
      rewrite Hmem. by rewrite (bind_raise _ _ _ _ _ (Hrun s Hs)).
  - exists (Ok false), []. split; [constructor|]. split; [by intros b [= <-]|].
    intros s records Hs. unfold append_agent_record.
    rewrite (bind_ok _ _ _ _ _ (getobj_ok _ _ _ (based_lookup _ _ _ Hs Hdual))).
    rewrite Hmem, app_nil_r, set_heap_id. done.
Qed.

Lemma based_alloc s ds : based s → based (set_heap (heap s ++ ds) s).
Proof. intros [x Hx]. exists (x ++ ds). simpl. by rewrite Hx, app_assoc. Qed.

Lemma get_records_uniform dual_record :
  (dual_record < n)%nat →
  ∃ (res : result nat) (ds : list dict) (lgs : list log_entry),
    Forall (dict_below n) ds
    ∧ (∀ k, res = Ok k → k = length ds)
    ∧ ∀ s, based s →
        _get_records format_exc self dual_record s
        = (result_map (seq (length (heap s))) res,
           JobState (heap s ++ ds) (log s ++ lgs) (written s)).
Proof.
  intros Hlt.
  destruct (append_agent_record_uniform "client" dual_record Hlt)
    as (res1 & ds1 & Hds1 & Hlen1 & Hrun1).
  destruct (append_agent_record_uniform "producer" dual_record Hlt)
    as (res2 & ds2 & Hds2 & Hlen2 & Hrun2).
  destruct res1 as [b1|e].
  2:{ eexists (Raise e), ds1, [_]. split; [done|]. split; [done|].
      intros s Hs. unfold _get_records, try_log.
      rewrite (bind_raise _ _ _ _ _ (Hrun1 s [] Hs)). reflexivity. }
  destruct res2 as [b2|e].
  2:{ eexists (Raise e), (ds1 ++ ds2), [_].
      split; [by apply Forall_app|]. split; [done|].
      intros s Hs. unfold _get_records, try_log.
      rewrite (bind_ok _ _ _ _ _ (Hrun1 s [] Hs)).
      rewrite (Hrun2 _ _ (based_alloc _ ds1 Hs)).
      simpl. unfold add_log, set_heap. simpl. by rewrite app_assoc. }
  exists (Ok (length (ds1 ++ ds2))), (ds1 ++ ds2), [].
  split; [by apply Forall_app|]. split; [by intros k [= <-]|].
  intros s Hs. unfold _get_records, try_log.
  rewrite (bind_ok _ _ _ _ _ (Hrun1 s [] Hs)).
  rewrite (Hrun2 _ _ (based_alloc _ ds1 Hs)).
  specialize (Hlen1 b1 eq_refl). specialize (Hlen2 b2 eq_refl).
  simpl. rewrite !length_app, app_nil_r, Hlen1, Hlen2.
  unfold set_heap. simpl. rewrite app_assoc. f_equal.
  destruct b1, b2; simpl; rewrite ?Nat.add_0_r; try done.
  do 3 f_equal. lia.
Qed.

Lemma get_records_over dual_record t :
  (dual_record < n)%nat →
  ∃ (res : result (list nat)) t',
    (∀ records, res = Ok records → Forall (closed_record n (heap t')) records)
    ∧ written t' = written t
    ∧ ∀ s0, based s0 →
        _get_records format_exc self dual_record (over s0 t)
        = (result_map (fmap (new_loc s0)) res, over s0 t').
Proof.
  intros Hlt.
  destruct (get_records_uniform dual_record Hlt) as (res & ds & lgs & Hds & Hlen & Hrun).
  exists (result_map (seq (length (heap t))) res),
         (JobState (heap t ++ ds) (log t ++ lgs) (written t)).
  split; [|split; [done|]].
  - intros records Hres. destruct res as [k|e]; [|done].
    injection Hres as <-. rewrite (Hlen k eq_refl). simpl.
    apply Forall_forall. intros i [Hi1 Hi2]%elem_of_seq.
    destruct (lookup_lt_is_Some_2 ds (i - length (heap t))) as [d Hd]; [lia|].
    exists d. split.
    + rewrite lookup_app_r by lia. done.
    + by eapply (Forall_lookup_1 _ _ _ _ Hds).
  - intros s0 Hs0. rewrite (Hrun _ (over_prefix _ _ t Hs0)). f_equal.
    + destruct res as [k|e]; [|done]. simpl. f_equal.
      rewrite length_app. unfold new_loc.
      by rewrite <- fmap_add_seq.
    + unfold over. simpl. by rewrite <- !app_assoc.
Qed.

Lemma py_str_based s v :
  based s → val_below n v → py_str repr_ref (heap s) v = py_str repr_ref h0 v.
Proof.
  intros [x Hx] Hv. destruct v as [|b|z|str|l]; simpl; try done.
  rewrite Hx. rewrite (repr_frame x l Hv). done.
Qed.

Lemma matches_based s d conds :
  based s → dict_below n d →
  _record_matches_conditions repr_ref (heap s) d conds
  = _record_matches_conditions repr_ref h0 d conds.
Proof.
  intros Hs Hd. induction conds as [|[field pat] conds IH]; simpl; [done|].
  destruct (dict_get field d) as [v|] eqn:Hv; [|done].
  by rewrite (py_str_based _ _ Hs (dict_below_get _ _ _ _ Hd Hv)), IH.
Qed.

Lemma record_matches_over t i d conds s0 :
  heap t !! i = Some d → dict_below n d → based s0 →
  record_matches repr_ref (new_loc s0 i) conds (over s0 t)
  = (Ok (_record_matches_conditions repr_ref h0 d conds), over s0 t).
Proof.
  intros Hi Hd Hs0. unfold record_matches.
  rewrite over_lookup_new, Hi.
  by rewrite (matches_based _ _ _ (over_prefix _ _ t Hs0) Hd).
Qed.

Lemma should_be_hidden_over t i :
  closed_record n (heap t) i →
  ∃ hidden, ∀ s0, based s0 →
    _should_be_hidden repr_ref format_exc self (new_loc s0 i) (over s0 t)
    = (Ok hidden, over s0 t).
Proof.
  intros (d & Hi & Hd).
  exists (existsb (_record_matches_conditions repr_ref h0 d) (_hiding_rules self)).
  intros s0 Hs0. unfold _should_be_hidden, try_log.
  induction (_hiding_rules self) as [|conds rules IH]; simpl; [done|].
  rewrite (bind_ok _ _ _ _ _ (record_matches_over _ _ _ conds _ Hi Hd Hs0)).
  destruct (_record_matches_conditions repr_ref h0 d conds); [done | apply IH].
Qed.

Lemma apply_substitutes_uniform subs : ∀ d,
  Forall (fun sub => ∀ v, value sub = Some v → val_below n v) subs →
  dict_below n d →
  ∃ (res : result unit) d', dict_below n d'
    ∧ ∀ s l, heap s !! l = Some d →
        apply_substitutes l subs s = (res, touched l d' s).
Proof.
  induction subs as [|sub subs IH]; intros d Hsubs Hd.
  - exists (Ok tt), d. split; [done|]. intros s l Hl. simpl.
    by rewrite (touched_id _ _ _ Hl).
  - apply Forall_cons in Hsubs as [Hsub Hsubs].
    destruct (value sub) as [v|] eqn:Hv.
    2:{ exists (Raise KeyError), d. split; [done|]. intros s l Hl. simpl.
        rewrite Hv. simpl. by rewrite (touched_id _ _ _ Hl). }
    destruct (feature sub) as [f|] eqn:Hf.
    2:{ exists (Raise KeyError), d. split; [done|]. intros s l Hl. simpl.
        rewrite Hv, Hf. simpl. by rewrite (touched_id _ _ _ Hl). }
    destruct (IH (dict_set f v d) Hsubs
                (dict_below_set _ _ _ _ Hd (Hsub v eq_refl)))
      as (res & d' & Hd' & Hrun).
    exists res, d'. split; [done|]. intros s l Hl. simpl.
    rewrite Hv, Hf. simpl. unfold bind at 1 2. unfold ret.
    rewrite (bind_ok _ _ _ _ _ (setitem_touched _ _ _ _ _ Hl)).
    rewrite (Hrun _ _ (touched_lookup _ _ _ _ Hl)). by rewrite touched_touched.
Qed.

Lemma apply_rules_over rules : ∀ t i d,
  Forall (fun rule =>
            Forall (fun sub => ∀ v, value sub = Some v → val_below n v)
              (substitutes rule))
    rules →
  heap t !! i = Some d → dict_below n d →
  ∃ (res : result unit) d', dict_below n d'
    ∧ ∀ s0, based s0 →
        apply_rules repr_ref (new_loc s0 i) rules (over s0 t)
        = (res, over s0 (touched i d' t)).
Proof.
  induction rules as [|rule rules IH]; intros t i d Hrules Hi Hd.
  - exists (Ok tt), d. split; [done|]. intros s0 _. simpl.
    by rewrite (touched_id _ _ _ Hi).
  - apply Forall_cons in Hrules as [Hrule Hrules].
    destruct (_record_matches_conditions repr_ref h0 d (conditions rule)) eqn:Hm.
    + destruct (apply_substitutes_uniform _ d Hrule Hd) as (res1 & d1 & Hd1 & Hsubs).
      destruct res1 as [[]|e].
      * destruct (IH (touched i d1 t) i d1 Hrules (touched_lookup _ _ _ _ Hi) Hd1)
          as (res & d' & Hd' & Hrun).
        exists res, d'. split; [done|]. intros s0 Hs0. simpl.
        rewrite (bind_ok _ _ _ _ _ (record_matches_over _ _ _ _ _ Hi Hd Hs0)), Hm.
        assert (Hl : heap (over s0 t) !! new_loc s0 i = Some d)
          by by rewrite over_lookup_new.
        rewrite (bind_ok _ _ _ _ _ (Hsubs _ _ Hl)), over_touched.
        rewrite (Hrun _ Hs0). by rewrite touched_touched.
      * exists (Raise e), d1. split; [done|]. intros s0 Hs0. simpl.
        rewrite (bind_ok _ _ _ _ _ (record_matches_over _ _ _ _ _ Hi Hd Hs0)), Hm.
        assert (Hl : heap (over s0 t) !! new_loc s0 i = Some d)
          by by rewrite over_lookup_new.
        by rewrite (bind_raise _ _ _ _ _ (Hsubs _ _ Hl)), over_touched.
    + destruct (IH t i d Hrules Hi Hd) as (res & d' & Hd' & Hrun).
      exists res, d'. split; [done|]. intros s0 Hs0. simpl.
      rewrite (bind_ok _ _ _ _ _ (record_matches_over _ _ _ _ _ Hi Hd Hs0)), Hm.
      unfold bind at 1. unfold ret. by apply Hrun.
Qed.

(** [_substitute] on a closed record: it returns the record, or raises and
    logs, the same way from every state that extends [h0]. *)
Lemma substitute_over t i d :
  heap t !! i = Some d → dict_below n d →
  ∃ d', dict_below n d'
    ∧ ((∀ s0, based s0 →
          _substitute repr_ref format_exc self (new_loc s0 i) (over s0 t)
          = (Ok (new_loc s0 i), over s0 (touched i d' t)))
       ∨ ∃ e t', written t' = written t
           ∧ ∀ s0, based s0 →
               _substitute repr_ref format_exc self (new_loc s0 i) (over s0 t)
               = (Raise e, over s0 t')).
Proof.
  intros Hi Hd.
  destruct (apply_rules_over _ t i d rules_closed Hi Hd) as (res & d' & Hd' & Hrun).
  exists d'. split; [done|]. destruct res as [[]|e].
  - left. intros s0 Hs0. unfold _substitute, try_log.
    by rewrite (bind_ok _ _ _ _ _ (Hrun _ Hs0)).
  - right. eexists e, (add_log _ (touched i d' t)). split; [done|].
    intros s0 Hs0. unfold _substitute, try_log.
    rewrite (bind_raise _ _ _ _ _ (Hrun _ Hs0)). by rewrite over_add_log.
Qed.

Lemma apply_transformers_over ts : ∀ t i,
  ∃ (res : result nat) (ds : list dict),
    ∀ s0,
      apply_transformers ts (new_loc s0 i) (over s0 t)
      = (result_map (new_loc s0) res, over s0 (set_heap (heap t ++ ds) t)).
Proof.
  induction ts as [|transformer ts IH]; intros t i.
  - exists (Ok i), []. intros s0. simpl. by rewrite app_nil_r, set_heap_id.
  - destruct (heap t !! i) as [d|] eqn:Hi.
    2:{ exists (Raise BadReference), []. intros s0. simpl.
        rewrite app_nil_r, set_heap_id. apply bind_raise.
        unfold getobj. by rewrite over_lookup_new, Hi. }
    assert (Hget : ∀ s0, getobj (new_loc s0 i) (over s0 t) = (Ok d, over s0 t)).
    { intros s0. apply getobj_ok. by rewrite over_lookup_new. }
    destruct (transformer d) as [d'|e] eqn:Htr.
    2:{ exists (Raise e), []. intros s0. simpl.
        rewrite app_nil_r, set_heap_id.
        by rewrite (bind_ok _ _ _ _ _ (Hget s0)), Htr. }
    destruct (IH (set_heap (heap t ++ [d']) t) (length (heap t))) as (res & ds & Hrun).
    exists res, (d' :: ds). intros s0. simpl.
    rewrite (bind_ok _ _ _ _ _ (Hget s0)), Htr.
    unfold bind, new_dict. rewrite over_alloc, over_length, (Hrun s0).
    do 2 f_equal. unfold set_heap. simpl. by rewrite <- app_assoc.
Qed.

Lemma process_records_over records : ∀ processed t,
  Forall (closed_record n (heap t)) records →
  ∃ (res : result (list nat)) t',
    written t' = written t
    ∧ ∀ s0, based s0 →
        process_records repr_ref format_exc self
          (new_loc s0 <$> records) (new_loc s0 <$> processed) (over s0 t)
        = (result_map (fmap (new_loc s0)) res, over s0 t').
Proof.
  induction records as [|i records IH]; intros processed t Hrecords.
  - exists (Ok processed), t. split; [done|]. by intros s0 _.
  - apply Forall_cons in Hrecords as [Hi Hrecords].
    destruct (should_be_hidden_over t i Hi) as (hidden & Hhidden).
    destruct hidden.
    { destruct (IH processed t Hrecords) as (res & t' & Hw & Hrun).
      exists res, t'. split; [done|]. intros s0 Hs0. rewrite fmap_cons. simpl.
      rewrite (bind_ok _ _ _ _ _ (Hhidden _ Hs0)). by apply Hrun. }
    destruct Hi as (d & Hi & Hd).
    destruct (substitute_over t i d Hi Hd) as (d' & Hd' & [Hsub|Hsub]).
    2:{ destruct Hsub as (e & t' & Hw & Hsub).
        exists (Raise e), t'. split; [done|]. intros s0 Hs0.
        rewrite fmap_cons. simpl.
        rewrite (bind_ok _ _ _ _ _ (Hhidden _ Hs0)).
        by rewrite (bind_raise _ _ _ _ _ (Hsub _ Hs0)). }
    destruct (apply_transformers_over (_transformers self) (touched i d' t) i)
      as (res1 & ds & Htr).
    destruct res1 as [j|e].
    + destruct (IH (processed ++ [j])
                  (set_heap (heap (touched i d' t) ++ ds) (touched i d' t)))
        as (res & t' & Hw & Hrun).
      { eapply Forall_impl; [exact Hrecords|]. intros k Hk. simpl.
        by apply closed_record_app, closed_record_touched. }
      exists res, t'. split; [done|]. intros s0 Hs0. rewrite fmap_cons. simpl.
      rewrite (bind_ok _ _ _ _ _ (Hhidden _ Hs0)).
      rewrite (bind_ok _ _ _ _ _ (Hsub _ Hs0)).
      rewrite (bind_ok _ _ _ _ _ (Htr s0)).
      rewrite <- (Hrun _ Hs0). by rewrite fmap_app.
    + exists (Raise e), (set_heap (heap (touched i d' t) ++ ds) (touched i d' t)).
      split; [done|]. intros s0 Hs0. rewrite fmap_cons. simpl.
      rewrite (bind_ok _ _ _ _ _ (Hhidden _ Hs0)).
      rewrite (bind_ok _ _ _ _ _ (Hsub _ Hs0)).
      by rewrite (bind_raise _ _ _ _ _ (Htr s0)).
Qed.

Lemma process_dual_records_over dual_records :
  Forall (fun l => (l < n)%nat) dual_records →
  ∀ processed t,
  ∃ (res : result (list nat)) t',
    written t' = written t
    ∧ ∀ s0, based s0 →
        process_dual_records repr_ref format_exc self
          dual_records (new_loc s0 <$> processed) (over s0 t)
        = (result_map (fmap (new_loc s0)) res, over s0 t').
Proof.
  induction dual_records as [|dual_record dual_records IH];
    intros Hduals processed t.
  - exists (Ok processed), t. split; [done|]. by intros s0 _.
  - apply Forall_cons in Hduals as [Hdual Hduals].
    destruct (get_records_over dual_record t Hdual) as (res1 & t1 & Hclosed & Hw1 & Hget).
    destruct res1 as [records|e].
    2:{ exists (Raise e), t1. split; [done|]. intros s0 Hs0. simpl.
        by rewrite (bind_raise _ _ _ _ _ (Hget _ Hs0)). }
    destruct (process_records_over records processed t1 (Hclosed _ eq_refl))
      as (res2 & t2 & Hw2 & Hproc).
    destruct res2 as [processed'|e].
    2:{ exists (Raise e), t2. split; [congruence|]. intros s0 Hs0. simpl.
        rewrite (bind_ok _ _ _ _ _ (Hget _ Hs0)).
        by rewrite (bind_raise _ _ _ _ _ (Hproc _ Hs0)). }
    destruct (IH Hduals processed' t2) as (res & t' & Hw & Hrun).
    exists res, t'. split; [congruence|]. intros s0 Hs0. simpl.
    rewrite (bind_ok _ _ _ _ _ (Hget _ Hs0)).
    rewrite (bind_ok _ _ _ _ _ (Hproc _ Hs0)).
    by apply Hrun.
Qed.

Lemma getobjs_over processed t :
  ∃ res : result (list dict),
    ∀ s0, getobjs (new_loc s0 <$> processed) (over s0 t) = (res, over s0 t).
Proof.
  induction processed as [|p processed (res & IH)].
  - by exists (Ok []).
  - destruct (heap t !! p) as [d|] eqn:Hp.
    + destruct res as [ds|e].
      * exists (Ok (d :: ds)). intros s0. rewrite fmap_cons. simpl.
        assert (Hl : heap (over s0 t) !! new_loc s0 p = Some d)
          by by rewrite over_lookup_new.
        rewrite (bind_ok _ _ _ _ _ (getobj_ok _ _ _ Hl)).
        by rewrite (bind_ok _ _ _ _ _ (IH s0)).
      * exists (Raise e). intros s0. rewrite fmap_cons. simpl.
        assert (Hl : heap (over s0 t) !! new_loc s0 p = Some d)
          by by rewrite over_lookup_new.
        rewrite (bind_ok _ _ _ _ _ (getobj_ok _ _ _ Hl)).
        by rewrite (bind_raise _ _ _ _ _ (IH s0)).
    + exists (Raise BadReference). intros s0. rewrite fmap_cons. simpl.
      apply bind_raise. unfold getobj. by rewrite over_lookup_new, Hp.
Qed.

(** A run from a state that extends [h0] does the same whatever the
    extension is: the same result, the same new objects, log entries and
    batch, after what the state had. *)
Lemma run_over dual_records :
  Forall (fun l => (l < n)%nat) dual_records →
  ∃ (res : result unit) t',
    (res = Ok tt → ∃ batch, written t' = [batch])
    ∧ (is_raise res = true → written t' = [])
    ∧ ∀ s0, based s0 →
        run repr_ref format_exc self dual_records s0 = (res, over s0 t').
Proof.
  intros Hduals.
  destruct (process_dual_records_over dual_records Hduals [] (JobState [] [] []))
    as (res1 & t1 & Hw1 & Hproc).
  assert (Hproc' : ∀ s0, based s0 →
    process_dual_records repr_ref format_exc self dual_records [] s0
    = (result_map (fmap (new_loc s0)) res1, over s0 t1)).
  { intros s0 Hs0. specialize (Hproc s0 Hs0). by rewrite over_empty in Hproc. }
  simpl in Hw1. destruct res1 as [processed|e].
  2:{ eexists (Raise e), (add_log _ t1). split; [done|]. split; [done|].
      intros s0 Hs0. unfold run, try_log.
      rewrite (bind_raise _ _ _ _ _ (Hproc' _ Hs0)).
      by rewrite over_add_log. }
  destruct (getobjs_over processed
              (add_log (LogInfo "AnonymizationJob.run"
                          ("Processing done. Records to write "
                           +:+ str_of_int (Z.of_nat (length processed)) +:+ "."))
                 t1)) as (res2 & Hget).
  destruct res2 as [batch|e].
  2:{ eexists (Raise e), (add_log _ (add_log _ t1)). split; [done|]. split; [done|].
      intros s0 Hs0. unfold run, try_log.
      rewrite (bind_ok _ _ _ _ _ (Hproc' _ Hs0)). simpl.
      unfold bind at 1. unfold log_info. rewrite length_fmap, over_add_log.
      unfold write_records. rewrite (bind_raise _ _ _ _ _ (Hget s0)).
      by rewrite over_add_log. }
  destruct (_writer self batch) as [[]|e] eqn:Hwrite.
  - eexists (Ok tt), (add_written batch (add_log _ t1)).
    split; [intros _; exists batch; simpl; by rewrite Hw1|]. split; [done|].
    intros s0 Hs0. unfold run, try_log.
    rewrite (bind_ok _ _ _ _ _ (Hproc' _ Hs0)). simpl.
    unfold bind at 1. unfold log_info. rewrite length_fmap, over_add_log.
    unfold write_records. rewrite (bind_ok _ _ _ _ _ (Hget s0)), Hwrite.
    by rewrite over_add_written.
  - eexists (Raise e), (add_log _ (add_log _ t1)). split; [done|]. split; [done|].
    intros s0 Hs0. unfold run, try_log.
    rewrite (bind_ok _ _ _ _ _ (Hproc' _ Hs0)). simpl.
    unfold bind at 1. unfold log_info. rewrite length_fmap, over_add_log.
    unfold write_records. rewrite (bind_ok _ _ _ _ _ (Hget s0)), Hwrite.
    unfold raise. by rewrite over_add_log.
Qed.
End RunFacts.

(** C9: running the job twice on the same dual records gives the same
    result and hands the same batch of records, in the same order, to the
    sink, and no object the store held before a run is changed by it: each
    run only adds its own new objects, log entries and batch after what was
    there.  The store the first run starts from is closed under references,
    holds the dual records and whatever the substitution rules refer to, and
    [repr] of its documents does not depend on what is allocated later. *)
Theorem run_twice_same_output repr_ref format_exc self dual_records
    s0 r1 s1 r2 s2 :
  store_closed (heap s0) →
  (∀ ext l, (l < length (heap s0))%nat →
            repr_ref (heap s0 ++ ext) l = repr_ref (heap s0) l) →
  substitutes_below (length (heap s0)) self →
  Forall (fun l => (l < length (heap s0))%nat) dual_records →
  run repr_ref format_exc self dual_records s0 = (r1, s1) →
  run repr_ref format_exc self dual_records s1 = (r2, s2) →
  r2 = r1
  ∧ (∃ new_objects entries batches,
       s1 = JobState (heap s0 ++ new_objects) (log s0 ++ entries)
              (written s0 ++ batches)
       ∧ s2 = JobState (heap s1 ++ new_objects) (log s1 ++ entries)
                (written s1 ++ batches)
       ∧ (r1 = Ok tt → ∃ batch, batches = [batch])
       ∧ (is_raise r1 = true → batches = []))
  ∧ Forall (fun l => heap s1 !! l = heap s0 !! l ∧ heap s2 !! l = heap s0 !! l)
      dual_records.
Proof.
  intros Hclosed Hrepr Hrules Hduals Hrun1 Hrun2.
  destruct (run_over repr_ref format_exc self (heap s0) Hclosed Hrepr Hrules
              dual_records Hduals) as (res & t & Hok & Hraise & Hrun).
  rewrite (Hrun s0) in Hrun1 by done. injection Hrun1 as <- <-.
  rewrite (Hrun (over s0 t)) in Hrun2 by (by apply prefix_app_r).
  injection Hrun2 as <- <-.
  split; [done|]. split.
  - exists (heap t), (log t), (written t). split; [done|]. split; [done|].
    split; [|done]. intros Hres. destruct (Hok Hres) as [batch Hbatch]. eauto.
  - eapply Forall_impl; [exact Hduals|]. intros l Hl. simpl.
    rewrite <- app_assoc. by rewrite !lookup_app_l by done.
Qed.

(** The scenario's dual record, run twice through a job with the mask, the
    hiding rule and the two substitution rules: both runs succeed and write
    the same batch of two records, and the dual record stays as it was. *)
Lemma run_twice_same_output_witness :
  ∃ batch s1 s2,
    run repr_elided traceback_text
      (scenario_job hide_fieldA_1 substitute_twice mask_client_fieldA)
      [0%nat] scenario_state = (Ok tt, s1)
    ∧ run repr_elided traceback_text
        (scenario_job hide_fieldA_1 substitute_twice mask_client_fieldA)
        [0%nat] s1 = (Ok tt, s2)
    ∧ length batch = 2%nat
    ∧ written s1 = [batch]
    ∧ written s2 = [batch; batch]
    ∧ heap s2 !! 0%nat = heap scenario_state !! 0%nat.
Proof.
  pose (job := scenario_job hide_fieldA_1 substitute_twice mask_client_fieldA).
  pose (s1 := (run repr_elided traceback_text job [0%nat] scenario_state).2).
  pose (s2 := (run repr_elided traceback_text job [0%nat] s1).2).
  assert (Hrun1 : run repr_elided traceback_text job [0%nat] scenario_state
                  = (Ok tt, s1)) by (vm_compute; reflexivity).
  assert (Hrun2 : run repr_elided traceback_text job [0%nat] s1 = (Ok tt, s2))
    by (vm_compute; reflexivity).
  assert (Hclosed : store_closed (heap scenario_state)).
  { repeat constructor. }
  assert (Hrepr : ∀ ext l, (l < length (heap scenario_state))%nat →
            repr_elided (heap scenario_state ++ ext) l
            = repr_elided (heap scenario_state) l).
  { reflexivity. }
  assert (Hrules : substitutes_below (length (heap scenario_state)) job).
  { repeat (constructor; [repeat constructor; by intros v [= <-]|]).
    constructor. }
  assert (Hduals : Forall (fun l => (l < length (heap scenario_state))%nat) [0%nat]).
  { repeat constructor. }
  destruct (run_twice_same_output repr_elided traceback_text job [0%nat]
              scenario_state (Ok tt) s1 (Ok tt) s2
              Hclosed Hrepr Hrules Hduals Hrun1 Hrun2)
    as (_ & (new_objects & entries & batches & Hs1 & Hs2 & Hok & _) & Hsame).
  destruct (Hok eq_refl) as [batch ->].
  exists batch, s1, s2. split; [exact Hrun1|]. split; [exact Hrun2|].
  assert (Hw1 : written s1 = [batch]) by (rewrite Hs1; reflexivity).
  split; [|split; [exact Hw1|split]].
  + vm_compute in Hw1. injection Hw1 as <-. reflexivity.
  + rewrite Hs2. simpl. rewrite Hw1. reflexivity.
  + apply Forall_singleton in Hsame as [_ ?]. assumption.
Defined.

(** ** The batching loop, batch by batch *)

Section BatchFacts.
Context {R J : Type}.
Variable job_run : list R -> J -> result unit * J.
Implicit Types (v : locals (R:=R)) (s : anonymizer_state (R:=R) (J:=J)).
Implicit Types (records good batch rest : list (R * timestamp)).

Lemma state_eta s :
  AnonymizerState (last_processed_timestamp s) (unread s) (job s) (logged s) = s.
Proof. by destruct s. Qed.

(** Records that do not fill the buffer are only buffered. *)
Lemma loop_accumulate size log_limit pre : ∀ rest v s,
  unread s = pre ++ rest →
  limit_reached log_limit v = false →
  (pre ≠ [] → len (record_buffer v) + Z.of_nat (length pre) < size) →
  ∃ batch_start,
    loop job_run size log_limit (pre ++ rest) v s
    = loop job_run size log_limit rest
        (Locals (record_buffer v ++ map fst pre) batch_start
           (last_successful_batch_timestamp v) (processed_count v))
        (AnonymizerState
           (List.last (map snd pre) (last_processed_timestamp s)) rest
           (job s) (logged s)).
Proof.
  induction pre as [|[record cursor] pre IH]; intros rest v s Hunread Hlimit Hlen.
  - exists (batch_start_mongodb_timestamp v). simpl. rewrite app_nil_r.
    simpl in Hunread. rewrite <- Hunread, state_eta. by destruct v.
  - simpl. rewrite Hlimit. simpl.
    pose proof (len_app (record_buffer v) record) as Hlen1.
    pose proof (len_nonneg (record_buffer v)).
    destruct (size <=? len (record_buffer v ++ [record])) eqn:Hfull.
    { apply Z.leb_le in Hfull. specialize (Hlen ltac:(done)). simpl in Hlen. lia. }
    match goal with
    | |- context [loop _ _ _ (pre ++ rest) ?v' ?s'] =>
        destruct (IH rest v' s') as (bs & Heq)
    end.
    + done.
    + done.
    + intros _. specialize (Hlen ltac:(done)). simpl. rewrite Hlen1.
      simpl in Hlen. lia.
    + exists bs. rewrite Heq. simpl. rewrite <- app_assoc. simpl.
      do 2 f_equal. destruct pre as [|x pre']; [done|].
      apply last_default_irrelevant.
Qed.

(** One full batch, from an empty buffer: its records are buffered and the
    job is run on them when the last one arrives. *)
Lemma loop_batch size log_limit batch rest v s :
  unread s = batch ++ rest →
  record_buffer v = [] →
  limit_reached log_limit v = false →
  length batch = Z.to_nat (batch_size size) →
  ∃ batch_start,
    loop job_run size log_limit (batch ++ rest) v s
    = let batch_end := List.last (map snd batch) (last_processed_timestamp s) in
      let count := processed_count v + len (map fst batch) in
      match job_run (map fst batch) (job s) with
      | (Raise _, j) =>
          (Returned (processed_count v),
           AnonymizerState (last_successful_batch_timestamp v) rest j
             (logged s ++
              [LogError "failed_anonymizing_record_batch"
                 (failed_batch_message batch_start batch_end
                    (last_successful_batch_timestamp v))]))
      | (Ok _, j) =>
          loop job_run size log_limit rest (Locals [] None batch_end count)
            (AnonymizerState batch_end rest j
               (logged s ++
                [LogInfo "record_batch_anonymized"
                   (anonymized_message count batch_start batch_end)]))
      end.
Proof.
  intros Hunread Hbuf Hlimit Hlen.
  assert (Hbs : (1 ≤ length batch)%nat) by (unfold batch_size in Hlen; lia).
  destruct (exists_last (l:=batch)) as (pre & [record cursor] & ->).
  { intros ->. simpl in Hbs. lia. }
  rewrite length_app in Hlen. simpl in Hlen.
  rewrite <- app_assoc in Hunread. rewrite <- app_assoc. simpl in *.
  destruct (loop_accumulate size log_limit pre ((record, cursor) :: rest) v s
              Hunread Hlimit) as (bstart & ->).
  { intros Hpre. rewrite Hbuf. unfold len, batch_size in *. simpl.
    destruct pre; [done|]. simpl in *. lia. }
  simpl. unfold limit_reached in *. simpl. rewrite Hlimit. simpl.
  rewrite Hbuf. simpl. rewrite !map_app. simpl.
  assert (Hfull : (size <=? len (map fst pre ++ [record])) = true).
  { apply Z.leb_le. unfold len, batch_size in *.
    rewrite length_app, length_map. simpl. lia. }
  rewrite Hfull.
  rewrite !last_last. eexists. reflexivity.
Qed.

Lemma last_app_default {A} (l1 l2 : list A) (d : A) :
  List.last (l1 ++ l2) d = List.last l2 (List.last l1 d).
Proof.
  revert d. induction l1 as [|x l1 IH]; intros d; [done|].
  destruct l1 as [|y l1].
  - simpl. destruct l2; [done|]. apply last_default_irrelevant.
  - change (List.last ((y :: l1) ++ l2) d
            = List.last l2 (List.last (y :: l1) d)). apply IH.
Qed.

Lemma last_cons_default {A} (x : A) (l : list A) (d : A) :
  List.last (x :: l) d = List.last l x.
Proof. destruct l as [|y l]; [done|]. exact (last_default_irrelevant y l d x). Qed.

Lemma loop_propagated size log_limit records : ∀ v s e s',
  unread s = records →
  loop job_run size log_limit records v s = (Propagated e, s') →
  ∃ pulled entries,
    records = pulled ++ unread s'
    ∧ last_processed_timestamp s'
      = List.last (map snd pulled) (last_processed_timestamp s)
    ∧ (log_limit = None → unread s' = [])
    ∧ logged s' = logged s ++ entries
    ∧ Forall (fun entry => ∃ message,
                entry = LogInfo "record_batch_anonymized" message) entries.
Proof.
  assert (Hafter : ∀ v s e s',
    after_loop job_run v s = (Propagated e, s') →
    unread s' = unread s ∧ last_processed_timestamp s' = last_processed_timestamp s
    ∧ logged s' = logged s).
  { intros v s e s' Hrun. unfold after_loop in Hrun.
    destruct (record_buffer v); [done|].
    destruct (job_run _ _) as [[[]|e'] j]; [done|]. by injection Hrun as <- <-. }
  induction records as [|[record cursor] records IH]; intros v s e s' Hunread Hrun.
  - simpl in Hrun. apply Hafter in Hrun as (Hu & Hc & Hl).
    exists [], []. rewrite Hu, Hunread, Hc, Hl. simpl. by rewrite app_nil_r.
  - simpl in Hrun. destruct (limit_reached log_limit v) eqn:Hlimit.
    { apply Hafter in Hrun as (Hu & Hc & Hl). simpl in *.
      exists [(record, cursor)], []. rewrite Hu, Hc, Hl. simpl.
      rewrite app_nil_r. split; [done|]. split; [done|]. split; [|done].
      intros ->. done. }
    simpl in Hrun.
    destruct (size <=? len (record_buffer v ++ [record])).
    + destruct (job_run _ _) as [[[]|e'] j]; [|done].
      apply IH in Hrun as (pulled & entries & Hp & Hc & Hu & Hl & Hall); [|done].
      cbn [last_processed_timestamp logged unread] in Hc, Hl.
      eexists ((record, cursor) :: pulled), (_ :: entries).
      split; [by rewrite Hp|]. split.
      { rewrite Hc. change (map snd ((record, cursor) :: pulled))
          with (cursor :: map snd pulled). by rewrite last_cons_default. }
      split; [done|]. split; [by rewrite Hl, <- app_assoc|].
      constructor; [by eexists | done].
    + apply IH in Hrun as (pulled & entries & Hp & Hc & Hu & Hl & Hall); [|done].
      cbn [last_processed_timestamp logged unread] in Hc, Hl.
      exists ((record, cursor) :: pulled), entries.
      split; [by rewrite Hp|]. split; [|done].
      rewrite Hc. change (map snd ((record, cursor) :: pulled))
        with (cursor :: map snd pulled). by rewrite last_cons_default.
Qed.

(** X4: an exception of a run of the job that leaves [anonymize] is never
    rolled back.  The records pulled so far stay consumed, the cursor stays
    at the last of them, and [anonymize] has logged no error, only the
    batches it committed before; without a limit the reader is exhausted, so
    the exception comes from the last, undersized batch.  (The buffer size
    is read from the settings before the first record is pulled; an
    exception of that statement is not one of the job and is not covered
    here: [anonymize] takes the size as it was read.) *)
Theorem escaped_exception_is_not_rolled_back size log_limit s e s' :
  anonymize job_run size log_limit s = (Propagated e, s') →
  ∃ pulled entries,
    unread s = pulled ++ unread s'
    ∧ last_processed_timestamp s'
      = List.last (map snd pulled) (last_processed_timestamp s)
    ∧ (log_limit = None → unread s' = [])
    ∧ logged s' = logged s ++ entries
    ∧ Forall (fun entry => ∃ message,
                entry = LogInfo "record_batch_anonymized" message) entries.
Proof. unfold anonymize. by apply loop_propagated. Qed.

Lemma last_nonempty_default {A} (l : list A) (d d' : A) :
  l ≠ [] → List.last l d = List.last l d'.
Proof. destruct l; [done|]. intros _. apply last_default_irrelevant. Qed.

Lemma commits_app batches1 batches2 (j : J) :
  commits job_run (batches1 ++ batches2) j
  = match commits job_run batches1 j with
    | Some j1 => commits job_run batches2 j1
    | None => None
    end.
Proof.
  revert j. induction batches1 as [|batch batches1 IH]; intros j; simpl; [done|].
  by destruct (job_run batch j) as [[[]|e] j1].
Qed.

(** Full batches whose runs return are committed one after the other. *)
Lemma loop_good size log_limit good_batches : ∀ rest v s j,
  unread s = concat good_batches ++ rest →
  record_buffer v = [] →
  batch_start_mongodb_timestamp v = None →
  Forall (fun b => length b = Z.to_nat (batch_size size)) good_batches →
  commits job_run (map (map fst) good_batches) (job s) = Some j →
  (∀ limit, log_limit = Some limit →
            processed_count v + Z.of_nat (length (concat good_batches)) ≤ limit) →
  ∃ entries,
    loop job_run size log_limit (concat good_batches ++ rest) v s
    = loop job_run size log_limit rest
        (Locals [] None
           (List.last (map snd (concat good_batches))
              (last_successful_batch_timestamp v))
           (processed_count v + Z.of_nat (length (concat good_batches))))
        (AnonymizerState
           (List.last (map snd (concat good_batches)) (last_processed_timestamp s))
           rest j (logged s ++ entries))
    ∧ length entries = length good_batches
    ∧ Forall (fun entry => ∃ message,
                entry = LogInfo "record_batch_anonymized" message) entries.
Proof.
  induction good_batches as [|batch batches IH];
    intros rest v s j Hunread Hbuf Hstart Hlens Hruns Hlimit.
  - simpl in *. injection Hruns as <-. exists []. split; [|done].
    rewrite !app_nil_r, Z.add_0_r.
    rewrite <- Hunread, state_eta. destruct v; simpl in *. by subst.
  - apply Forall_cons in Hlens as [Hlen Hlens].
    assert (Hbs : (1 ≤ length batch)%nat) by (unfold batch_size in Hlen; lia).
    simpl in Hunread, Hlimit, Hruns. rewrite length_app in Hlimit.
    rewrite <- app_assoc in Hunread.
    change (concat (batch :: batches)) with (batch ++ concat batches).
    rewrite <- app_assoc.
    destruct (loop_batch size log_limit batch (concat batches ++ rest) v s
                Hunread Hbuf) as (bstart & ->); [|done|].
    { unfold limit_reached. destruct log_limit as [limit|]; [|done].
      apply Z.leb_gt. specialize (Hlimit limit eq_refl). lia. }
    destruct (job_run (map fst batch) (job s)) as [[[]|e] j1] eqn:Hrun; [|done].
    cbv zeta.
    match goal with
    | |- context [loop _ _ _ (concat batches ++ rest) ?v' ?s'] =>
        destruct (IH rest v' s' j) as (entries & -> & Hentries & Hinfo)
    end; try done.
    { simpl. intros limit Hl. specialize (Hlimit limit Hl).
      unfold len. rewrite length_map. lia. }
    cbn [processed_count last_successful_batch_timestamp
         last_processed_timestamp logged job] in *.
    eexists (_ :: entries). split; [|split].
    + rewrite !map_app, !last_app_default, length_app.
      assert (Hne : map snd batch ≠ []) by (destruct batch; [simpl in *; lia | done]).
      rewrite (last_nonempty_default (map snd batch)
                 (last_successful_batch_timestamp v) (last_processed_timestamp s) Hne).
      unfold len. rewrite length_map, Nat2Z.inj_add, Z.add_assoc.
      rewrite <- app_assoc. reflexivity.
    + simpl. by rewrite Hentries.
    + constructor; [by eexists | done].
Qed.


(** Every sequence of records is cut this way: full batches, then fewer
    records than a batch holds. *)
Lemma records_cut_into_batches size records :
  ∃ full_batches tail,
    records = concat full_batches ++ tail
    ∧ Forall (fun b => length b = Z.to_nat (batch_size size)) full_batches
    ∧ (length tail < Z.to_nat (batch_size size))%nat.
Proof.
  set (bs := Z.to_nat (batch_size size)).
  assert (Hbs : (1 ≤ bs)%nat) by (unfold bs, batch_size; lia).
  assert (Hcut : ∀ n records, (length records ≤ n)%nat →
    ∃ full_batches tail,
      records = concat full_batches ++ tail
      ∧ Forall (fun b => length b = bs) full_batches
      ∧ (length tail < bs)%nat).
  { clear records. induction n as [|n IH]; intros records Hn.
    - exists [], records. split; [done|]. split; [done|]. lia.
    - destruct (decide (length records < bs)%nat) as [Hshort|Hlong].
      + by exists [], records.
      + destruct (IH (drop bs records)) as (full & tail & Heq & Hfull & Htail).
        { rewrite length_drop. lia. }
        exists (take bs records :: full), tail. split; [|split; [|done]].
        * simpl. rewrite <- app_assoc, <- Heq. by rewrite take_drop.
        * constructor; [|done]. rewrite length_take. lia. }
  by apply (Hcut (length records)).
Qed.

(** X2: with no limit, when the job returns on every batch, every record is
    run exactly once, in the order of the reader.  The records are cut into
    full batches and what is left at the end, shorter than a batch:
    [anonymize] returns the number of records, leaves nothing unread and
    the cursor at the last record, and the job is left as its runs on these
    batches, one after the other, leave it; no run is on an empty
    batch. *)
Theorem every_record_is_run_once size full_batches tail s j :
  unread s = concat full_batches ++ tail →
  Forall (fun b => length b = Z.to_nat (batch_size size)) full_batches →
  (length tail < Z.to_nat (batch_size size))%nat →
  commits job_run
    (map (map fst) (full_batches ++ match tail with [] => [] | _ => [tail] end))
    (job s) = Some j →
  ∃ s',
    anonymize job_run size None s
    = (Returned (Z.of_nat (length (unread s))), s')
    ∧ unread s' = []
    ∧ last_processed_timestamp s'
      = List.last (map snd (unread s)) (last_processed_timestamp s)
    ∧ job s' = j.
Proof.
  intros Hunread Hlens Hlent Hruns. unfold anonymize. rewrite Hunread.
  rewrite map_app, commits_app in Hruns.
  destruct (commits job_run (map (map fst) full_batches) (job s)) as [j1|] eqn:Hfull;
    [|done].
  destruct (loop_good size None full_batches tail
              (Locals [] None (last_processed_timestamp s) 0) s j1)
    as (entries & -> & _); try done.
  match goal with
  | |- context [loop _ _ _ tail ?v' ?s'] =>
      destruct (loop_accumulate size None tail [] v' s') as (bstart & Hacc)
  end.
  { simpl. by rewrite app_nil_r. }
  { done. }
  { intros Hne. simpl. unfold len. simpl.
    destruct tail; [done|]. simpl in *. unfold batch_size in *. lia. }
  rewrite app_nil_r in Hacc. rewrite Hacc. simpl. unfold after_loop. simpl.
  destruct tail as [|[r c] tail].
  - simpl in *. injection Hruns as <-. eexists.
    split; [rewrite app_nil_r; do 2 f_equal; lia|].
    simpl. rewrite !app_nil_r. done.
  - simpl in Hruns |- *.
    destruct (job_run (r :: map fst tail) j1) as [[[]|e] j2]; [|done].
    injection Hruns as <-. eexists. split.
    { do 2 f_equal. rewrite length_app. unfold len. simpl.
      rewrite length_map. lia. }
    simpl. split; [done|]. split; [|done].
    rewrite map_app, last_app_default. simpl.
    apply last_default_irrelevant.
Qed.

(** X3: the record at which the limit stops the run is lost to the run.
    When the limit is the size of the batches committed so far, the next
    record is taken from the reader, the cursor moves past it, and the loop
    ends there: the job is run on the batches before and on nothing else,
    so the record is in no batch, and the count returned is the limit. *)
Theorem limit_drops_the_record_it_stops_at size good_batches record cursor rest s j :
  unread s = concat good_batches ++ (record, cursor) :: rest →
  Forall (fun b => length b = Z.to_nat (batch_size size)) good_batches →
  commits job_run (map (map fst) good_batches) (job s) = Some j →
  ∃ s',
    anonymize job_run size (Some (Z.of_nat (length (concat good_batches)))) s
    = (Returned (Z.of_nat (length (concat good_batches))), s')
    ∧ unread s' = rest
    ∧ last_processed_timestamp s' = cursor
    ∧ job s' = j.
Proof.
  intros Hunread Hlens Hruns. unfold anonymize. rewrite Hunread.
  destruct (loop_good size (Some (Z.of_nat (length (concat good_batches))))
              good_batches ((record, cursor) :: rest)
              (Locals [] None (last_processed_timestamp s) 0) s j)
    as (entries & -> & _); try done.
  { simpl. intros limit [= <-]. lia. }
  simpl. unfold limit_reached. simpl.
  rewrite (proj2 (Z.leb_le _ _)) by lia.
  unfold after_loop. simpl. eexists. split; [reflexivity|]. done.
Qed.
End BatchFacts.


Lemma every_record_is_run_once_witness :
  ∃ s',
    anonymize sink_raises_on_third 2 None
      (AnonymizerState (Some 0)
         [(1%nat, Some 10); (2%nat, Some 20); (4%nat, Some 40)] [] [])
    = (Returned 3, s')
    ∧ unread s' = []
    ∧ last_processed_timestamp s' = Some 40
    ∧ job s' = [[1; 2]; [4]]%nat.
Proof.
  destruct (every_record_is_run_once sink_raises_on_third 2
              [[(1%nat, Some 10); (2%nat, Some 20)]] [(4%nat, Some 40)]
              (AnonymizerState (Some 0)
                 [(1%nat, Some 10); (2%nat, Some 20); (4%nat, Some 40)] [] [])
              [[1; 2]; [4]]%nat)
    as (s' & Hrun & Hunread & Hcursor & Hjob).
  - reflexivity.
  - constructor; [reflexivity | constructor].
  - vm_compute. lia.
  - reflexivity.
  - exists s'. split; [exact Hrun|]. split; [exact Hunread|].
    split; [exact Hcursor | exact Hjob].
Defined.

Lemma limit_drops_the_record_it_stops_at_witness :
  ∃ s',
    anonymize sink_raises_on_third 2 (Some 2)
      (AnonymizerState (Some 0)
         [(1%nat, Some 10); (2%nat, Some 20); (4%nat, Some 40); (5%nat, Some 50)]
         [] [])
    = (Returned 2, s')
    ∧ unread s' = [(5%nat, Some 50)]
    ∧ last_processed_timestamp s' = Some 40
    ∧ job s' = [[1; 2]]%nat.
Proof.
  destruct (limit_drops_the_record_it_stops_at sink_raises_on_third 2
              [[(1%nat, Some 10); (2%nat, Some 20)]] 4%nat (Some 40)
              [(5%nat, Some 50)]
              (AnonymizerState (Some 0)
                 [(1%nat, Some 10); (2%nat, Some 20); (4%nat, Some 40);
                  (5%nat, Some 50)] [] [])
              [[1; 2]]%nat)
    as (s' & Hrun & Hunread & Hcursor & Hjob).
  - reflexivity.
  - constructor; [reflexivity | constructor].
  - reflexivity.
  - exists s'. split; [exact Hrun|]. split; [exact Hunread|].
    split; [exact Hcursor | exact Hjob].
Defined.

Lemma escaped_exception_is_not_rolled_back_witness :
  ∃ pulled,
    [(1%nat, Some 10); (2%nat, Some 20); (3%nat, Some 30)] = pulled ++ []
    ∧ Some 30 = List.last (map snd pulled) (Some 0).
Proof.
  destruct (escaped_exception_is_not_rolled_back sink_raises_on_third 2 None
              (AnonymizerState (Some 0)
                 [(1%nat, Some 10); (2%nat, Some 20); (3%nat, Some 30)] [] [])
              WriterError
              (AnonymizerState (Some 30) [] [[1; 2]%nat]
                 [LogInfo "record_batch_anonymized"
                    (anonymized_message 2 (Some 10) (Some 20))]))
    as (pulled & entries & Hpulled & Hcursor & _).
  - reflexivity.
  - exists pulled. split; [exact Hpulled | exact Hcursor].
Defined.

(** ** RuleCompiler: the two readers of the translation file *)

Lemma add_translation_lines_ok_inv lines : ∀ tr tr',
  add_translation_lines tr lines = Ok tr' →
  Forall (fun line => ∃ original_name new_name,
            split " -> " (strip line) = [original_name; new_name]) lines.
Proof.
  induction lines as [|line lines IH]; intros tr tr' Hrun; [constructor|].
  simpl in Hrun.
  destruct (add_translation_line tr line) as [tr1|e] eqn:Hline; [|done].
  constructor; [|by eapply IH].
  unfold add_translation_line in Hline.
  destruct (split " -> " (strip line)) as [|a [|b [|c l]]]; try done. eauto.
Qed.

(** X5: on a translation file that [_get_field_translations] compiles, the
    allowed fields are the original names of all the lines, in the order of
    the file: no line is left out and each line gives the name left of its
    arrow. *)
Theorem allowed_fields_of_compiled_file lines tr :
  _get_field_translations lines = Ok tr →
  Forall2 (fun line original_name =>
             ∃ new_name, split " -> " (strip line) = [original_name; new_name])
    lines (_get_allowed_fields lines).
Proof.
  unfold _get_field_translations. intros Hrun.
  apply add_translation_lines_ok_inv in Hrun. unfold _get_allowed_fields.
  induction Hrun as [|line lines (o & n & Hsplit) _ IH]; [constructor|].
  rewrite filter_cons. destruct (decide (strip line ≠ EmptyString)) as [_|Hblank].
  - simpl. rewrite Hsplit. constructor; [by exists n | exact IH].
  - apply dec_stable in Hblank. rewrite Hblank in Hsplit. done.
Qed.

(** X6: the two readers of the translation file disagree on blank lines.
    [_get_allowed_fields] skips a line that is empty once stripped, while
    [_get_field_translations] fails on a file that has one, wherever the
    line stands. *)
Theorem blank_line_is_skipped_or_fatal pre line post :
  strip line = EmptyString →
  _get_allowed_fields (pre ++ line :: post) = _get_allowed_fields (pre ++ post)
  ∧ ∃ e, _get_field_translations (pre ++ line :: post) = Raise e.
Proof.
  intros Hblank. split.
  - unfold _get_allowed_fields. rewrite !filter_app, filter_cons.
    by rewrite decide_False by (by intros []).
  - apply add_translation_lines_malformed. by rewrite Hblank.
Qed.

Lemma allowed_fields_of_compiled_file_witness :
  Forall2 (fun line original_name =>
             ∃ new_name, split " -> " (strip line) = [original_name; new_name])
    scenario_lines (_get_allowed_fields scenario_lines).
Proof.
  exact (allowed_fields_of_compiled_file scenario_lines scenario_translations
           eq_refl).
Defined.

Lemma blank_line_is_skipped_or_fatal_witness :
  _get_allowed_fields ["ts -> ts"; "  "; "client.a -> fieldA"]%string
  = _get_allowed_fields ["ts -> ts"; "client.a -> fieldA"]%string
  ∧ ∃ e, _get_field_translations ["ts -> ts"; "  "; "client.a -> fieldA"]%string
         = Raise e.
Proof.
  exact (blank_line_is_skipped_or_fatal ["ts -> ts"%string] "  "
           ["client.a -> fieldA"%string] eq_refl).
Defined.

(** ** RuleCompiler: what a compiled translation table holds *)

Lemma add_translation_line_tables tr line tr1 :
  tables_are_agents tr →
  add_translation_line tr line = Ok tr1 →
  tables_are_agents tr1
  ∧ ∀ original_name new_name p0 p1,
      split " -> " (strip line) = [original_name; new_name] →
      split "." original_name = [p0; p1] →
      p0 = "client"%string ∨ p0 = "producer"%string.
Proof.
  intros Hinv. unfold add_translation_line.
  destruct (split " -> " (strip line)) as [|o [|n [|c l]]]; try done.
  assert (Hother : ∀ parts, split "." o = parts → length parts ≠ 2%nat →
            ∀ original_name new_name p0 p1 : string,
              [o; n] = [original_name; new_name] →
              split "." original_name = [p0; p1] →
              p0 = "client"%string ∨ p0 = "producer"%string).
  { intros parts Hparts Hlen ? ? ? ? [= <- <-] Hp. rewrite Hparts in Hp.
    rewrite Hp in Hlen. simpl in Hlen. congruence. }
  destruct (split "." o) as [|p0 [|p1 [|p2 ps]]] eqn:Hparts.
  - intros [= <-]. split; [done|]. eapply Hother; [reflexivity | simpl; lia].
  - intros [= <-]. split; [|eapply Hother; [reflexivity | simpl; lia]].
    intros k t. rewrite dict_get_set.
    destruct (decide (p0 = k)); [done | apply Hinv].
  - destruct (dict_get p0 tr) as [[|t0]|] eqn:Hp0; try done.
    intros [= <-]. pose proof (Hinv _ _ Hp0) as Hagent. split.
    + intros k t. rewrite dict_get_set.
      destruct (decide (p0 = k)) as [<-|]; [done | apply Hinv].
    + intros ? ? ? ? [= <- <-] Hp. rewrite Hparts in Hp. by injection Hp as <- <-.
  - intros [= <-]. split; [done|]. eapply Hother; [reflexivity | simpl; lia].
Qed.

Lemma empty_translations_tables : tables_are_agents empty_translations.
Proof.
  intros k t. unfold empty_translations. simpl.
  destruct (decide (k = "client"%string)); [by left|].
  destruct (decide (k = "producer"%string)); [by right | done].
Qed.

(** X7: a file that compiles has no dotted original name outside the two
    agents.  A name of two segments is stored in the table of its first
    segment, and only [client] and [producer] have a table, so a line such
    as [x.y -> z] makes the compilation raise. *)
Theorem dotted_names_start_with_an_agent lines tr :
  _get_field_translations lines = Ok tr →
  Forall (fun line =>
            ∀ original_name new_name p0 p1,
              split " -> " (strip line) = [original_name; new_name] →
              split "." original_name = [p0; p1] →
              p0 = "client"%string ∨ p0 = "producer"%string) lines.
Proof.
  unfold _get_field_translations.
  generalize empty_translations_tables. generalize empty_translations.
  induction lines as [|line lines IH]; intros tr0 Hinv Hrun; [constructor|].
  simpl in Hrun.
  destruct (add_translation_line tr0 line) as [tr1|e] eqn:Hline; [|done].
  destruct (add_translation_line_tables _ _ _ Hinv Hline) as [Hinv1 Hthis].
  constructor; [exact Hthis | by eapply IH].
Qed.

Lemma dotted_names_start_with_an_agent_witness :
  Forall (fun line =>
            ∀ original_name new_name p0 p1,
              split " -> " (strip line) = [original_name; new_name] →
              split "." original_name = [p0; p1] →
              p0 = "client"%string ∨ p0 = "producer"%string) scenario_lines.
Proof.
  exact (dotted_names_start_with_an_agent scenario_lines scenario_translations
           eq_refl).
Defined.

Lemma add_translation_lines_app_inv pre : ∀ post tr tr',
  add_translation_lines tr (pre ++ post) = Ok tr' →
  ∃ tr0, add_translation_lines tr pre = Ok tr0
         ∧ add_translation_lines tr0 post = Ok tr'.
Proof.
  induction pre as [|line pre IH]; intros post tr tr' Hrun; simpl in *; [eauto|].
  destruct (add_translation_line tr line); [by apply IH | done].
Qed.

Lemma add_translation_lines_keep (P : translations → Prop) (Q : string → Prop) :
  (∀ tr line tr1, P tr → Q line → add_translation_line tr line = Ok tr1 → P tr1) →
  ∀ lines tr tr',
    P tr → Forall Q lines → add_translation_lines tr lines = Ok tr' → P tr'.
Proof.
  intros Hstep. induction lines as [|line lines IH]; intros tr tr' HP HQ Hrun.
  - simpl in Hrun. by injection Hrun as <-.
  - apply Forall_cons in HQ as [Hline Hlines]. simpl in Hrun.
    destruct (add_translation_line tr line) as [tr1|e] eqn:Hrun1; [|done].
    eapply IH; [|done..]. by eapply Hstep.
Qed.

(** X8: the entry of a name is the new name of the last line that gives
    one.  In a file that compiles, a line [p0 -> n] leaves [p0] translated
    to [n] when no later line has the original name [p0], and a line
    [p0.p1 -> n] leaves [p1] translated to [n] in the table of [p0] when no
    later line has the original name [p0.p1] or [p0]. *)
Theorem last_translation_line_wins pre line post tr original_name new_name :
  _get_field_translations (pre ++ line :: post) = Ok tr →
  split " -> " (strip line) = [original_name; new_name] →
  (∀ p0,
     split "." original_name = [p0] →
     Forall (fun later => ∀ o n, split " -> " (strip later) = [o; n] →
                                 split "." o ≠ [p0]) post →
     dict_get p0 tr = Some (TName new_name))
  ∧ (∀ p0 p1,
       split "." original_name = [p0; p1] →
       Forall (fun later => ∀ o n, split " -> " (strip later) = [o; n] →
                                   split "." o ≠ [p0] ∧ split "." o ≠ [p0; p1])
         post →
       ∃ t, dict_get p0 tr = Some (TTable t) ∧ dict_get p1 t = Some new_name).
Proof.
  unfold _get_field_translations. intros Hrun Hsplit.
  apply add_translation_lines_app_inv in Hrun as (tr0 & _ & Hrun).
  simpl in Hrun.
  destruct (add_translation_line tr0 line) as [tr1|e] eqn:Hline; [|done].
  unfold add_translation_line in Hline. rewrite Hsplit in Hline. split.
  - intros p0 Hparts Hpost. rewrite Hparts in Hline. injection Hline as <-.
    eapply (add_translation_lines_keep
              (fun tr => dict_get p0 tr = Some (TName new_name))
              (fun later => ∀ o n, split " -> " (strip later) = [o; n] →
                                   split "." o ≠ [p0])); [|..|exact Hrun].
    + intros tra later trb HP HQ. unfold add_translation_line.
      destruct (split " -> " (strip later)) as [|o [|n [|c l]]]; try done.
      specialize (HQ o n eq_refl).
      destruct (split "." o) as [|q0 [|q1 [|q2 qs]]].
      * by intros [= <-].
      * intros [= <-]. rewrite dict_get_set_ne; [done|]. by intros ->.
      * destruct (dict_get q0 tra) as [[|t0]|] eqn:Hq0; try done.
        intros [= <-]. rewrite dict_get_set_ne; [done|]. intros ->. congruence.
      * by intros [= <-].
    + apply dict_get_set_eq.
    + exact Hpost.
  - intros p0 p1 Hparts Hpost. rewrite Hparts in Hline.
    destruct (dict_get p0 tr0) as [[|t0]|]; try done. injection Hline as <-.
    eapply (add_translation_lines_keep
              (fun tr => ∃ t, dict_get p0 tr = Some (TTable t)
                              ∧ dict_get p1 t = Some new_name)
              (fun later => ∀ o n, split " -> " (strip later) = [o; n] →
                                   split "." o ≠ [p0] ∧ split "." o ≠ [p0; p1]));
      [|..|exact Hrun].
    + intros tra later trb (t & Ht & Hp1) HQ. unfold add_translation_line.
      destruct (split " -> " (strip later)) as [|o [|n [|c l]]]; try done.
      destruct (HQ o n eq_refl) as [HQ1 HQ2].
      destruct (split "." o) as [|q0 [|q1 [|q2 qs]]].
      * intros [= <-]. eauto.
      * intros [= <-]. exists t. rewrite dict_get_set_ne; [done|]. by intros ->.
      * destruct (dict_get q0 tra) as [[|tq]|] eqn:Hq0; try done.
        intros [= <-]. destruct (decide (q0 = p0)) as [->|Hne].
        -- rewrite Ht in Hq0. injection Hq0 as <-.
           exists (dict_set q1 n t). rewrite dict_get_set_eq. split; [done|].
           rewrite dict_get_set_ne; [done|]. intros ->. by apply HQ2.
        -- exists t. by rewrite dict_get_set_ne.
      * intros [= <-]. eauto.
    + eexists. split; [apply dict_get_set_eq|]. apply dict_get_set_eq.
    + exact Hpost.
Qed.

Lemma last_translation_line_wins_witness :
  ∃ t, dict_get "client"%string
         [("client"%string, TTable [("a", "fieldA")]%string);
          ("producer"%string, TTable []); ("ts"%string, TName "ts")]
       = Some (TTable t)
       ∧ dict_get "a"%string t = Some "fieldA"%string.
Proof.
  apply (proj2 (last_translation_line_wins
                  ["client.a -> old"%string] "client.a -> fieldA"
                  ["ts -> ts"%string] _ "client.a"%string "fieldA"%string
                  eq_refl eq_refl) "client"%string "a"%string eq_refl).
  constructor; [|constructor]. intros o n Hsplit. vm_compute in Hsplit.
  injection Hsplit as <- <-. split; vm_compute; discriminate.
Defined.

(** ** RuleCompiler: the masks *)

Lemma unique_key_value {V} (l : list (string * V)) k v v' :
  NoDup (map fst l) → (k, v) ∈ l → (k, v') ∈ l → v = v'.
Proof.
  induction l as [|[k0 v0] l IH]; intros Hnd Hin Hin'; [by apply elem_of_nil in Hin|].
  simpl in Hnd. apply NoDup_cons in Hnd as [Hk0 Hnd].
  assert (Hfst : ∀ w, (k0, w) ∈ l → False).
  { intros w Hw. apply Hk0. apply list_elem_of_In, in_map_iff.
    exists (k0, w). split; [done | by apply list_elem_of_In]. }
  apply elem_of_cons in Hin as [Heq|Hin];
    apply elem_of_cons in Hin' as [Heq'|Hin']; simplify_eq; try done.
  - by destruct (Hfst v').
  - by destruct (Hfst v).
  - by apply IH.
Qed.

(** X9: when the field names of the metadata file are distinct, as the keys
    of a YAML mapping are, no field is masked for both agents. *)
Theorem field_value_masks_are_disjoint fields m :
  NoDup (map fst fields) →
  _get_field_value_masks fields = Ok m →
  ∀ f, f ∈ mask_of "client" m → f ∈ mask_of "producer" m → False.
Proof.
  intros Hnd Hrun f.
  destruct (add_field_masks_spec fields ∅ ∅) as (c & p & Heq & Hc & Hp).
  unfold _get_field_value_masks, empty_masks in Hrun. rewrite Heq in Hrun.
  injection Hrun as <-. change (mask_of "client" _) with c.
  change (mask_of "producer" _) with p. rewrite Hc, Hp.
  intros [H|(d & Hin & Hd)]; [by apply elem_of_empty in H|].
  intros [H|(d' & a & Hin' & Hd' & Ha)]; [by apply elem_of_empty in H|].
  rewrite (unique_key_value _ _ _ _ Hnd Hin Hin') in Hd. congruence.
Qed.

Lemma field_value_masks_are_disjoint_witness :
  mask_of "client"
    [("client"%string, {["fieldA"%string]} ∪ ∅);
     ("producer"%string, {["fieldB"%string]} ∪ ∅)]
  ∩ mask_of "producer"
      [("client"%string, {["fieldA"%string]} ∪ ∅);
       ("producer"%string, {["fieldB"%string]} ∪ ∅)]
  = ∅.
Proof.
  apply leibniz_equiv, elem_of_equiv_empty.
  intros f [Hclient Hproducer]%elem_of_intersection.
  assert (Hnames : NoDup (map fst
            [("fieldA"%string, [("agent"%string, VStr "producer")]);
             ("fieldB"%string, [("agent"%string, VStr "client")]);
             ("ts"%string, ([] : dict))])).
  { apply (bool_decide_unpack _). vm_compute. exact I. }
  exact (field_value_masks_are_disjoint _ _ Hnames eq_refl f Hclient Hproducer).
Defined.

(** ** The job: rules with no conditions, fields no rule names *)

Section RuleFacts.
Variable repr_ref : store → loc → string.
Variable format_exc : exn → string.
Variable self : AnonymizationJob.

Local Abbreviation _should_be_hidden := (_should_be_hidden repr_ref format_exc self).
Local Abbreviation _substitute := (_substitute repr_ref format_exc self).
Local Abbreviation process_records := (process_records repr_ref format_exc self).
Local Abbreviation apply_rules := (apply_rules repr_ref).

(** X10: a hiding rule with an empty condition list hides every record.
    The loop over its conditions ends without a [break], so the rule
    matches whatever the record holds: no record of the store gets past the
    filter, and nothing is substituted, transformed or changed. *)
Theorem empty_condition_list_hides_everything records processed s :
  [] ∈ _hiding_rules self →
  Forall (fun record => is_Some (heap s !! record)) records →
  Forall (fun record => _should_be_hidden record s = (Ok true, s)) records
  ∧ process_records records processed s = (Ok processed, s).
Proof.
  intros Hin Hrecords.
  assert (Hhidden : ∀ record, is_Some (heap s !! record) →
            _should_be_hidden record s = (Ok true, s)).
  { intros record [d Hd]. rewrite (should_be_hidden_ok _ _ _ _ _ _ Hd).
    do 2 f_equal. apply existsb_exists. exists []. split; [|done].
    by apply list_elem_of_In. }
  split.
  - eapply Forall_impl; [exact Hrecords | exact Hhidden].
  - induction Hrecords as [|record records Hrecord _ IH]; [done|].
    simpl. by rewrite (bind_ok _ _ _ _ _ (Hhidden _ Hrecord)).
Qed.

Lemma apply_substitutes_frame l subs : ∀ s d,
  heap s !! l = Some d →
  ∃ res d', apply_substitutes l subs s = (res, touched l d' s)
    ∧ (res = Ok tt
       ∨ res = Raise KeyError ∧ Exists (fun sub => ¬ has_both_keys sub) subs)
    ∧ (∀ f, substitute_value f subs = None → dict_get f d' = dict_get f d)
    ∧ (∀ f, is_Some (dict_get f d) → is_Some (dict_get f d')).
Proof.
  induction subs as [|sub subs IH]; intros s d Hl; simpl.
  - exists (Ok tt), d. rewrite (touched_id _ _ _ Hl). by split; [|split; [left|]].
  - destruct (value sub) as [v0|] eqn:Hv0.
    2:{ exists (Raise KeyError), d. simpl. rewrite (touched_id _ _ _ Hl).
        split; [done|]. split; [|done]. right. split; [done|]. left.
        intros [_ [v Hv]]. congruence. }
    destruct (feature sub) as [f0|] eqn:Hf0.
    2:{ exists (Raise KeyError), d. simpl. rewrite (touched_id _ _ _ Hl).
        split; [done|]. split; [|done]. right. split; [done|]. left.
        intros [[f Hf] _]. congruence. }
    simpl. unfold bind at 1 2. unfold ret.
    rewrite (bind_ok _ _ _ _ _ (setitem_touched _ _ _ _ _ Hl)).
    destruct (IH _ _ (touched_lookup _ _ (dict_set f0 v0 d) _ Hl))
      as (res & d' & Hrun & Hres & Hsame & Hkeep).
    exists res, d'. rewrite Hrun, touched_touched. split; [done|].
    split; [|split].
    + destruct Hres as [->|[-> Hex]]; [by left|]. right. split; [done|by right].
    + intros f Hnone. destruct (substitute_value f subs) eqn:Hrest; [done|].
      destruct (decide (Some f0 = Some f)) as [Heq|Hne]; [done|].
      rewrite (Hsame f Hrest). rewrite dict_get_set_ne; [done | congruence].
    + intros f Hf. apply Hkeep. rewrite dict_get_set.
      by destruct (decide (f0 = f)).
Qed.

Lemma apply_rules_frame l rules : ∀ s d,
  heap s !! l = Some d →
  ∃ res d', apply_rules l rules s = (res, touched l d' s)
    ∧ (res = Ok tt
       ∨ res = Raise KeyError
         ∧ Exists (fun rule => Exists (fun sub => ¬ has_both_keys sub)
                                 (substitutes rule)) rules)
    ∧ (∀ f, (∀ rule, rule ∈ rules → substitute_value f (substitutes rule) = None) →
            dict_get f d' = dict_get f d)
    ∧ (∀ f, is_Some (dict_get f d) → is_Some (dict_get f d'))
    ∧ (Forall (fun rule =>
                 _record_matches_conditions repr_ref (heap s) d (conditions rule)
                 = false) rules →
       res = Ok tt ∧ d' = d).
Proof.
  induction rules as [|rule rules IH]; intros s d Hl; simpl.
  - exists (Ok tt), d. rewrite (touched_id _ _ _ Hl).
    by split; [|split; [left|]].
  - rewrite (bind_ok _ _ _ _ _ (record_matches_ok _ _ _ _ _ Hl)).
    destruct (_record_matches_conditions repr_ref (heap s) d (conditions rule))
      eqn:Hm.
    + destruct (apply_substitutes_frame l (substitutes rule) s d Hl)
        as (res1 & d1 & Hrun1 & Hres1 & Hsame1 & Hkeep1).
      destruct Hres1 as [->|[-> Hex]].
      * rewrite (bind_ok _ _ _ _ _ Hrun1).
        destruct (IH _ _ (touched_lookup _ _ d1 _ Hl))
          as (res & d' & -> & Hres & Hsame & Hkeep & _).
        exists res, d'. rewrite touched_touched. split; [done|].
        split; [|split; [|split]].
        -- destruct Hres as [->|[-> Hex]]; [by left|]. right. split; [done|by right].
        -- intros f Hnone. rewrite Hsame, Hsame1; [done|..].
           ++ apply Hnone. by left.
           ++ intros r Hr. apply Hnone. by right.
        -- intros f Hf. by apply Hkeep, Hkeep1.
        -- intros Hall. apply Forall_cons in Hall as [Hrule _]. congruence.
      * rewrite (bind_raise _ _ _ _ _ Hrun1).
        exists (Raise KeyError), d1. split; [done|]. split; [|split; [|split]].
        -- right. split; [done|by left].
        -- intros f Hnone. apply Hsame1, Hnone. by left.
        -- done.
        -- intros Hall. apply Forall_cons in Hall as [Hrule _]. congruence.
    + unfold bind at 1. unfold ret.
      destruct (IH _ _ Hl) as (res & d' & -> & Hres & Hsame & Hkeep & Hnomatch).
      exists res, d'. split; [done|]. split; [|split; [|split]].
      * destruct Hres as [->|[-> Hex]]; [by left|]. right. split; [done|by right].
      * intros f Hnone. apply Hsame. intros r Hr. apply Hnone. by right.
      * done.
      * intros Hall. apply Forall_cons in Hall as [_ Hall]. by apply Hnomatch.
Qed.

Lemma both_keys_somewhere_missing (rules : list substitution_rule) :
  Forall (fun rule => Forall has_both_keys (substitutes rule)) rules →
  Exists (fun rule => Exists (fun sub => ¬ has_both_keys sub) (substitutes rule))
    rules →
  False.
Proof.
  intros Hall Hex. apply Exists_exists in Hex as (rule & Hrule & Hsub).
  apply Exists_exists in Hsub as (sub & Hsub & Hnot).
  rewrite Forall_forall in Hall. specialize (Hall rule Hrule).
  rewrite Forall_forall in Hall. by apply Hnot, Hall.
Qed.

(** X11: substitution only overwrites the fields its rules name, and only
    for the rules whose conditions the record meets.  On a record of the
    store, [_substitute] returns the record it was given, or raises
    [KeyError], logged once, when a substitute of the settings lacks its
    ['feature'] or ['value'] key; it returns when every substitute has
    both.  Either way the record keeps every field it had, the fields that
    no rule gives a value keep theirs, and nothing else in the state
    changes: no other object, nothing written.  When the record meets the
    conditions of no rule, it is returned unchanged and nothing is
    logged. *)
Theorem substitute_keeps_other_fields record s d :
  heap s !! record = Some d →
  ∃ d',
    (_substitute record s = (Ok record, touched record d' s)
     ∨ _substitute record s
       = (Raise KeyError,
          add_log (LogError "applying_substitution_rules_failed"
                     (Py.format
                        "Error at applying substitution rules to a record. ERROR: {0}"
                        [format_exc KeyError]))
            (touched record d' s))
       ∧ Exists (fun rule => Exists (fun sub => ¬ has_both_keys sub)
                               (substitutes rule))
           (_substitution_rules self))
    ∧ (Forall (fun rule => Forall has_both_keys (substitutes rule))
         (_substitution_rules self) →
       _substitute record s = (Ok record, touched record d' s))
    ∧ (∀ f, (∀ rule, rule ∈ _substitution_rules self →
                     substitute_value f (substitutes rule) = None) →
            dict_get f d' = dict_get f d)
    ∧ (∀ f, is_Some (dict_get f d) → is_Some (dict_get f d'))
    ∧ (∀ l, l ≠ record → heap (touched record d' s) !! l = heap s !! l)
    ∧ (Forall (fun rule =>
                 _record_matches_conditions repr_ref (heap s) d (conditions rule)
                 = false) (_substitution_rules self) →
       d' = d ∧ _substitute record s = (Ok record, s)).
Proof.
  intros Hl.
  destruct (apply_rules_frame record (_substitution_rules self) s d Hl)
    as (res & d' & Hrun & Hres & Hsame & Hkeep & Hnomatch).
  assert (Hok : res = Ok tt → _substitute record s = (Ok record, touched record d' s)).
  { intros ->. unfold _substitute. apply try_log_ok.
    by rewrite (bind_ok _ _ _ _ _ Hrun). }
  exists d'. split; [|split; [|split; [done|split; [done|split]]]].
  - destruct Hres as [->|[-> Hex]]; [left; by apply Hok|]. right. split; [|done].
    unfold _substitute, try_log. by rewrite (bind_raise _ _ _ _ _ Hrun).
  - intros Hall. destruct Hres as [->|[-> Hex]]; [by apply Hok|].
    by destruct (both_keys_somewhere_missing _ Hall Hex).
  - intros l Hne. by apply touched_lookup_ne.
  - intros Hall. destruct (Hnomatch Hall) as [-> ->]. split; [done|].
    rewrite (Hok eq_refl). by rewrite (touched_id _ _ _ Hl).
Qed.
End RuleFacts.

Lemma empty_condition_list_hides_everything_witness :
  Forall (fun record =>
            _should_be_hidden repr_elided traceback_text
              (scenario_job [[]] [] empty_masks) record scenario_split_state
            = (Ok true, scenario_split_state)) [3; 4]%nat
  ∧ process_records repr_elided traceback_text
      (scenario_job [[]] [] empty_masks) [3; 4]%nat [] scenario_split_state
    = (Ok [], scenario_split_state).
Proof.
  apply (empty_condition_list_hides_everything repr_elided traceback_text
           (scenario_job [[]] [] empty_masks) [3; 4]%nat [] scenario_split_state).
  - by left.
  - repeat constructor; by eexists.
Defined.

(** The two rules of the scenario write [fieldA] only: the record keeps its
    timestamp. *)
Lemma substitute_keeps_other_fields_witness :
  ∃ d',
    _substitute repr_elided traceback_text
      (scenario_job [] substitute_twice empty_masks) 3%nat scenario_split_state
    = (Ok 3%nat, touched 3 d' scenario_split_state)
    ∧ dict_get "ts"%string d' = Some (VInt 100).
Proof.
  destruct (substitute_keeps_other_fields repr_elided traceback_text
              (scenario_job [] substitute_twice empty_masks) 3%nat
              scenario_split_state _ eq_refl)
    as (d' & _ & Hrun & Hsame & _).
  exists d'. split.
  - apply Hrun. repeat constructor; by eexists.
  - rewrite Hsame; [reflexivity|].
    intros rule Hrule. unfold scenario_job, substitute_twice in Hrule.
    simpl in Hrule.
    apply elem_of_cons in Hrule as [->|Hrule]; [reflexivity|].
    apply list_elem_of_singleton in Hrule as ->. reflexivity.
Defined.

(** ** The job: what a run hands to the sink *)

Lemma only_logs_ret {A} (a : A) : only_logs (ret a).
Proof. intros s r s' [= <- <-]. split; [done|]. exists []. by rewrite app_nil_r. Qed.

Lemma only_logs_raise {A} e : only_logs (raise e : M A).
Proof. intros s r s' [= <- <-]. split; [done|]. exists []. by rewrite app_nil_r. Qed.

Lemma only_logs_bind {A B} (m : M A) (k : A → M B) :
  only_logs m → (∀ a, only_logs (k a)) → only_logs (bind m k).
Proof.
  intros Hm Hk s r s'. unfold bind.
  destruct (m s) as [[a|e] s1] eqn:Hrun; destruct (Hm _ _ _ Hrun) as [Hw1 [l1 Hl1]].
  - intros Hrun2. destruct (Hk _ _ _ _ Hrun2) as [Hw2 [l2 Hl2]].
    split; [congruence|]. exists (l1 ++ l2). by rewrite Hl2, Hl1, app_assoc.
  - intros [= <- <-]. split; [done | by exists l1].
Qed.

Lemma only_logs_getitem {V} k (d : list (string * V)) : only_logs (getitem k d).
Proof. unfold getitem. destruct (dict_get k d); [apply only_logs_ret | apply only_logs_raise]. Qed.

Lemma only_logs_getobj l : only_logs (getobj l).
Proof.
  intros s r s'. unfold getobj.
  destruct (heap s !! l); intros [= <- <-]; (split; [done|]); exists [];
    by rewrite app_nil_r.
Qed.

Lemma only_logs_new_dict d : only_logs (new_dict d).
Proof. intros s r s' [= <- <-]. split; [done|]. exists []. simpl. by rewrite app_nil_r. Qed.

Lemma only_logs_setitem l k v : only_logs (setitem l k v).
Proof.
  intros s r s'. unfold setitem.
  destruct (heap s !! l); intros [= <- <-]; (split; [done|]); exists [];
    simpl; by rewrite app_nil_r.
Qed.

Lemma only_logs_log_info tag msg : only_logs (log_info tag msg).
Proof. intros s r s' [= <- <-]. split; [done|]. by eexists. Qed.

Lemma only_logs_try_log {A} format_exc tag template (body : M A) :
  only_logs body → only_logs (try_log format_exc tag template body).
Proof.
  intros Hbody s r s'. unfold try_log.
  destruct (body s) as [[a|e] s1] eqn:Hrun; destruct (Hbody _ _ _ Hrun) as [Hw [l Hl]];
    intros [= <- <-].
  - split; [done | by exists l].
  - split; [done|]. eexists (l ++ [_]). simpl. by rewrite Hl, app_assoc.
Qed.

Lemma only_logs_subscript {A} (item : option A) : only_logs (subscript item).
Proof. destruct item; [apply only_logs_ret | apply only_logs_raise]. Qed.

Ltac only_logs_step :=
  first
    [ apply only_logs_ret | apply only_logs_raise | apply only_logs_getitem
    | apply only_logs_subscript
    | apply only_logs_getobj | apply only_logs_new_dict | apply only_logs_setitem
    | apply only_logs_log_info | apply only_logs_try_log
    | apply only_logs_bind; [|intros ?]
    | assumption
    | match goal with
      | |- only_logs (if ?b then _ else _) => destruct b
      | |- only_logs (match ?x with _ => _ end) => destruct x
      end ].

Ltac only_logs_auto := repeat only_logs_step.

Section RunOutput.
Variable repr_ref : store → loc → string.
Variable format_exc : exn → string.
Variable self : AnonymizationJob.

Lemma only_logs_record_matches record conds :
  only_logs (record_matches repr_ref record conds).
Proof.
  intros s r s'. unfold record_matches.
  destruct (heap s !! record); intros [= <- <-]; (split; [done|]); exists [];
    by rewrite app_nil_r.
Qed.

Lemma only_logs_should_be_hidden record :
  only_logs (_should_be_hidden repr_ref format_exc self record).
Proof.
  unfold _should_be_hidden. apply only_logs_try_log.
  induction (_hiding_rules self) as [|conds rules IH]; simpl.
  - only_logs_auto.
  - apply only_logs_bind; [apply only_logs_record_matches|]. intros []; only_logs_auto.
Qed.

Lemma only_logs_apply_substitutes record subs :
  only_logs (apply_substitutes record subs).
Proof. induction subs as [|sub subs IH]; simpl; only_logs_auto. Qed.

Lemma only_logs_substitute record :
  only_logs (_substitute repr_ref format_exc self record).
Proof.
  unfold _substitute. apply only_logs_try_log.
  apply only_logs_bind; [|intros _; only_logs_auto].
  induction (_substitution_rules self) as [|rule rules IH]; simpl.
  - only_logs_auto.
  - apply only_logs_bind; [apply only_logs_record_matches|]. intros b.
    apply only_logs_bind; [|by intros _].
    destruct b; [apply only_logs_apply_substitutes | only_logs_auto].
Qed.

Lemma only_logs_translate_items table record items :
  only_logs (translate_items table record items).
Proof.
  induction items as [|[k v] items IH]; simpl; [only_logs_auto|].
  apply only_logs_bind; [unfold translate_key; only_logs_auto|].
  intros new_key. only_logs_auto.
Qed.

Lemma only_logs_copy_shared tr record items :
  only_logs (copy_shared tr record items).
Proof.
  induction items as [|[k v] items IH]; simpl; [only_logs_auto|].
  apply only_logs_bind; [|by intros _].
  destruct (is_agent_key k); [only_logs_auto|]. unfold shared_name. only_logs_auto.
Qed.

Lemma only_logs_mask_fields record fields : only_logs (mask_fields record fields).
Proof. induction fields as [|f fields IH]; simpl; only_logs_auto. Qed.

Lemma only_logs_get_agent_record agent dual_record :
  only_logs (_get_agent_record self agent dual_record).
Proof.
  unfold _get_agent_record.
  apply only_logs_bind; [only_logs_auto|]. intros table.
  apply only_logs_bind; [only_logs_auto|]. intros dual.
  apply only_logs_bind; [only_logs_auto|]. intros sub.
  apply only_logs_bind; [only_logs_auto|]. intros record.
  apply only_logs_bind.
  { unfold translate_agent. destruct sub as [| | |[|c str]|l]; only_logs_auto.
    - unfold translate_key. only_logs_auto.
    - apply only_logs_translate_items. }
  intros _. apply only_logs_bind; [only_logs_auto|]. intros dual'.
  apply only_logs_bind; [apply only_logs_copy_shared|]. intros _.
  apply only_logs_bind; [only_logs_auto|]. intros mask.
  apply only_logs_bind; [apply only_logs_mask_fields|]. intros _. only_logs_auto.
Qed.

Lemma only_logs_get_records dual_record :
  only_logs (_get_records format_exc self dual_record).
Proof.
  assert (Happend : ∀ agent records,
            only_logs (append_agent_record self agent dual_record records)).
  { intros agent records. unfold append_agent_record.
    apply only_logs_bind; [only_logs_auto|]. intros dual.
    destruct (dict_mem agent dual); [|only_logs_auto].
    apply only_logs_bind; [apply only_logs_get_agent_record|]. intros record.
    only_logs_auto. }
  unfold _get_records. apply only_logs_try_log.
  apply only_logs_bind; [apply Happend|]. intros records. apply Happend.
Qed.

Lemma only_logs_apply_transformers ts : ∀ record,
  only_logs (apply_transformers ts record).
Proof.
  induction ts as [|transformer ts IH]; intros record; simpl; [only_logs_auto|].
  apply only_logs_bind; [only_logs_auto|]. intros d.
  destruct (transformer d); [|only_logs_auto].
  apply only_logs_bind; [only_logs_auto|]. intros record'. apply IH.
Qed.

Lemma only_logs_process_records records : ∀ processed,
  only_logs (process_records repr_ref format_exc self records processed).
Proof.
  induction records as [|record records IH]; intros processed; simpl;
    [only_logs_auto|].
  apply only_logs_bind; [apply only_logs_should_be_hidden|]. intros [|]; [apply IH|].
  apply only_logs_bind; [apply only_logs_substitute|]. intros record1.
  apply only_logs_bind; [apply only_logs_apply_transformers|]. intros record2.
  apply IH.
Qed.

Lemma only_logs_process_dual_records dual_records : ∀ processed,
  only_logs (process_dual_records repr_ref format_exc self dual_records processed).
Proof.
  induction dual_records as [|dual_record dual_records IH]; intros processed; simpl;
    [only_logs_auto|].
  apply only_logs_bind; [apply only_logs_get_records|]. intros records.
  apply only_logs_bind; [apply only_logs_process_records|]. intros processed'.
  apply IH.
Qed.

Lemma only_logs_getobjs ls : only_logs (getobjs ls).
Proof. induction ls as [|l ls IH]; simpl; only_logs_auto. Qed.
End RunOutput.

Section RunBatch.
Variable repr_ref : store → loc → string.
Variable format_exc : exn → string.
Variable self : AnonymizationJob.

Lemma get_records_length dual_record s records s' :
  _get_records format_exc self dual_record s = (Ok records, s') →
  (length records ≤ 2)%nat.
Proof.
  unfold _get_records. intros Hrun. apply try_log_inv in Hrun.
  apply bind_inv in Hrun as (records1 & s1 & Hc & Hp).
  apply append_agent_record_inv in Hc as (dual & _ & Hc).
  apply append_agent_record_inv in Hp as (dual' & _ & Hp).
  assert (length records1 ≤ 1)%nat as Hlen1.
  { destruct (dict_mem "client" dual).
    - destruct Hc as (_ & _ & _ & -> & _). simpl. lia.
    - destruct Hc as [-> _]. simpl. lia. }
  destruct (dict_mem "producer" dual').
  - destruct Hp as (_ & _ & _ & -> & _). rewrite length_app. simpl. lia.
  - destruct Hp as [-> _]. lia.
Qed.

Lemma process_records_length records : ∀ processed s processed' s',
  process_records repr_ref format_exc self records processed s = (Ok processed', s') →
  (length processed' ≤ length processed + length records)%nat.
Proof.
  induction records as [|record records IH]; intros processed s processed' s' Hrun;
    simpl in Hrun.
  - injection Hrun as <- <-. lia.
  - apply bind_inv in Hrun as (hidden & s1 & _ & Hrun). destruct hidden.
    + apply IH in Hrun. simpl. lia.
    + apply bind_inv in Hrun as (record1 & s2 & _ & Hrun).
      apply bind_inv in Hrun as (record2 & s3 & _ & Hrun).
      apply IH in Hrun. rewrite length_app in Hrun. simpl in *. lia.
Qed.

Lemma process_dual_records_length dual_records : ∀ processed s processed' s',
  process_dual_records repr_ref format_exc self dual_records processed s
  = (Ok processed', s') →
  (length processed' ≤ length processed + 2 * length dual_records)%nat.
Proof.
  induction dual_records as [|dual_record dual_records IH];
    intros processed s processed' s' Hrun; simpl in Hrun.
  - injection Hrun as <- <-. lia.
  - apply bind_inv in Hrun as (records & s1 & Hget & Hrun).
    apply bind_inv in Hrun as (processed1 & s2 & Hproc & Hrun).
    apply get_records_length in Hget. apply process_records_length in Hproc.
    apply IH in Hrun. simpl. lia.
Qed.

Lemma getobjs_length ls : ∀ s ds s',
  getobjs ls s = (Ok ds, s') → length ds = length ls ∧ s' = s.
Proof.
  induction ls as [|l ls IH]; intros s ds s' Hrun; simpl in Hrun.
  - by injection Hrun as <- <-.
  - apply bind_inv in Hrun as (d & s1 & [_ ->]%getobj_inv & Hrun).
    apply bind_inv in Hrun as (ds' & s2 & Hrest & [= <- <-]).
    apply IH in Hrest as [Hlen ->]. simpl. by rewrite Hlen.
Qed.

(** X12: a run hands the sink one batch or nothing.  When [run] returns,
    the sink has accepted exactly one more batch, the whole list of the
    records that were kept, at most two for each dual record; when [run]
    raises, whatever failed, nothing has been added to what the sink holds
    and the last log entry is the error of the batch. *)
Theorem run_writes_one_batch_or_nothing dual_records s res s' :
  run repr_ref format_exc self dual_records s = (res, s') →
  match res with
  | Ok _ =>
      ∃ batch,
        written s' = written s ++ [batch]
        ∧ _writer self batch = Ok tt
        ∧ (length batch ≤ 2 * length dual_records)%nat
  | Raise e =>
      written s' = written s
      ∧ ∃ entries message,
          log s' = log s ++ entries
                   ++ [LogError "record_batch_anonymization_failed" message]
  end.
Proof.
  intros Hrun. unfold run, try_log in Hrun.
  destruct (process_dual_records repr_ref format_exc self dual_records [] s)
    as [[processed|e] s1] eqn:Hproc.
  2:{ rewrite (bind_raise _ _ _ _ _ Hproc) in Hrun. injection Hrun as <- <-.
      destruct (only_logs_process_dual_records _ _ _ _ _ _ _ _ Hproc)
        as [Hw [entries Hl]].
      split; [done|]. eexists entries, _. simpl. by rewrite Hl, <- app_assoc. }
  rewrite (bind_ok _ _ _ _ _ Hproc) in Hrun.
  destruct (only_logs_process_dual_records _ _ _ _ _ _ _ _ Hproc)
    as [Hw [entries Hl]].
  apply process_dual_records_length in Hproc. simpl in Hproc.
  rewrite (bind_ok _ _ _ _ _
             (eq_refl : log_info _ _ s1 = (Ok tt, add_log (LogInfo _ _) s1)))
    in Hrun.
  unfold write_records in Hrun.
  match type of Hrun with
  | context [add_log ?entry s1] =>
      destruct (getobjs processed (add_log entry s1)) as [[batch|e] s3] eqn:Hget
  end.
  2:{ rewrite (bind_raise _ _ _ _ _ Hget) in Hrun. injection Hrun as <- <-.
      destruct (only_logs_getobjs _ _ _ _ Hget) as [Hw3 [entries3 Hl3]].
      simpl in *. split; [congruence|].
      eexists (entries ++ _ :: entries3), _.
      rewrite Hl3, Hl. by rewrite <- !app_assoc. }
  rewrite (bind_ok _ _ _ _ _ Hget) in Hrun.
  apply getobjs_length in Hget as [Hlen ->].
  destruct (_writer self batch) as [[]|e] eqn:Hwrite.
  - injection Hrun as <- <-. exists batch. simpl. rewrite Hw.
    split; [done|]. split; [done|]. lia.
  - injection Hrun as <- <-. simpl. split; [done|].
    eexists (entries ++ [_]), _. rewrite Hl. by rewrite <- !app_assoc.
Qed.
End RunBatch.

Lemma run_writes_one_batch_or_nothing_witness :
  ∃ batch,
    written (run repr_elided traceback_text
               (scenario_job hide_fieldA_1 [] empty_masks) [0%nat]
               scenario_state).2
    = [batch]
    ∧ (length batch ≤ 2)%nat.
Proof.
  destruct (run_writes_one_batch_or_nothing repr_elided traceback_text
              (scenario_job hide_fieldA_1 [] empty_masks) [0%nat] scenario_state
              (Ok tt)
              (run repr_elided traceback_text
                 (scenario_job hide_fieldA_1 [] empty_masks) [0%nat]
                 scenario_state).2)
    as (batch & Hwritten & _ & Hlen).
  - vm_compute. reflexivity.
  - exists batch. split; [exact Hwritten | exact Hlen].
Defined.

(** ** The job: records that cannot be split *)

Lemma spec_translate_missing table k v items : ∀ d,
  (k, v) ∈ items → dict_get k table = None →
  spec_translate table items d = Raise KeyError.
Proof.
  induction items as [|[k0 v0] items IH]; intros d Hin Hnone;
    [by apply elem_of_nil in Hin|].
  simpl. destruct (dict_get k0 table) as [new_key|] eqn:Hk0; [|done].
  apply elem_of_cons in Hin as [Heq|Hin]; [simplify_eq | by apply IH].
Qed.

Section SplitErrors.
Variable format_exc : exn → string.
Variable self : AnonymizationJob.

(** What [_get_records] does when the client's record cannot be built. *)
Lemma get_records_client_fails dual_record s dual e s1 :
  heap s !! dual_record = Some dual →
  is_Some (dict_get "client" dual) →
  _get_agent_record self "client" dual_record s = (Raise e, s1) →
  _get_records format_exc self dual_record s
  = (Raise e,
     add_log (LogError "extracting_single_logs_from_record_failed"
                (format "Error at extracting single logs from dual record. ERROR: {0}"
                   [format_exc e])) s1).
Proof.
  intros Hdual [sub Hsub] Hrun. unfold _get_records, try_log.
  assert (Happend : append_agent_record self "client" dual_record [] s = (Raise e, s1)).
  { unfold append_agent_record.
    rewrite (bind_ok _ _ _ _ _ (getobj_ok _ _ _ Hdual)).
    unfold dict_mem. rewrite Hsub. by apply bind_raise. }
  by rewrite (bind_raise _ _ _ _ _ Happend).
Qed.

(** X13: a key without translation fails the split.  When the client's
    document of a dual record has a key that the client's table does not
    translate, [_get_records] raises [KeyError] and logs the error; no
    record is returned, nothing is written, and every object the store held
    is as it was. *)
Theorem untranslated_client_key_fails_the_split dual_record s dual l sub table k v :
  heap s !! dual_record = Some dual →
  dict_get "client" dual = Some (VRef l) →
  heap s !! l = Some sub →
  dict_get "client" (_field_translations self) = Some (TTable table) →
  (k, v) ∈ sub →
  dict_get k table = None →
  ∃ s' message,
    _get_records format_exc self dual_record s = (Raise KeyError, s')
    ∧ log s' = log s ++ [LogError "extracting_single_logs_from_record_failed" message]
    ∧ written s' = written s
    ∧ ∀ l' d', heap s !! l' = Some d' → heap s' !! l' = Some d'.
Proof.
  intros Hdual Hclient Hl Htable Hin Hnone.
  assert (Hrun : ∃ d', _get_agent_record self "client" dual_record s
                       = (Raise KeyError, set_heap (heap s ++ [d']) s)).
  { unfold _get_agent_record.
    rewrite (bind_ok _ _ _ _ _ (getitem_ok _ _ s _ Htable)).
    rewrite (bind_ok _ _ _ _ _ (getobj_ok _ _ _ Hdual)).
    rewrite (bind_ok _ _ _ _ _ (getitem_ok _ _ s _ Hclient)).
    rewrite (bind_ok _ _ _ _ _ (eq_refl : new_dict [] s = (_, _))).
    destruct (translate_items_spec table (length (heap s)) sub _ []
                (new_dict_lookup [] s)) as (d' & Hitems & _).
    rewrite (spec_translate_missing _ _ _ _ [] Hin Hnone) in Hitems.
    exists d'. apply bind_raise. simpl.
    rewrite (bind_ok _ _ _ _ _ (getobj_ok _ _ _ (old_lookup _ [] _ _ Hl))).
    rewrite Hitems. f_equal. apply touched_new. }
  destruct Hrun as (d' & Hrun).
  eexists _, _. split.
  { by apply (get_records_client_fails _ _ _ _ _ Hdual (mk_is_Some _ _ Hclient) Hrun). }
  simpl. split; [done|]. split; [done|].
  intros l' d0 Hl'. by apply lookup_app_l_Some.
Qed.

(** X14: a translation line that renames an agent breaks every split.  The
    line [client -> n] compiles: it replaces the client's table by a name,
    and no later line can bring the table back.  With such a table
    [_get_records] raises [TypeError] on every dual record whose client
    document is not empty. *)
Theorem renamed_agent_breaks_the_split lines line new_name
    dual_record s dual l k v items :
  _get_field_translations lines = Ok (_field_translations self) →
  line ∈ lines →
  split " -> " (strip line) = ["client"%string; new_name] →
  heap s !! dual_record = Some dual →
  dict_get "client" dual = Some (VRef l) →
  heap s !! l = Some ((k, v) :: items) →
  ∃ s', _get_records format_exc self dual_record s = (Raise TypeError, s').
Proof.
  intros Hcompile Hline Hsplit Hdual Hclient Hl.
  assert (Hname : ∃ n, dict_get "client" (_field_translations self) = Some (TName n)).
  { apply list_elem_of_split in Hline as (pre & post & ->).
    unfold _get_field_translations in Hcompile.
    apply add_translation_lines_app_inv in Hcompile as (tr0 & _ & Hrun).
    simpl in Hrun.
    destruct (add_translation_line tr0 line) as [tr1|e] eqn:Hthis; [|done].
    unfold add_translation_line in Hthis. rewrite Hsplit in Hthis.
    change (split "." "client") with ["client"%string] in Hthis.
    injection Hthis as <-.
    eapply (add_translation_lines_keep
              (fun tr => ∃ n, dict_get "client" tr = Some (TName n))
              (fun _ => True)); [|..|exact Hrun].
    - intros tra later trb (n & Hn) _. unfold add_translation_line.
      destruct (split " -> " (strip later)) as [|o [|n' [|c ls]]]; try done.
      destruct (split "." o) as [|q0 [|q1 [|q2 qs]]].
      + intros [= <-]. eauto.
      + intros [= <-]. rewrite dict_get_set.
        destruct (decide (q0 = "client"%string)); eauto.
      + destruct (dict_get q0 tra) as [[|tq]|] eqn:Hq0; try done.
        intros [= <-]. exists n. rewrite dict_get_set_ne; [done|].
        intros ->. congruence.
      + intros [= <-]. eauto.
    - eexists. apply dict_get_set_eq.
    - by apply Forall_forall. }
  destruct Hname as (n & Hname).
  assert (Hrun : _get_agent_record self "client" dual_record s
                 = (Raise TypeError, set_heap (heap s ++ [[]]) s)).
  { unfold _get_agent_record.
    rewrite (bind_ok _ _ _ _ _ (getitem_ok _ _ s _ Hname)).
    rewrite (bind_ok _ _ _ _ _ (getobj_ok _ _ _ Hdual)).
    rewrite (bind_ok _ _ _ _ _ (getitem_ok _ _ s _ Hclient)).
    rewrite (bind_ok _ _ _ _ _ (eq_refl : new_dict [] s = (_, _))).
    apply bind_raise. simpl.
    by rewrite (bind_ok _ _ _ _ _ (getobj_ok _ _ _ (old_lookup _ [] _ _ Hl))). }
  eexists.
  by apply (get_records_client_fails _ _ _ _ _ Hdual (mk_is_Some _ _ Hclient) Hrun).
Qed.
End SplitErrors.

Lemma untranslated_client_key_fails_the_split_witness :
  ∃ s',
    _get_records traceback_text (scenario_job [] [] empty_masks) 0%nat
      (JobState
         [ [("client", VRef 1); ("ts", VInt 100)];
           [("a", VStr "1"); ("b", VStr "2")] ]%string [] [])
    = (Raise KeyError, s')
    ∧ written s' = [].
Proof.
  destruct (untranslated_client_key_fails_the_split traceback_text
              (scenario_job [] [] empty_masks) 0%nat
              (JobState
                 [ [("client", VRef 1); ("ts", VInt 100)];
                   [("a", VStr "1"); ("b", VStr "2")] ]%string [] [])
              _ 1%nat _ [("a", "fieldA")]%string "b"%string (VStr "2")
              eq_refl eq_refl eq_refl eq_refl)
    as (s' & message & Hrun & _ & Hwritten & _).
  - apply elem_of_cons. right. apply elem_of_cons. by left.
  - reflexivity.
  - exists s'. split; [exact Hrun | exact Hwritten].
Defined.

Lemma renamed_agent_breaks_the_split_witness :
  ∃ s',
    _get_records traceback_text
      {| _writer := fun _ => Ok tt;
         _hiding_rules := [];
         _substitution_rules := [];
         _transformers := [];
         _field_translations :=
           [("client"%string, TName "customer");
            ("producer"%string, TTable [("a", "fieldA")]%string)];
         _field_value_masks := empty_masks |}
      0%nat scenario_state
    = (Raise TypeError, s').
Proof.
  apply (renamed_agent_breaks_the_split traceback_text
           {| _writer := fun _ => Ok tt;
              _hiding_rules := [];
              _substitution_rules := [];
              _transformers := [];
              _field_translations :=
                [("client"%string, TName "customer");
                 ("producer"%string, TTable [("a", "fieldA")]%string)];
              _field_value_masks := empty_masks |}
           ["producer.a -> fieldA"; "client -> customer"]%string
           "client -> customer" "customer" 0%nat scenario_state
           [("client", VRef 1); ("producer", VRef 2); ("ts", VInt 100)]%string
           1%nat "a"%string (VStr "1") []).
  - reflexivity.
  - apply elem_of_cons. right. apply elem_of_cons. by left.
  - reflexivity.
  - reflexivity.
  - reflexivity.
  - reflexivity.
Defined.

(** ** RuleCompiler and RuleEngine: hiding rules from the settings to the filter *)

Section HidingRulesFacts.
Variable re_compile : string → result pattern.
Variable repr_ref : store → loc → string.
Variable format_exc : exn → string.
Variable self : AnonymizationJob.

Lemma compile_constraints_inv rule : ∀ pairs,
  compile_constraints re_compile rule = Ok pairs →
  Forall2 (fun constraint field_pattern =>
             ∃ regex, dict_get "feature" constraint = Some field_pattern.1
                      ∧ dict_get "regex" constraint = Some regex
                      ∧ re_compile regex = Ok field_pattern.2) rule pairs.
Proof.
  induction rule as [|constraint rule IH]; intros pairs Hrun; simpl in Hrun.
  - injection Hrun as <-. constructor.
  - destruct (compile_constraint re_compile constraint) as [fp|e] eqn:Hc; [|done].
    destruct (compile_constraints re_compile rule) as [pairs'|e]; [|done].
    injection Hrun as <-. constructor; [|by apply IH].
    unfold compile_constraint in Hc.
    destruct (dict_get "feature" constraint) as [feature|]; [|done].
    destruct (dict_get "regex" constraint) as [regex|]; [|done].
    destruct (re_compile regex) as [p|e] eqn:Hp; [|done].
    injection Hc as <-. by exists regex.
Qed.

Lemma get_hiding_rules_inv rules : ∀ compiled,
  _get_hiding_rules re_compile rules = Ok compiled →
  Forall2 (fun rule pairs => compile_constraints re_compile rule = Ok pairs)
    rules compiled.
Proof.
  induction rules as [|rule rules IH]; intros compiled Hrun; simpl in Hrun.
  - injection Hrun as <-. constructor.
  - destruct (compile_constraints re_compile rule) as [pairs|e] eqn:Hc; [|done].
    destruct (_get_hiding_rules re_compile rules) as [compiled'|e]; [|done].
    injection Hrun as <-. constructor; [done | by apply IH].
Qed.

(** X15: from the settings to the filter.  When the hiding rules of the
    settings compile and the job runs with the compiled rules, a record of
    the store is hidden exactly when some rule of the settings has every
    constraint satisfied: the record has the constraint's feature and the
    compiled regex matches the string form of its value.  The rules are
    compiled all or none, group for group and constraint for constraint. *)
Theorem compiled_hiding_rules_hide settings record s d :
  _get_hiding_rules re_compile settings = Ok (_hiding_rules self) →
  heap s !! record = Some d →
  ∃ hidden,
    _should_be_hidden repr_ref format_exc self record s = (Ok hidden, s)
    ∧ (hidden = true ↔
         ∃ rule, rule ∈ settings
           ∧ Forall (fun constraint =>
                       ∃ feature regex p v,
                         dict_get "feature" constraint = Some feature
                         ∧ dict_get "regex" constraint = Some regex
                         ∧ re_compile regex = Ok p
                         ∧ dict_get feature d = Some v
                         ∧ p (py_str repr_ref (heap s) v) = true) rule)
    ∧ length (_hiding_rules self) = length settings.
Proof.
  intros Hcompile Hd. eexists. split; [by apply should_be_hidden_ok|].
  apply get_hiding_rules_inv in Hcompile.
  split; [|symmetry; by eapply Forall2_length].
  assert (Hrule : ∀ rule pairs,
    compile_constraints re_compile rule = Ok pairs →
    _record_matches_conditions repr_ref (heap s) d pairs = true ↔
    Forall (fun constraint =>
              ∃ feature regex p v,
                dict_get "feature" constraint = Some feature
                ∧ dict_get "regex" constraint = Some regex
                ∧ re_compile regex = Ok p
                ∧ dict_get feature d = Some v
                ∧ p (py_str repr_ref (heap s) v) = true) rule).
  { intros rule pairs Hc. apply compile_constraints_inv in Hc.
    rewrite matches_iff.
    induction Hc as [|constraint [feature p] rule pairs (regex & Hf & Hr & Hp) _ IH].
    - split; constructor.
    - rewrite !Forall_cons, IH. simpl in *. unfold condition_holds. simpl.
      split.
      + intros [(v & Hv & Hm) Hrest]. split; [|done]. by exists feature, regex, p, v.
      + intros [(f' & r' & p' & v & Hf' & Hr' & Hp' & Hv & Hm) Hrest].
        split; [|done]. rewrite Hf in Hf'. injection Hf' as <-.
        rewrite Hr in Hr'. injection Hr' as <-.
        rewrite Hp in Hp'. injection Hp' as <-. by exists v. }
  rewrite existsb_exists. split.
  - intros (pairs & Hin & Hm). apply list_elem_of_In in Hin.
    apply list_elem_of_lookup in Hin as [i Hi].
    destruct (Forall2_lookup_r _ _ _ _ _ Hcompile Hi) as (rule & Hrulei & Hc).
    exists rule. split; [by eapply list_elem_of_lookup_2|]. by apply (Hrule _ _ Hc).
  - intros (rule & Hin & Hall).
    apply list_elem_of_lookup in Hin as [i Hi].
    destruct (Forall2_lookup_l _ _ _ _ _ Hcompile Hi) as (pairs & Hpairsi & Hc).
    exists pairs. split; [by eapply list_elem_of_In, list_elem_of_lookup_2|].
    by apply (Hrule _ _ Hc).
Qed.
End HidingRulesFacts.

Lemma compiled_hiding_rules_hide_witness :
  _should_be_hidden repr_elided traceback_text
    (scenario_job hide_fieldA_1 [] empty_masks) 3%nat scenario_split_state
  = (Ok true, scenario_split_state).
Proof.
  destruct (compiled_hiding_rules_hide compile_scenario_regex repr_elided
              traceback_text (scenario_job hide_fieldA_1 [] empty_masks)
              scenario_hiding_settings 3%nat scenario_split_state _
              eq_refl eq_refl) as (hidden & Hrun & Hiff & _).
  rewrite Hrun. do 2 f_equal. apply Hiff.
  exists [ [("feature", "fieldA"); ("regex", "^1$")] ]%string.
  split; [by left|]. constructor; [|constructor].
  by exists "fieldA"%string, "^1$"%string, (exactly "1"), (VStr "1").
Defined.

(** ** The job: the names of a split record *)

Section SplitNames.
Variable self : AnonymizationJob.
Variable agent : string.

Local Abbreviation named d :=
  (∀ f, is_Some (dict_get f (d : dict)) → emitted_name self agent f).

Lemma named_set d k v : named d → emitted_name self agent k → named (dict_set k v d).
Proof.
  intros Hd Hk f. rewrite dict_get_set.
  destruct (decide (k = f)) as [<-|]; [done | apply Hd].
Qed.

Lemma translate_items_names table record items : ∀ s d,
  dict_get agent (_field_translations self) = Some table →
  heap s !! record = Some d → named d →
  ∃ res d', translate_items table record items s = (res, touched record d' s)
            ∧ named d'.
Proof.
  induction items as [|[k v] items IH]; intros s d Htable Hl Hd; simpl.
  - exists (Ok tt), d. by rewrite (touched_id _ _ _ Hl).
  - destruct table as [new_name|t].
    { exists (Raise TypeError), d. by rewrite (touched_id _ _ _ Hl). }
    simpl. unfold bind at 1. unfold getitem.
    destruct (dict_get k t) as [new_key|] eqn:Hk.
    + unfold ret. rewrite (bind_ok _ _ _ _ _ (setitem_touched _ _ _ _ _ Hl)).
      destruct (IH _ (dict_set new_key v d) Htable (touched_lookup _ _ _ _ Hl))
        as (res & d' & Hrun & Hd').
      { apply named_set; [done|]. left. by exists t, k. }
      exists res, d'. by rewrite Hrun, touched_touched.
    + exists (Raise KeyError), d. by rewrite (touched_id _ _ _ Hl).
Qed.

Lemma copy_shared_names record items : ∀ s d,
  heap s !! record = Some d → named d →
  ∃ res d', copy_shared (_field_translations self) record items s
            = (res, touched record d' s)
            ∧ named d'.
Proof.
  induction items as [|[k v] items IH]; intros s d Hl Hd; simpl.
  - exists (Ok tt), d. by rewrite (touched_id _ _ _ Hl).
  - unfold bind at 1. destruct (is_agent_key k); [unfold ret; by apply (IH _ d)|].
    unfold shared_name, bind, getitem.
    destruct (dict_get k (_field_translations self)) as [[new_key|table]|] eqn:Hk;
      simpl.
    + rewrite (setitem_touched _ _ _ _ _ Hl).
      destruct (IH _ (dict_set new_key v d) (touched_lookup _ _ _ _ Hl))
        as (res & d' & Hrun & Hd').
      { apply named_set; [done|]. right. left. by exists k. }
      exists res, d'. by rewrite Hrun, touched_touched.
    + exists (Raise TypeError), d. by rewrite (touched_id _ _ _ Hl).
    + exists (Raise KeyError), d. by rewrite (touched_id _ _ _ Hl).
Qed.

(** X16: a split record carries translated names only.  Every field of a
    record that [_get_agent_record] returns is named by a new name of the
    agent's translation table, by the new name of a shared field, or by a
    field of the agent's mask: no field keeps a name that the translation
    file does not give as a new name. *)
Theorem split_record_names_are_translated dual_record s record s' :
  _get_agent_record self agent dual_record s = (Ok record, s') →
  ∃ d,
    s' = set_heap (heap s ++ [d]) s
    ∧ record = length (heap s)
    ∧ ∀ f, is_Some (dict_get f d) → emitted_name self agent f.
Proof.
  unfold _get_agent_record. intros H.
  apply bind_inv in H as (table & s1 & [Htable ->]%getitem_inv & H).
  apply bind_inv in H as (dual & s1 & [Hdual ->]%getobj_inv & H).
  apply bind_inv in H as (sub & s1 & [Hsub ->]%getitem_inv & H).
  rewrite (bind_ok _ _ _ _ _ (eq_refl : new_dict [] s = (_, _))) in H.
  pose proof (new_dict_lookup [] s) as Hr.
  assert (Hnil : named ([] : dict)) by (intros f [? ?]; done).
  assert (Hta : ∃ res d1,
            translate_agent table (length (heap s)) sub (set_heap (heap s ++ [[]]) s)
            = (res, touched (length (heap s)) d1 (set_heap (heap s ++ [[]]) s))
            ∧ named d1).
  { pose proof (touched_id _ _ _ Hr) as Hid.
    destruct sub as [|b|z|[|c str]|l]; simpl;
      try (exists (Raise TypeError), []; by rewrite Hid).
    - exists (Ok tt), []. by rewrite Hid.
    - unfold bind. destruct table as [new_name|t]; simpl.
      + exists (Raise TypeError), []. by rewrite Hid.
      + unfold getitem. destruct (dict_get _ t); simpl;
          eexists _, []; by rewrite Hid.
    - unfold bind, getobj.
      destruct (heap (set_heap (heap s ++ [[]]) s) !! l) as [items|].
      + by apply (translate_items_names _ _ _ _ []).
      + exists (Raise BadReference), []. by rewrite Hid. }
  destruct Hta as (res1 & d1 & Hta & Hd1).
  apply bind_inv in H as ([] & s1 & Hta' & H).
  injection (eq_trans (eq_sym Hta) Hta') as _ <-.
  apply bind_inv in H as (dual' & s1 & [Hdual' ->]%getobj_inv & H).
  destruct (copy_shared_names (length (heap s)) dual' _ d1
              (touched_lookup _ _ d1 _ Hr) Hd1) as (res2 & d2 & Hcs & Hd2).
  apply bind_inv in H as ([] & s1 & Hcs' & H).
  injection (eq_trans (eq_sym Hcs) Hcs') as _ <-.
  rewrite touched_touched in H.
  apply bind_inv in H as (mask & s1 & [Hmask ->]%getitem_inv & H).
  rewrite (bind_ok _ _ _ _ _
             (mask_fields_ok (length (heap s)) (elements mask) _ _
                (touched_lookup _ _ d2 _ Hr))) in H.
  rewrite touched_touched in H. injection H as <- <-.
  exists (spec_mask (elements mask) d2).
  split; [apply touched_new|]. split; [done|].
  intros f. rewrite spec_mask_get.
  destruct (decide (f ∈ elements mask)) as [Hin|Hout]; [|apply Hd2].
  intros _. right. right. exists mask. split; [done|]. by apply elem_of_elements.
Qed.
End SplitNames.

Lemma split_record_names_are_translated_witness :
  ∃ d,
    heap (_get_agent_record (scenario_job [] [] mask_client_fieldA_fieldB)
            "client" 0%nat scenario_state).2 !! 3%nat = Some d
    ∧ Forall (fun item => emitted_name (scenario_job [] [] mask_client_fieldA_fieldB)
                            "client" item.1) d.
Proof.
  destruct (split_record_names_are_translated
              (scenario_job [] [] mask_client_fieldA_fieldB) "client" 0%nat
              scenario_state 3%nat
              (_get_agent_record (scenario_job [] [] mask_client_fieldA_fieldB)
                 "client" 0%nat scenario_state).2)
    as (d & Hstate & _ & Hnames).
  { vm_compute. reflexivity. }
  exists d. rewrite Hstate. split; [reflexivity|].
  apply Forall_forall. intros [f v] Hin. apply Hnames. simpl.
  clear Hstate Hnames. induction d as [|[k w] d IH]; [by apply elem_of_nil in Hin|].
  simpl. destruct (decide (f = k)); [by eexists|].
  apply IH. apply elem_of_cons in Hin as [[= -> ->]|Hin]; done.
Defined.
